(** * ethers-rpc-pool: a shallow embedding of the pooling engine

    The development follows the TypeScript sources one class per module:
    [Js] (the few JavaScript primitives the code leans on), [Utils]
    (error classification, [withTimeout]), [Stats], [Router],
    [RpsLimiter], [Semaphore], [InstrumentedProvider] and [RpcPoolProvider].

    Conventions.  JavaScript numbers that hold counters, indices and
    millisecond timestamps are integers ([Z]); numbers that the code
    divides or multiplies by a random draw (token balances, the timeout
    ratio, the jitter) are exact rationals ([Q]).  [undefined] is [None].
    [Date.now()] and [Math.random()] are inputs of the functions that read
    them. *)

From Stdlib Require Import ZArith QArith Qround Qminmax Qpower Qfield Lqa Lia.
From Stdlib Require Import String Ascii DecimalString DecimalPos.
From stdpp Require Import base option list gmap strings.

Local Open Scope Z_scope.

(* ===================================================================== *)
(** ** JavaScript primitives                                              *)
(* ===================================================================== *)

Module Js.

(** [a % b] on integer-valued numbers: the sign follows the dividend, and
    a zero divisor gives [NaN], written [None]. *)
Definition rem (a b : Z) : option Z :=
  if b =? 0 then None else Some (Z.rem a b).

(** [x + y] where [x] may be [NaN]. *)
Definition add (x : option Z) (y : Z) : option Z :=
  match x with Some a => Some (a + y) | None => None end.

(** [x % b] where [x] may be [NaN]. *)
Definition rem_nan (x : option Z) (b : Z) : option Z :=
  match x with Some a => rem a b | None => None end.

(** [arr[i]]: [undefined] for [NaN], a negative or an out-of-range index. *)
Definition index {A} (arr : list A) (i : option Z) : option A :=
  match i with
  | Some k => if k <? 0 then None else arr !! Z.to_nat k
  | None => None
  end.

(** [x || d] for a number: [undefined] and [0] are falsy. *)
Definition or_num (x : option Z) (d : Z) : Z :=
  match x with
  | Some v => if v =? 0 then d else v
  | None => d
  end.

(** [x || d] for a number that may be fractional. *)
Definition or_q (x : option Q) (d : Q) : Q :=
  match x with
  | Some v => if Qeq_bool v 0 then d else v
  | None => d
  end.

(** [x ?? d]. *)
Definition nullish {A} (x : option A) (d : option A) : option A :=
  match x with Some v => Some v | None => d end.

(** Template-literal rendering of an integer-valued number (decimal
    digits, a leading minus sign for negatives). *)
Definition num_to_string (z : Z) : string :=
  NilZero.string_of_int (Z.to_int z).

(** ASCII lower-casing, as used by the [i] flag of a regular expression
    whose pattern is ASCII. *)
Definition lower (c : ascii) : ascii :=
  let n := nat_of_ascii c in
  if ((65 <=? n) && (n <=? 90))%nat then ascii_of_nat (n + 32) else c.

(** [strip_ci p s]: when [s] starts with [p] (ignoring case), the rest. *)
Fixpoint strip_ci (p s : string) : option string :=
  match p, s with
  | EmptyString, _ => Some s
  | String a p', String b s' =>
      if Ascii.eqb (lower a) (lower b) then strip_ci p' s' else None
  | String _ _, EmptyString => None
  end.

(** [/p/i.test(s)] for a literal pattern [p]. *)
Fixpoint test_ci (p s : string) : bool :=
  match strip_ci p s with
  | Some _ => true
  | None => match s with
            | EmptyString => false
            | String _ s' => test_ci p s'
            end
  end.

(** [\s] on ASCII input: tab, line feed, vertical tab, form feed,
    carriage return, space.  Strings are sequences of ASCII characters;
    the blanks outside ASCII that [\s] also matches (U+00A0, U+FEFF, the
    space separators) do not occur in them. *)
Definition is_space (c : ascii) : bool :=
  let n := nat_of_ascii c in
  (((9 <=? n) && (n <=? 13)) || (n =? 32))%nat.

Fixpoint skip_spaces (s : string) : string :=
  match s with
  | String c s' => if is_space c then skip_spaces s' else s
  | EmptyString => s
  end.

(** [/p\s*q/i.test(s)] for literal [p] and [q], [q] not starting with a
    blank. *)
Fixpoint test_ci_gap (p q s : string) : bool :=
  match strip_ci p s with
  | Some rest =>
      match strip_ci q (skip_spaces rest) with
      | Some _ => true
      | None => match s with
                | EmptyString => false
                | String _ s' => test_ci_gap p q s'
                end
      end
  | None => match s with
            | EmptyString => false
            | String _ s' => test_ci_gap p q s'
            end
  end.

(** [/a|b|.../i.test(s)]. *)
Definition test_any_ci (ps : list string) (s : string) : bool :=
  existsb (fun p => test_ci p s) ps.

(** A number used as a limit: an integer, or one of the three values
    that [Number.isFinite] rejects ([NaN] also stands for what is no number
    at all).  Limits with a fractional part are left out. *)
Inductive Num :=
| Int (z : Z)
| PosInfinity
| NegInfinity
| NaN.

(** The property names a plain object inherits from [Object.prototype].
    For such a key [map[key]] is a function or an object, not [undefined],
    on a map without an entry of its own for it, so [(map[key] || 0) + 1]
    is a string and not a count. *)
Definition inherited (key : string) : bool :=
  bool_decide
    (key ∈ ["constructor"; "__proto__"; "hasOwnProperty"; "isPrototypeOf";
            "propertyIsEnumerable"; "toLocaleString"; "toString"; "valueOf";
            "__defineGetter__"; "__defineSetter__"; "__lookupGetter__";
            "__lookupSetter__"]).

(** The delay [setTimeout(f, ms)] arms for a whole number of
    milliseconds: [ms] itself from 1 to 2^31 - 1, and 1 otherwise. *)
Definition timerDelay (ms : Z) : Z :=
  if (1 <=? ms) && (ms <=? 2147483647) then ms else 1.

End Js.

(* ===================================================================== *)
(** ** utils.ts                                                           *)
(* ===================================================================== *)

Module Utils.

(** An error value, seen through the properties the classifiers read.
    A property that is absent ([undefined] or [null]) is [None].  A status
    property is [Some] of its value whenever it is present, since [??]
    stops at it: a number is written as itself, and a value of another
    type, which equals none of the status codes tested, as an integer
    that is none of them (-1, say).  [code] is [Some] only of a string;
    a [code] of another type is [None], as it equals no string. *)
Record JsError := {
  message : option string;            (* e?.message *)
  toString : string;                  (* String(e) *)
  code : option string;               (* e?.code *)
  status : option Z;                  (* e?.status *)
  response_status : option Z;         (* e?.response?.status *)
  response_statusCode : option Z;     (* e?.response?.statusCode *)
  error_status : option Z;            (* e?.error?.status *)
  error_response_status : option Z;   (* e?.error?.response?.status *)
  body_statusCode : option Z;         (* e?.body?.statusCode *)
  (* the three places a retry-after header is looked up; the value is what
     [Number(ra)] yields, [Some None] standing for a header that does not
     parse to a finite number *)
  response_headers_get : option (option Z);
  response_headers_idx : option (option Z);
  headers_idx : option (option Z);
}.

(** [new Error(msg)], optionally with a [status] and a [code] set on it,
    as the tests build their errors. *)
Definition mkError (msg : string) (st : option Z) (cd : option string) : JsError :=
  {| message := Some msg; toString := "Error: " ++ msg; code := cd;
     status := st; response_status := None; response_statusCode := None;
     error_status := None; error_response_status := None;
     body_statusCode := None; response_headers_get := None;
     response_headers_idx := None; headers_idx := None |}.

Definition getHttpStatus (e : JsError) : option Z :=
  Js.nullish (status e)
    (Js.nullish (response_status e)
       (Js.nullish (response_statusCode e)
          (Js.nullish (error_status e)
             (Js.nullish (error_response_status e)
                (body_statusCode e))))).

(** [String(e?.message || e)] *)
Definition msg_of (e : JsError) : string :=
  match message e with
  | Some m => if String.eqb m "" then toString e else m
  | None => toString e
  end.

Definition isRateLimitError (e : JsError) : bool :=
  let status := getHttpStatus e in
  if bool_decide (status = Some 429) || bool_decide (status = Some 402) then true
  else
    let msg := msg_of e in
    if Js.test_ci_gap "error code:" "1015" msg then true
    else Js.test_any_ci
           ["rate limit"; "payment required"; "too many requests";
            "429"; "quota"; "throttl"] msg.

Definition getRetryAfterMs (e : JsError) : option Z :=
  let ra :=
    Js.nullish (response_headers_get e)
      (Js.nullish (response_headers_idx e) (headers_idx e)) in
  match ra with
  | Some (Some n) => Some (n * 1000)
  | _ => None
  end.

Definition isTimeoutError (e : JsError) : bool :=
  if bool_decide (code e = Some "TIMEOUT") then true
  else
    let status := getHttpStatus e in
    if bool_decide (status = Some 504) then true
    else
      Js.test_any_ci
        ["timeout"; "timed out"; "ETIMEDOUT"; "ESOCKETTIMEDOUT";
         "ECONNABORTED"; "504 Gateway"] (msg_of e).

Definition shouldFailover (e : JsError) : bool :=
  let to := isTimeoutError e in
  let rl := isRateLimitError e in
  to || rl.

(** What a promise does: settle after [at_ms] milliseconds with a value or
    an error, or stay pending for ever. *)
Inductive Outcome (V : Type) :=
| Resolved (v : V)
| Rejected (e : JsError).
Arguments Resolved {V} v.
Arguments Rejected {V} e.

Inductive Settles (V : Type) :=
| After (at_ms : Z) (o : Outcome V)
| Never.
Arguments After {V} at_ms o.
Arguments Never {V}.

(** The error [withTimeout] synthesizes.  The optional parts of the
    message test the method and the provider id for truthiness; the chain
    id the provider passes is always a number. *)
Definition timeoutError (ms : Z) (method providerId : string) (chainId : Z) : JsError :=
  mkError ("RPC timeout after " ++ Js.num_to_string ms ++ "ms"
           ++ (if String.eqb method "" then "" else " method=" ++ method)
           ++ (if String.eqb providerId "" then "" else " provider=" ++ providerId)
           ++ " chainId=" ++ Js.num_to_string chainId)
          None (Some "TIMEOUT").

(** [withTimeout(p, ms, meta)]: the race between [p] and a timer armed
    with [ms].  The timer fires [Js.timerDelay ms] milliseconds later, when
    it is due; the error it rejects with carries [ms] as given.  When both settle in the
    same millisecond the promise, which exists before the timer is set, is
    the one that settles the race, as is the case of two timers of equal
    delay. *)
Definition withTimeout {V} (p : Settles V) (ms : Z)
    (method providerId : string) (chainId : Z) : Z * Outcome V :=
  let fires := Js.timerDelay ms in
  match p with
  | After d o =>
      if d <=? fires then (d, o)
      else (fires, Rejected (timeoutError ms method providerId chainId))
  | Never => (fires, Rejected (timeoutError ms method providerId chainId))
  end.

End Utils.

(* ===================================================================== *)
(** ** Stats.ts                                                           *)
(* ===================================================================== *)

Module Stats.

Record Stats := {
  _total : Z;
  _inFlight : Z;
  _perMethod : gmap string Z;
  _rateLimitedTotal : Z;
  _timeoutTotal : Z;
  _perProviderInFlight : gmap string Z;
  _perProviderTotal : gmap string Z;
  _perProviderTimeout : gmap string Z;
  _perProviderRateLimited : gmap string Z;
  _providerCooldownUntil : gmap string Z;
}.

(** [new Stats()] *)
Definition new : Stats :=
  {| _total := 0; _inFlight := 0; _perMethod := ∅;
     _rateLimitedTotal := 0; _timeoutTotal := 0;
     _perProviderInFlight := ∅; _perProviderTotal := ∅;
     _perProviderTimeout := ∅; _perProviderRateLimited := ∅;
     _providerCooldownUntil := ∅ |}.

(** [map[key] || 0], for a key that is no inherited property name
    ([Js.inherited key = false]): the maps are plain objects, and the
    entries of a finite map are the properties of the object's own.  The
    keys the pool itself produces are provider ids, which start with
    "rpc#"; a method name is whatever the caller of [send] passes. *)
Definition get (map : gmap string Z) (key : string) : Z :=
  Js.or_num (map !! key) 0.

Definition _bump (map : gmap string Z) (key : string) : gmap string Z :=
  <[key := get map key + 1]> map.

Definition _decrease (map : gmap string Z) (key : string) : gmap string Z :=
  <[key := Z.max (get map key - 1) 0]> map.

Definition bumpInFlightPerProvider (id : string) (s : Stats) : Stats :=
  {| _total := _total s; _inFlight := _inFlight s + 1;
     _perMethod := _perMethod s;
     _rateLimitedTotal := _rateLimitedTotal s;
     _timeoutTotal := _timeoutTotal s;
     _perProviderInFlight := _bump (_perProviderInFlight s) id;
     _perProviderTotal := _perProviderTotal s;
     _perProviderTimeout := _perProviderTimeout s;
     _perProviderRateLimited := _perProviderRateLimited s;
     _providerCooldownUntil := _providerCooldownUntil s |}.

Definition decreaseInFlightPerProvider (id : string) (s : Stats) : Stats :=
  {| _total := _total s; _inFlight := Z.max (_inFlight s - 1) 0;
     _perMethod := _perMethod s;
     _rateLimitedTotal := _rateLimitedTotal s;
     _timeoutTotal := _timeoutTotal s;
     _perProviderInFlight := _decrease (_perProviderInFlight s) id;
     _perProviderTotal := _perProviderTotal s;
     _perProviderTimeout := _perProviderTimeout s;
     _perProviderRateLimited := _perProviderRateLimited s;
     _providerCooldownUntil := _providerCooldownUntil s |}.

Definition bumpPerMethod (method : string) (s : Stats) : Stats :=
  {| _total := _total s; _inFlight := _inFlight s;
     _perMethod := _bump (_perMethod s) method;
     _rateLimitedTotal := _rateLimitedTotal s;
     _timeoutTotal := _timeoutTotal s;
     _perProviderInFlight := _perProviderInFlight s;
     _perProviderTotal := _perProviderTotal s;
     _perProviderTimeout := _perProviderTimeout s;
     _perProviderRateLimited := _perProviderRateLimited s;
     _providerCooldownUntil := _providerCooldownUntil s |}.

Definition bumpRateLimitedPerProvider (id : string) (s : Stats) : Stats :=
  {| _total := _total s; _inFlight := _inFlight s;
     _perMethod := _perMethod s;
     _rateLimitedTotal := _rateLimitedTotal s + 1;
     _timeoutTotal := _timeoutTotal s;
     _perProviderInFlight := _perProviderInFlight s;
     _perProviderTotal := _perProviderTotal s;
     _perProviderTimeout := _perProviderTimeout s;
     _perProviderRateLimited := _bump (_perProviderRateLimited s) id;
     _providerCooldownUntil := _providerCooldownUntil s |}.

Definition bumpTimeoutPerProvider (id : string) (s : Stats) : Stats :=
  {| _total := _total s; _inFlight := _inFlight s;
     _perMethod := _perMethod s;
     _rateLimitedTotal := _rateLimitedTotal s;
     _timeoutTotal := _timeoutTotal s + 1;
     _perProviderInFlight := _perProviderInFlight s;
     _perProviderTotal := _perProviderTotal s;
     _perProviderTimeout := _bump (_perProviderTimeout s) id;
     _perProviderRateLimited := _perProviderRateLimited s;
     _providerCooldownUntil := _providerCooldownUntil s |}.

Definition bumpProviderTotal (id : string) (s : Stats) : Stats :=
  {| _total := _total s + 1; _inFlight := _inFlight s;
     _perMethod := _perMethod s;
     _rateLimitedTotal := _rateLimitedTotal s;
     _timeoutTotal := _timeoutTotal s;
     _perProviderInFlight := _perProviderInFlight s;
     _perProviderTotal := <[id := get (_perProviderTotal s) id + 1]> (_perProviderTotal s);
     _perProviderTimeout := _perProviderTimeout s;
     _perProviderRateLimited := _perProviderRateLimited s;
     _providerCooldownUntil := _providerCooldownUntil s |}.

(** [n ? t / n : 0] *)
Definition timeoutRatio (s : Stats) (id : string) : Q :=
  let t := get (_perProviderTimeout s) id in
  let n := get (_perProviderTotal s) id in
  if n =? 0 then 0%Q else (inject_Z t / inject_Z n)%Q.

(** [isInCooldown(id)], with the reading of [Date.now()] as [now]. *)
Definition isInCooldown (s : Stats) (now : Z) (id : string) : bool :=
  get (_providerCooldownUntil s) id >? now.

(** [setCooldown(id, ms)], with the reading of [Date.now()] as [now]. *)
Definition setCooldown (id : string) (ms : Z) (now : Z) (s : Stats) : Stats :=
  {| _total := _total s; _inFlight := _inFlight s;
     _perMethod := _perMethod s;
     _rateLimitedTotal := _rateLimitedTotal s;
     _timeoutTotal := _timeoutTotal s;
     _perProviderInFlight := _perProviderInFlight s;
     _perProviderTotal := _perProviderTotal s;
     _perProviderTimeout := _perProviderTimeout s;
     _perProviderRateLimited := _perProviderRateLimited s;
     _providerCooldownUntil := <[id := now + ms]> (_providerCooldownUntil s) |}.

(** [snapshot()]: the maps are values here, so the copy is the record. *)
Record RpcStatsSnapshot := {
  total : Z;
  inFlight : Z;
  perMethodTotal : gmap string Z;
  rateLimitedTotal : Z;
  perProviderRateLimited : gmap string Z;
  timeoutTotal : Z;
  perProviderTimeout : gmap string Z;
  perProviderTotal : gmap string Z;
  providerCooldownUntil : gmap string Z;
  perProviderInFlight : gmap string Z;
}.

Definition snapshot (s : Stats) : RpcStatsSnapshot :=
  {| total := _total s; inFlight := _inFlight s;
     perMethodTotal := _perMethod s;
     rateLimitedTotal := _rateLimitedTotal s;
     timeoutTotal := _timeoutTotal s;
     perProviderInFlight := _perProviderInFlight s;
     perProviderRateLimited := _perProviderRateLimited s;
     perProviderTimeout := _perProviderTimeout s;
     perProviderTotal := _perProviderTotal s;
     providerCooldownUntil := _providerCooldownUntil s |}.

End Stats.

(* ===================================================================== *)
(** ** Router.ts                                                          *)
(* ===================================================================== *)

Module Router.

(** An [Endpoint], without its two object-valued fields: the client is
    reached through the pool's [provider_send], the limiter through the
    client. *)
Record Endpoint := { providerId : string; url : string }.

Record Router := { endpoints : list Endpoint; rr : Z }.

(** [new Router(endpoints, stats)] *)
Definition new (eps : list Endpoint) : Router := {| endpoints := eps; rr := 0 |}.

Definition size (r : Router) : Z := Z.of_nat (length (endpoints r)).

(** [((rr % n) + n) % n] *)
Definition slot (rr n : Z) : option Z :=
  Js.rem_nan (Js.add (Js.rem rr n) n) n.

(** What a call of [pick] does: return a value (possibly [undefined]) or
    throw the [TypeError] of reading [providerId] off [undefined]. *)
Inductive Picked :=
| Returns (ep : option Endpoint)
| ThrowsTypeError.

(** The [for] loop with [k] iterations left, then the fallback [return].
    Every evaluation of the index expression increments [rr]. *)
Fixpoint scan (k : nat) (eps : list Endpoint) (n : Z)
    (stats : Stats.Stats) (now : Z) (rr : Z) : Picked * Z :=
  match k with
  | O => (Returns (Js.index eps (slot rr n)), rr + 1)
  | S k' =>
      match Js.index eps (slot rr n) with
      | Some ep =>
          if negb (Stats.isInCooldown stats now (providerId ep))
          then (Returns (Some ep), rr + 1)
          else scan k' eps n stats now (rr + 1)
      | None => (ThrowsTypeError, rr + 1)
      end
  end.

(** [pick()]; the clock is read once per call. *)
Definition pick (r : Router) (stats : Stats.Stats) (now : Z) : Picked * Router :=
  let n := size r in
  let '(res, rr') := scan (length (endpoints r)) (endpoints r) n stats now (rr r) in
  (res, {| endpoints := endpoints r; rr := rr' |}).

(** Successive calls of [pick] against an unchanged registry and clock,
    keeping the provider ids of the endpoints returned. *)
Fixpoint picks (k : nat) (r : Router) (stats : Stats.Stats) (now : Z)
    : list (option string) :=
  match k with
  | O => []
  | S k' =>
      let '(res, r') := pick r stats now in
      match res with
      | Returns ep => (providerId <$> ep) :: picks k' r' stats now
      | ThrowsTypeError => []
      end
  end.

End Router.


(* ===================================================================== *)
(** ** RpsLimiter.ts                                                      *)
(* ===================================================================== *)

Module RpsLimiter.

Local Open Scope Q_scope.

(** Token amounts are exact rationals.  The code computes them in
    double precision, which can move a balance by a rounding error and the
    [Math.ceil] of a waiting time by one millisecond; what is proved about
    this module is about which calls return and what they leave behind,
    not about waiting times to the millisecond. *)

Record RpsLimiter := {
  rps : Q;
  burst : Q;
  tokens : Q;
  lastRefill : Z;
}.

(** [new RpsLimiter(rps, burst)] at clock reading [now]; an omitted
    [burst] defaults to [Math.max(1, Math.ceil(rps))]. *)
Definition new (rps : Q) (burst : option Q) (now : Z) : RpsLimiter :=
  let b := match burst with
           | Some b => b
           | None => Qmax 1 (inject_Z (Qceiling rps))
           end in
  {| rps := rps; burst := b; tokens := b; lastRefill := now |}.

Definition refill (now : Z) (l : RpsLimiter) : RpsLimiter :=
  if Qle_bool (rps l) 0 then l
  else
    let elapsed := (now - lastRefill l)%Z in
    if (elapsed <=? 0)%Z then l
    else
      let add := (inject_Z elapsed / 1000) * rps l in
      {| rps := rps l; burst := burst l;
         tokens := Qmin (burst l) (tokens l + add);
         lastRefill := now |}.

(** One pass through the body of [while (true)]: either the tokens are
    paid and [take] returns, or a timer of [min(waitMs, 250)] ms is set. *)
Inductive Pass :=
| Paid (l : RpsLimiter)
| Sleep (l : RpsLimiter) (ms : Z).

Definition pass (now : Z) (count : Q) (l : RpsLimiter) : Pass :=
  let l := refill now l in
  if Qle_bool count (tokens l) then
    Paid {| rps := rps l; burst := burst l;
            tokens := tokens l - count; lastRefill := lastRefill l |}
  else
    let need := count - tokens l in
    let waitMs := Qceiling ((need / rps l) * 1000) in
    Sleep l (Z.min waitMs 250).

(** The loop of [take].  A timer of [ms] milliseconds set at clock reading
    [now] wakes the caller at [now + ms + lag i], where [lag i] is the
    (non-negative) lateness of the [i]-th timer.  [None]: still waiting
    when the fuel ran out. *)
Fixpoint wait (fuel : nat) (lag : nat -> N) (i : nat) (now : Z) (count : Q)
    (l : RpsLimiter) : option (RpsLimiter * Z) :=
  match fuel with
  | O => None
  | S fuel' =>
      match pass now count l with
      | Paid l' => Some (l', now)
      | Sleep l' ms =>
          wait fuel' lag (S i) (now + ms + Z.of_N (lag i))%Z count l'
      end
  end.

(** [take(count)], called at clock reading [now]; the result is the
    limiter and the clock reading when the promise resolves. *)
Definition take (fuel : nat) (lag : nat -> N) (now : Z) (count : Q)
    (l : RpsLimiter) : option (RpsLimiter * Z) :=
  if Qeq_bool (rps l) 0 || Qle_bool (rps l) 0 then Some (l, now)
  else wait fuel lag 0 now count l.

(** How many tokens are missing for [count] at clock reading [now], the
    refill due since [lastRefill] counted in. *)
Definition deficit (l : RpsLimiter) (now : Z) (count : Q) : Q :=
  count - tokens l - (inject_Z (now - lastRefill l) / 1000) * rps l.

End RpsLimiter.

(* ===================================================================== *)
(** ** Semaphore.ts                                                       *)
(* ===================================================================== *)

Module Semaphore.

(** The callers of [acquire] are numbered in call order; a queue entry is
    the number of the caller whose promise it will resolve. *)
Record Semaphore := {
  max : Z;
  inUse : Z;
  queue : list nat;
}.

(** The constructor: it throws ([None]) when
    [!Number.isFinite(max) || max <= 0]. *)
Definition new (max : Js.Num) : option Semaphore :=
  match max with
  | Js.Int m =>
      if m <=? 0 then None
      else Some {| max := m; inUse := 0; queue := [] |}
  | Js.PosInfinity | Js.NegInfinity | Js.NaN => None
  end.

(** The semaphore together with what its callers hold: [granted] lists the
    callers whose promise has resolved, in the order the slots were given;
    [released] holds the callers whose handle has its [released] flag set;
    [calls] counts the calls of [acquire]. *)
Record System := {
  sem : Semaphore;
  granted : list nat;
  released : gset nat;
  calls : nat;
}.

Definition init (s : Semaphore) : System :=
  {| sem := s; granted := []; released := ∅; calls := 0 |}.

Definition acquire (st : System) : System :=
  let s := sem st in
  let me := calls st in
  if inUse s <? max s then
    {| sem := {| max := max s; inUse := inUse s + 1; queue := queue s |};
       granted := granted st ++ [me];
       released := released st;
       calls := S (calls st) |}
  else
    {| sem := {| max := max s; inUse := inUse s; queue := queue s ++ [me] |};
       granted := granted st;
       released := released st;
       calls := S (calls st) |}.

(** The private [release()]: free a slot, then run the first queued
    closure, which takes the slot and resolves its caller. *)
Definition release (st : System) : System :=
  let s := sem st in
  let inUse' := Z.max 0 (inUse s - 1) in
  match queue s with
  | next :: rest =>
      {| sem := {| max := max s; inUse := inUse' + 1; queue := rest |};
         granted := granted st ++ [next];
         released := released st;
         calls := calls st |}
  | [] =>
      {| sem := {| max := max s; inUse := inUse'; queue := [] |};
         granted := granted st;
         released := released st;
         calls := calls st |}
  end.

(** Calling the handle that caller [h] received.  A caller that has not
    been granted a slot holds no handle. *)
Definition call_handle (h : nat) (st : System) : System :=
  if bool_decide (h ∈ granted st) then
    if bool_decide (h ∈ released st) then st
    else release {| sem := sem st; granted := granted st;
                    released := {[h]} ∪ released st; calls := calls st |}
  else st.

Inductive Op :=
| Acquire
| Release (h : nat).

Definition step (st : System) (op : Op) : System :=
  match op with
  | Acquire => acquire st
  | Release h => call_handle h st
  end.

Definition run (ops : list Op) (st : System) : System :=
  fold_left step ops st.

(** The acquisitions granted and not yet released. *)
Definition unreleased (st : System) : list nat :=
  filter (fun h => h ∉ released st) (granted st).

(** What every reachable state satisfies: the slot count is in range and
    counts the unreleased acquisitions, the callers granted so far followed
    by the queue are the callers in call order, nobody queues while a slot
    is free, and only granted callers have released. *)
Record Inv (st : System) : Prop := {
  inv_range : 0 <= inUse (sem st) <= max (sem st);
  inv_count : Z.of_nat (length (unreleased st)) = inUse (sem st);
  inv_order : granted st ++ queue (sem st) = seq 0 (calls st);
  inv_full : queue (sem st) <> [] -> inUse (sem st) = max (sem st);
  inv_released : forall h, h ∈ released st -> h ∈ granted st;
}.

End Semaphore.


(* ===================================================================== *)
(** ** InstrumentedProvider.ts                                            *)
(* ===================================================================== *)

Module InstrumentedProvider.

Import Utils.

(** [ProviderParams], without the registry and the observer: the registry
    is threaded through the calls, and events do not feed back into the
    state. *)
Record ProviderParams := {
  url : string;
  chainId : Z;
  providerId : string;
  inFlight : option Js.Num;
  timeout : option Z;
  rps : option Q;
  rpsBurst : option Q;
}.

(** The two limiters the constructor builds, from
    [{ rps = 10, rpsBurst, inFlight = 1 } = params]. *)
Definition inFlightLimiter (p : ProviderParams) : option Semaphore.Semaphore :=
  Semaphore.new (default (Js.Int 1) (inFlight p)).

Definition rpsLimiter (p : ProviderParams) (now : Z) : RpsLimiter.RpsLimiter :=
  let rps := default 10%Q (rps p) in
  RpsLimiter.new rps (Some (Js.or_q (rpsBurst p) rps)) now.

(** [this.params.timeout || 10_0000], the delay handed to [withTimeout]. *)
Definition timeoutMs (p : ProviderParams) : Z :=
  Js.or_num (timeout p) 100000.

(** The delay the earlier revision of the class, which has no [timeout]
    parameter, hands to [withTimeout]: the literal [10_000]. *)
Definition timeoutMs_fixed : Z := 10000.

(** The body of [if (isTimeout) { ... }] after the counter is bumped:
    the delay passed to [setCooldown], if it is called.  [rnd] is the
    value of [Math.random()]. *)
Definition timeoutCooldown (id : string) (rnd : Q) (e : JsError)
    (st : Stats.Stats) : option Z :=
  let n := Stats.get (Stats.perProviderTotal (Stats.snapshot st)) id in
  let ratio := Stats.timeoutRatio st id in
  if (50 <=? n) && Qle_bool (2 # 10) ratio then
    let cooldownMs := if Qle_bool (5 # 10) ratio then 600 * 1000 else 60000 in
    let raMs := default cooldownMs (getRetryAfterMs e) in
    Some (raMs + Qfloor (rnd * 1000))
  else None.

(** The [catch] block up to the [throw], at clock reading [now]. *)
Definition onError (id : string) (now : Z) (rnd : Q) (e : JsError)
    (st : Stats.Stats) : Stats.Stats :=
  let rl := isRateLimitError e in
  let st :=
    if rl then
      let st := Stats.bumpRateLimitedPerProvider id st in
      let cooldownMs := 10000 in
      let raMs := default cooldownMs (getRetryAfterMs e) in
      Stats.setCooldown id raMs now st
    else st in
  let isTimeout := isTimeoutError e in
  if isTimeout then
    let st := Stats.bumpTimeoutPerProvider id st in
    match timeoutCooldown id rnd e st with
    | Some ms => Stats.setCooldown id ms now st
    | None => st
    end
  else st.

(** [_sendInstrumented(method, params)], started at clock reading
    [startedAt]; [base] is what [super.send(method, params)] does and
    [ms] the delay of the race.  Returns the outcome, the registry and
    the clock reading at the end. *)
Definition sendInstrumentedWith {V} (ms : Z) (p : ProviderParams)
    (method : string) (base : Settles V) (startedAt : Z) (rnd : Q)
    (st : Stats.Stats) : Outcome V * Stats.Stats * Z :=
  let id := providerId p in
  let st := Stats.bumpInFlightPerProvider id st in
  let st := Stats.bumpProviderTotal id st in
  let st := Stats.bumpPerMethod method st in
  let '(d, res) := withTimeout base ms method id (chainId p) in
  let endedAt := startedAt + d in
  match res with
  | Resolved v => (Resolved v, Stats.decreaseInFlightPerProvider id st, endedAt)
  | Rejected e =>
      (Rejected e,
       Stats.decreaseInFlightPerProvider id (onError id endedAt rnd e st),
       endedAt)
  end.

Definition _sendInstrumented {V} (p : ProviderParams) :=
  @sendInstrumentedWith V (timeoutMs p) p.

End InstrumentedProvider.

(* ===================================================================== *)
(** ** RpcPoolProvider.ts                                                 *)
(* ===================================================================== *)

Module RpcPoolProvider.

Import Utils.

Record RPCPoolProviderParams := {
  chainId : Z;
  urls : list string;
  perUrl_inFlight : Js.Num;
  retry_attempts : Z;
}.

Record RPCPoolProvider := {
  params : RPCPoolProviderParams;
  router : Router.Router;
  stats : Stats.Stats;
}.

(** The template literal of the constructor, for the [i]-th url
    (counting from 0). *)
Definition mkProviderId (chainId : Z) (i : nat) (url : string) : string :=
  "rpc#" ++ Js.num_to_string (Z.of_nat i + 1)
  ++ "-chainId:" ++ Js.num_to_string chainId ++ "-" ++ url.

(** The constructor; it throws ([None]) when a [Semaphore] cannot be
    built for some url. *)
Definition new (p : RPCPoolProviderParams) : option RPCPoolProvider :=
  let mk (i : nat) (url : string) : option Router.Endpoint :=
    let providerId := mkProviderId (chainId p) i url in
    match Semaphore.new (perUrl_inFlight p) with
    | Some _ => Some {| Router.providerId := providerId; Router.url := url |}
    | None => None
    end in
  match mapM id (imap mk (urls p)) with
  | Some endpoints =>
      Some {| params := p; router := Router.new endpoints; stats := Stats.new |}
  | None => None
  end.

(** What a call of [send] can see and change outside itself. *)
Record World := {
  w_router : Router.Router;
  w_stats : Stats.Stats;
  w_now : Z;
}.

Inductive Event :=
| EvPick (ep : Router.Endpoint)      (* router.pick() returned ep *)
| EvSend (ep : Router.Endpoint)      (* ep.provider.send was called *)
| EvBackoff (ms : Q).                (* setTimeout(resolve, ms) *)

(** The local state of one call of [send]. *)
Record Loop := {
  tried : gset string;
  world : World;
  draws : nat;                       (* calls of Math.random() so far *)
  trace : list Event;
}.

Definition noRpc : JsError := mkError "No RPC available" None None.

(** Reading [providerId] off [undefined]. *)
Definition typeError : JsError :=
  {| message := Some "Cannot read properties of undefined (reading 'providerId')";
     toString := "TypeError: Cannot read properties of undefined (reading 'providerId')";
     code := None; status := None; response_status := None;
     response_statusCode := None; error_status := None;
     error_response_status := None; body_statusCode := None;
     response_headers_get := None; response_headers_idx := None;
     headers_idx := None |}.

(** [Math.min(1000 * Math.pow(2, tried.size - 1), 5000)] *)
Definition baseDelay (triedSize : nat) : Q :=
  Qmin (1000 * 2 ^ (Z.of_nat triedSize - 1)) 5000.

Section Send.

Context {V : Type}.
(** [ep.provider.send(method, params)]: the outcome, and what the call
    did to the registry and the clock meanwhile. *)
Variable provider_send : Router.Endpoint -> string -> World -> Outcome V * World.
(** The successive values of [Math.random()]. *)
Variable random : nat -> Q.
(** The clock runs on by itself.  [lag i] is the number of milliseconds
    by which it is ahead of what the loop asked for when the pass that
    started after [i] events of the trace is followed by the next one:
    after a backoff, the lateness of the timer; after a [continue], where
    the loop does not yield and asked for no time at all, the time the pass
    took, which the next [pick] sees because it reads the clock afresh. *)
Variable lag : nat -> N.
Variable method : string.
Variable maxUniqueTries : Z.

Inductive Iter :=
| Continue (s : Loop)
| Return (o : Outcome V) (s : Loop).

(** One pass through the body of the [while] loop. *)
Definition iteration (s : Loop) : Iter :=
  let w := world s in
  let '(res, router') := Router.pick (w_router w) (w_stats w) (w_now w) in
  let w := {| w_router := router'; w_stats := w_stats w; w_now := w_now w |} in
  match res with
  | Router.ThrowsTypeError | Router.Returns None =>
      Return (Rejected typeError)
        {| tried := tried s; world := w; draws := draws s; trace := trace s |}
  | Router.Returns (Some ep) =>
      if bool_decide (Router.providerId ep ∈ tried s) then
        let w := {| w_router := w_router w; w_stats := w_stats w;
                    w_now := w_now w + Z.of_N (lag (length (trace s))) |} in
        Continue {| tried := tried s; world := w; draws := draws s;
                    trace := trace s ++ [EvPick ep] |}
      else
        let tried' := {[Router.providerId ep]} ∪ tried s in
        let '(out, w) := provider_send ep method w in
        let tr := trace s ++ [EvPick ep; EvSend ep] in
        match out with
        | Resolved v =>
            Return (Resolved v)
              {| tried := tried'; world := w; draws := draws s; trace := tr |}
        | Rejected e =>
            if negb (shouldFailover e) then
              Return (Rejected e)
                {| tried := tried'; world := w; draws := draws s; trace := tr |}
            else if maxUniqueTries <=? Z.of_nat (size tried') then
              Return (Rejected e)
                {| tried := tried'; world := w; draws := draws s; trace := tr |}
            else
              let jitter := (random (draws s) * baseDelay (size tried'))%Q in
              (* the timer fires after the delay, cut to whole
                 milliseconds and at least one, or later *)
              let w := {| w_router := w_router w; w_stats := w_stats w;
                          w_now := w_now w + Z.max 1 (Qfloor jitter)
                                   + Z.of_N (lag (length (trace s))) |} in
              Continue {| tried := tried'; world := w; draws := S (draws s);
                          trace := tr ++ [EvBackoff jitter] |}
        end
  end.

(** The [while] loop and the [throw] after it.  [None]: the fuel ran
    out before the call settled. *)
Fixpoint loop (fuel : nat) (s : Loop) : option (Outcome V * Loop) :=
  match fuel with
  | O => None
  | S fuel' =>
      if Z.of_nat (size (tried s)) <? maxUniqueTries then
        match iteration s with
        | Continue s' => loop fuel' s'
        | Return o s' => Some (o, s')
        end
      else Some (Rejected noRpc, s)
  end.

(** The local state of the call after [k] passes through the loop, or the
    state it settled in when it settled earlier: what [loop] has reached
    with fuel [k], whether or not the call is over. *)
Fixpoint after_passes (k : nat) (s : Loop) : Loop :=
  match k with
  | O => s
  | S k' =>
      if Z.of_nat (size (tried s)) <? maxUniqueTries then
        match iteration s with
        | Continue s' => after_passes k' s'
        | Return _ s' => s'
        end
      else s
  end.

End Send.

(** [send(method, params)] on a pool whose router and registry are those
    of [w]. *)
Definition send {V} (provider_send : Router.Endpoint -> string -> World -> Outcome V * World)
    (random : nat -> Q) (lag : nat -> N) (attempts : Z) (fuel : nat)
    (method : string) (w : World)
    : option (Outcome V * Loop) :=
  let maxUniqueTries := Z.min attempts (Router.size (w_router w)) in
  loop provider_send random lag method maxUniqueTries fuel
    {| tried := ∅; world := w; draws := 0; trace := [] |}.

(** The client the constructor installs for every endpoint, called while
    no other call is in flight: the semaphore grants at once, and the
    call is [_sendInstrumented] with the fixed race delay.  [base] is what
    the transport does for the endpoint; the cooldown jitter draws [rnd]. *)
Definition instrumented_send {V} (chainId : Z)
    (base : Router.Endpoint -> string -> Settles V) (rnd : Q)
    (ep : Router.Endpoint) (method : string) (w : World) : Outcome V * World :=
  let p := {| InstrumentedProvider.url := Router.url ep;
              InstrumentedProvider.chainId := chainId;
              InstrumentedProvider.providerId := Router.providerId ep;
              InstrumentedProvider.inFlight := None;
              InstrumentedProvider.timeout := None;
              InstrumentedProvider.rps := None;
              InstrumentedProvider.rpsBurst := None |} in
  let '(o, st, endedAt) :=
    InstrumentedProvider.sendInstrumentedWith
      InstrumentedProvider.timeoutMs_fixed p method (base ep method)
      (w_now w) rnd (w_stats w) in
  (o, {| w_router := w_router w; w_stats := st; w_now := endedAt |}).

(** The world a freshly built pool starts in, at clock reading [now]. *)
Definition world_of (pool : RPCPoolProvider) (now : Z) : World :=
  {| w_router := router pool; w_stats := stats pool; w_now := now |}.

End RpcPoolProvider.


(* ===================================================================== *)
(** ** Sequences of calls, and the client's entry point                   *)
(* ===================================================================== *)

Module StatsOps.

Import Stats.

(** The public [decreaseInFlight()], which [decreaseInFlightPerProvider]
    calls first. *)
Definition decreaseInFlight (s : Stats) : Stats :=
  {| _total := _total s; _inFlight := Z.max (_inFlight s - 1) 0;
     _perMethod := _perMethod s;
     _rateLimitedTotal := _rateLimitedTotal s;
     _timeoutTotal := _timeoutTotal s;
     _perProviderInFlight := _perProviderInFlight s;
     _perProviderTotal := _perProviderTotal s;
     _perProviderTimeout := _perProviderTimeout s;
     _perProviderRateLimited := _perProviderRateLimited s;
     _providerCooldownUntil := _providerCooldownUntil s |}.

(** A call of one of the public mutators of the registry. *)
Inductive Op :=
| BumpInFlightPerProvider (id : string)
| DecreaseInFlightPerProvider (id : string)
| DecreaseInFlight
| BumpPerMethod (method : string)
| BumpRateLimitedPerProvider (id : string)
| BumpTimeoutPerProvider (id : string)
| BumpProviderTotal (id : string)
| SetCooldown (id : string) (ms now : Z).

Definition step (s : Stats) (op : Op) : Stats :=
  match op with
  | BumpInFlightPerProvider id => bumpInFlightPerProvider id s
  | DecreaseInFlightPerProvider id => decreaseInFlightPerProvider id s
  | DecreaseInFlight => decreaseInFlight s
  | BumpPerMethod m => bumpPerMethod m s
  | BumpRateLimitedPerProvider id => bumpRateLimitedPerProvider id s
  | BumpTimeoutPerProvider id => bumpTimeoutPerProvider id s
  | BumpProviderTotal id => bumpProviderTotal id s
  | SetCooldown id ms now => setCooldown id ms now s
  end.

Definition run (ops : list Op) (s : Stats) : Stats := fold_left step ops s.

(** The key a mutator writes under is no inherited property name. *)
Definition plain (op : Op) : Prop :=
  match op with
  | BumpInFlightPerProvider id | DecreaseInFlightPerProvider id
  | BumpRateLimitedPerProvider id | BumpTimeoutPerProvider id
  | BumpProviderTotal id | SetCooldown id _ _ => Js.inherited id = false
  | BumpPerMethod m => Js.inherited m = false
  | DecreaseInFlight => True
  end.

(** No counter of the registry is negative. *)
Record NonNeg (s : Stats) : Prop := {
  nn_total : 0 <= _total s;
  nn_inFlight : 0 <= _inFlight s;
  nn_rateLimited : 0 <= _rateLimitedTotal s;
  nn_timeout : 0 <= _timeoutTotal s;
  nn_perMethod : forall k, 0 <= get (_perMethod s) k;
  nn_perProviderInFlight : forall k, 0 <= get (_perProviderInFlight s) k;
  nn_perProviderTotal : forall k, 0 <= get (_perProviderTotal s) k;
  nn_perProviderTimeout : forall k, 0 <= get (_perProviderTimeout s) k;
  nn_perProviderRateLimited : forall k, 0 <= get (_perProviderRateLimited s) k;
}.

(** No endpoint has more timeouts than calls on record. *)
Definition TimeoutsWithinTotals (s : Stats) : Prop :=
  forall id, 0 <= get (_perProviderTimeout s) id <= get (_perProviderTotal s) id.

(** The sum of the counters of a map. *)
Definition sum (m : gmap string Z) : Z :=
  map_fold (fun _ v acc => v + acc) 0 m.

(** The overall counters agree with the per-endpoint ones. *)
Record Balanced (s : Stats) : Prop := {
  bal_total : _total s = sum (_perProviderTotal s);
  bal_timeout : _timeoutTotal s = sum (_perProviderTimeout s);
  bal_rateLimited : _rateLimitedTotal s = sum (_perProviderRateLimited s);
  bal_inFlight : _inFlight s <= sum (_perProviderInFlight s);
}.

End StatsOps.

Module PoolTrace.

Import RpcPoolProvider.

(** The provider ids of the client calls of a trace, in call order. *)
Fixpoint sent (tr : list Event) : list string :=
  match tr with
  | [] => []
  | EvSend ep :: tr' => Router.providerId ep :: sent tr'
  | _ :: tr' => sent tr'
  end.

(** The delays of the timers of a trace. *)
Fixpoint backoffs (tr : list Event) : list Q :=
  match tr with
  | [] => []
  | EvBackoff ms :: tr' => ms :: backoffs tr'
  | _ :: tr' => backoffs tr'
  end.

(** What holds of the local state all along a call: the client calls made
    are those of the endpoints in [tried], each once, within the budget; and
    there are no more timers than client calls. *)
Record Running (maxUniqueTries : Z) (s : Loop) : Prop := {
  run_nodup : NoDup (sent (trace s));
  run_tried : tried s = list_to_set (sent (trace s));
  run_budget : Z.of_nat (length (sent (trace s))) <= Z.max 0 maxUniqueTries;
  run_timers : (length (backoffs (trace s)) <= length (sent (trace s)))%nat;
}.

(** The [j]-th timer of a trace is shorter than the [j]-th step of the
    backoff ladder. *)
Definition Laddered (tr : list Event) : Prop :=
  forall (j : nat) (d : Q),
    backoffs tr !! j = Some d -> (0 <= d /\ d < baseDelay (S j))%Q.

(** Between two passes there are as many timers as client calls. *)
Definition Paced (s : Loop) : Prop :=
  length (backoffs (trace s)) = length (sent (trace s))
  /\ size (tried s) = length (sent (trace s))
  /\ Laddered (trace s).

End PoolTrace.

Module Releases.

Import Semaphore.

(** The handles of [hs] are called one after the other, each by a caller
    that holds a slot at that moment. *)
Fixpoint held (hs : list nat) (st : System) : Prop :=
  match hs with
  | [] => True
  | h :: hs' => h ∈ unreleased st /\ held hs' (call_handle h st)
  end.

End Releases.

Module Burst.

Import RpsLimiter.

(** [k] calls of [take(1)] one after the other at the same clock reading:
    the limiter after them, or [None] if one of them has to set a timer. *)
Fixpoint takes_now (k : nat) (now : Z) (l : RpsLimiter) : option RpsLimiter :=
  match k with
  | O => Some l
  | S k' =>
      match pass now 1 l with
      | Paid l' => takes_now k' now l'
      | Sleep _ _ => None
      end
  end.

End Burst.

Module Client.

Import Utils InstrumentedProvider.

(** The mutable parts of one [InstrumentedStaticJsonRpcProvider]. *)
Record Client := {
  params : ProviderParams;
  rpsLimiter : RpsLimiter.RpsLimiter;
  inFlightLimiter : Semaphore.System;
}.

(** The constructor, at clock reading [now]; it throws ([None]) when the
    semaphore does. *)
Definition new (p : ProviderParams) (now : Z) : option Client :=
  match InstrumentedProvider.inFlightLimiter p with
  | Some sem =>
      Some {| params := p;
              rpsLimiter := InstrumentedProvider.rpsLimiter p now;
              inFlightLimiter := Semaphore.init sem |}
  | None => None
  end.

(** [send(method, params)] of the later revision, called at clock reading
    [now] by a caller that is alone with the client: a token is taken, a
    slot acquired, the call made and the slot released.  [None]: the call
    has not settled, because the token wait outlasts the fuel or because the
    slot is held by somebody who does not release it meanwhile. *)
Definition send {V} (fuel : nat) (lag : nat -> N) (now : Z) (method : string)
    (base : Settles V) (rnd : Q) (c : Client) (st : Stats.Stats)
    : option (Outcome V * Client * Stats.Stats * Z) :=
  match RpsLimiter.take fuel lag now 1 (rpsLimiter c) with
  | None => None
  | Some (lim, started) =>
      let me := Semaphore.calls (inFlightLimiter c) in
      let sys := Semaphore.acquire (inFlightLimiter c) in
      if bool_decide (me ∈ Semaphore.granted sys) then
        let '(o, st', ended) :=
          _sendInstrumented (params c) method base started rnd st in
        Some (o,
              {| params := params c; rpsLimiter := lim;
                 inFlightLimiter := Semaphore.call_handle me sys |},
              st', ended)
      else None
  end.

End Client.

Module Occurs.

(** The string with its ASCII letters in lower case. *)
Fixpoint lower_string (s : string) : string :=
  match s with
  | EmptyString => EmptyString
  | String c s' => String (Js.lower c) (lower_string s')
  end.

(** [p] occurs in [s], letter case aside. *)
Definition occurs_ci (p s : string) : Prop :=
  exists pre mid suf : string,
    s = pre +:+ mid +:+ suf /\ lower_string mid = lower_string p.

Fixpoint all_spaces (s : string) : bool :=
  match s with
  | EmptyString => true
  | String c s' => Js.is_space c && all_spaces s'
  end.

(** [p], any run of blanks, then [q] occur in [s], letter case aside. *)
Definition occurs_gap_ci (p q s : string) : Prop :=
  exists pre mid ws mid2 suf : string,
    s = pre +:+ mid +:+ ws +:+ mid2 +:+ suf
    /\ lower_string mid = lower_string p
    /\ all_spaces ws = true
    /\ lower_string mid2 = lower_string q.

End Occurs.

(* ===================================================================== *)
(** ** Scenarios from the tests and the README                            *)
(* ===================================================================== *)

(** 2026-01-01T00:00:00.000Z, the clock reading the tests freeze. *)
Definition test_now : Z := 1767225600000.

(** The three endpoints of the router tests, and a registry in which all of
    them were put into cooldown for a minute at clock reading [now]. *)
Definition ep_named (id : string) : Router.Endpoint :=
  {| Router.providerId := id; Router.url := "http://example.invalid/" +:+ id |}.

Definition abc : list Router.Endpoint := [ep_named "a"; ep_named "b"; ep_named "c"].

Definition all_cooling (now : Z) : Stats.Stats :=
  Stats.setCooldown "c" 60000 now
    (Stats.setCooldown "b" 60000 now
       (Stats.setCooldown "a" 60000 now Stats.new)).

(** The parameters of the README's quick start. *)
Definition quick_start : RpcPoolProvider.RPCPoolProviderParams :=
  {| RpcPoolProvider.chainId := 1;
     RpcPoolProvider.urls := ["http://rpc1.invalid"; "http://rpc2.invalid"];
     RpcPoolProvider.perUrl_inFlight := Js.Int 1;
     RpcPoolProvider.retry_attempts := 2 |}.

(** A pool that lists one url twice. *)
Definition mirrored : RpcPoolProvider.RPCPoolProviderParams :=
  {| RpcPoolProvider.chainId := 1;
     RpcPoolProvider.urls := ["http://rpc1.invalid"; "http://rpc1.invalid"];
     RpcPoolProvider.perUrl_inFlight := Js.Int 4;
     RpcPoolProvider.retry_attempts := 2 |}.

(** A pool that asks for no limit on the calls in flight. *)
Definition unbounded : RpcPoolProvider.RPCPoolProviderParams :=
  {| RpcPoolProvider.chainId := 1;
     RpcPoolProvider.urls := ["http://rpc1.invalid"];
     RpcPoolProvider.perUrl_inFlight := Js.PosInfinity;
     RpcPoolProvider.retry_attempts := 2 |}.

(** A transport for the quick-start pool: the first endpoint answers after
    5 ms with the error [err], the second after 7 ms with a block number. *)
Definition transport (err : Utils.JsError) (ep : Router.Endpoint) (method : string)
    : Utils.Settles Z :=
  if String.eqb (Router.url ep) "http://rpc1.invalid"
  then Utils.After 5 (Utils.Rejected err)
  else Utils.After 7 (Utils.Resolved 19000000).

Definition quick_start_world : RpcPoolProvider.World :=
  {| RpcPoolProvider.w_router :=
       Router.new
         [ {| Router.providerId := "rpc#1-chainId:1-http://rpc1.invalid";
              Router.url := "http://rpc1.invalid" |};
           {| Router.providerId := "rpc#2-chainId:1-http://rpc2.invalid";
              Router.url := "http://rpc2.invalid" |} ];
     RpcPoolProvider.w_stats := Stats.new;
     RpcPoolProvider.w_now := test_now |}.

(** The errors of the tests, and one that carries both a rate-limit status
    and a timeout message. *)
(** The first endpoint of the quick-start pool, and the world right after
    the first [pick] returned it. *)
Definition ep_rpc1 : Router.Endpoint :=
  {| Router.providerId := "rpc#1-chainId:1-http://rpc1.invalid";
     Router.url := "http://rpc1.invalid" |}.

Definition picked_rpc1 : RpcPoolProvider.World :=
  {| RpcPoolProvider.w_router :=
       {| Router.endpoints :=
            Router.endpoints (RpcPoolProvider.w_router quick_start_world);
          Router.rr := 1 |};
     RpcPoolProvider.w_stats := Stats.new;
     RpcPoolProvider.w_now := test_now |}.

(** The quick-start world with the second endpoint in cooldown for the
    next 5 ms: after a failure on the first endpoint and a short backoff
    the loop can only spin on the first endpoint until the cooldown of the
    second is over. *)
Definition busy_world : RpcPoolProvider.World :=
  {| RpcPoolProvider.w_router := RpcPoolProvider.w_router quick_start_world;
     RpcPoolProvider.w_stats :=
       Stats.setCooldown "rpc#2-chainId:1-http://rpc2.invalid" 5 test_now Stats.new;
     RpcPoolProvider.w_now := test_now |}.

Definition badRequest : Utils.JsError := Utils.mkError "bad request" (Some 400) None.
Definition tooMany : Utils.JsError := Utils.mkError "rate limit" (Some 429) None.
Definition timedOut : Utils.JsError := Utils.mkError "timeout" None (Some "TIMEOUT").
Definition upstreamTimeout429 : Utils.JsError :=
  Utils.mkError "upstream request timeout" (Some 429) None.

(** The error [withTimeout] synthesizes for a call on chain 4290: its
    message ends in "chainId=4290", which contains "429". *)
Definition timeoutOnChain4290 : Utils.JsError :=
  Utils.timeoutError 10000 "eth_call" "p1" 4290.

(** The registry of a client whose 50th call is in flight, 9 of the first
    49 having timed out. *)
Definition degraded : Stats.Stats :=
  {| Stats._total := 50; Stats._inFlight := 1;
     Stats._perMethod := {["eth_blockNumber" := 50]};
     Stats._rateLimitedTotal := 0; Stats._timeoutTotal := 9;
     Stats._perProviderInFlight := {["p1" := 1]};
     Stats._perProviderTotal := {["p1" := 50]};
     Stats._perProviderTimeout := {["p1" := 9]};
     Stats._perProviderRateLimited := ∅;
     Stats._providerCooldownUntil := ∅ |}.

(** An emptied bucket of 2 tokens refilled at 2 tokens per second, and
    timers that fire on time. *)
Definition drained : RpsLimiter.RpsLimiter :=
  {| RpsLimiter.rps := 2; RpsLimiter.burst := 2;
     RpsLimiter.tokens := 0; RpsLimiter.lastRefill := test_now |}.

Definition on_time : nat -> N := fun _ => 0%N.

(** A clock that is one millisecond ahead of what the pool's loop asked
    for whenever a pass is followed by the next. *)
Definition steady : nat -> N := fun _ => 1%N.

(** A client configured with half a request per second and no burst. *)
Definition slow_client : InstrumentedProvider.ProviderParams :=
  {| InstrumentedProvider.url := "http://rpc1.invalid";
     InstrumentedProvider.chainId := 1;
     InstrumentedProvider.providerId := "p1";
     InstrumentedProvider.inFlight := Some (Js.Int 1);
     InstrumentedProvider.timeout := None;
     InstrumentedProvider.rps := Some (1 # 2)%Q;
     InstrumentedProvider.rpsBurst := None |}.

(** Clients as the pool tests stub them: the first endpoint of the
    quick-start pool rejects with [err], the second resolves, and neither
    touches the registry or the clock. *)
Definition stub_send (err : Utils.JsError) (ep : Router.Endpoint) (method : string)
    (w : RpcPoolProvider.World) : Utils.Outcome Z * RpcPoolProvider.World :=
  if String.eqb (Router.url ep) "http://rpc1.invalid"
  then (Utils.Rejected err, w)
  else (Utils.Resolved 19000000, w).

(** The slow client, freshly built, and the same client with the emptied
    bucket of 2 tokens in place of its own. *)
Definition slow_fresh : Client.Client :=
  {| Client.params := slow_client;
     Client.rpsLimiter := InstrumentedProvider.rpsLimiter slow_client test_now;
     Client.inFlightLimiter :=
       Semaphore.init {| Semaphore.max := 1; Semaphore.inUse := 0;
                         Semaphore.queue := [] |} |}.

Definition lone_client : Client.Client :=
  {| Client.params := slow_client;
     Client.rpsLimiter := drained;
     Client.inFlightLimiter :=
       Semaphore.init {| Semaphore.max := 1; Semaphore.inUse := 0;
                         Semaphore.queue := [] |} |}.

(* ===================================================================== *)
(** * Properties                                                          *)
(* ===================================================================== *)

(** ** Router *)

Section RouterFacts.

Import Router.

Lemma rem_shift (a n : Z) : 0 < n -> Z.rem (Z.rem a n + n) n = a mod n.
Proof.
  intros Hn.
  pose proof (Z.rem_bound_abs a n ltac:(lia)) as Hb.
  pose proof (Z.quot_rem' a n) as Hq.
  destruct (Z_lt_le_dec (Z.rem a n) 0) as [Hneg|Hpos].
  - rewrite Z.rem_small by lia.
    apply (Z.mod_unique_pos _ _ (Z.quot a n - 1)); lia.
  - assert (Z.rem (Z.rem a n + n) n = Z.rem a n) as ->.
    { replace (Z.rem a n + n) with (Z.rem a n + 1 * n) by lia.
      rewrite Z.rem_add by lia. apply Z.rem_small. lia. }
    apply (Z.mod_unique_pos _ _ (Z.quot a n)); lia.
Qed.

Lemma slot_mod (rr n : Z) : 0 < n -> slot rr n = Some (rr mod n).
Proof.
  intros Hn. unfold slot, Js.rem.
  destruct (n =? 0) eqn:E; [lia|]. cbn [Js.add Js.rem_nan]. unfold Js.rem.
  rewrite E. f_equal. by apply rem_shift.
Qed.

Lemma index_slot (eps : list Endpoint) (rr : Z) :
  eps <> [] ->
  exists ep,
    Js.index eps (slot rr (Z.of_nat (length eps))) = Some ep
    /\ eps !! Z.to_nat (rr mod Z.of_nat (length eps)) = Some ep.
Proof.
  intros Hne.
  assert (Hn : 0 < Z.of_nat (length eps)) by (destruct eps; [done | cbn; lia]).
  rewrite slot_mod by done. unfold Js.index.
  pose proof (Z.mod_pos_bound rr _ Hn) as Hb.
  destruct (rr mod Z.of_nat (length eps) <? 0) eqn:E; [lia|].
  destruct (lookup_lt_is_Some_2 eps (Z.to_nat (rr mod Z.of_nat (length eps))))
    as [ep Hep]; [lia|].
  exists ep. by rewrite Hep.
Qed.

(** The scan over a list whose endpoints are all cooling down runs to its
    end and takes the fallback. *)
Lemma scan_all_cooling (stats : Stats.Stats) (now : Z) (eps : list Endpoint) :
  eps <> [] ->
  (forall ep, ep ∈ eps -> Stats.isInCooldown stats now (providerId ep) = true) ->
  forall (k : nat) (rr : Z),
    scan k eps (Z.of_nat (length eps)) stats now rr
    = (Returns (Js.index eps (slot (rr + Z.of_nat k) (Z.of_nat (length eps)))),
       rr + Z.of_nat k + 1).
Proof.
  intros Hne Hall k. induction k as [|k IH]; intros rr.
  - cbn [scan]. by rewrite Z.add_0_r.
  - cbn [scan].
    destruct (index_slot eps rr Hne) as (ep & -> & Hep).
    rewrite (Hall ep) by (by eapply list_elem_of_lookup_2). cbn [negb].
    rewrite IH. rewrite Nat2Z.inj_succ.
    by replace (rr + Z.succ (Z.of_nat k)) with (rr + 1 + Z.of_nat k) by lia.
Qed.

(** The scan over an empty list has no iteration. *)
Lemma pick_empty (rr0 : Z) (stats : Stats.Stats) (now : Z) :
  pick {| endpoints := []; rr := rr0 |} stats now
  = (Returns None, {| endpoints := []; rr := rr0 + 1 |}).
Proof. reflexivity. Qed.

(** With at least one endpoint, [pick] returns an endpoint. *)
Lemma scan_returns (stats : Stats.Stats) (now : Z) (eps : list Endpoint) :
  eps <> [] ->
  forall (k : nat) (rr : Z),
    exists ep rr', ep ∈ eps /\
      scan k eps (Z.of_nat (length eps)) stats now rr = (Returns (Some ep), rr').
Proof.
  intros Hne k. induction k as [|k IH]; intros rr; cbn [scan].
  - destruct (index_slot eps rr Hne) as (ep & -> & Hep).
    exists ep, (rr + 1). split; [by eapply list_elem_of_lookup_2 | done].
  - destruct (index_slot eps rr Hne) as (ep & -> & Hep).
    destruct (negb _).
    + exists ep, (rr + 1). split; [by eapply list_elem_of_lookup_2 | done].
    + apply IH.
Qed.

End RouterFacts.


(** C7. A router over at least one endpoint whose endpoints are all in
    cooldown still returns an endpoint from [pick]: the one at position
    [rr mod n], [rr] being the cursor when [pick] is called; the cursor then
    stands one position further (modulo [n]).  For the endpoints [a, b, c],
    all in cooldown, four successive picks return a, b, c, a. *)
Theorem pick_all_in_cooldown :
  (forall (r : Router.Router) (stats : Stats.Stats) (now : Z),
      Router.endpoints r <> [] ->
      (forall ep, ep ∈ Router.endpoints r ->
                  Stats.isInCooldown stats now (Router.providerId ep) = true) ->
      exists ep r',
        Router.pick r stats now = (Router.Returns (Some ep), r')
        /\ Router.endpoints r !! Z.to_nat (Router.rr r mod Router.size r) = Some ep
        /\ Router.endpoints r' = Router.endpoints r
        /\ Router.rr r' mod Router.size r = (Router.rr r + 1) mod Router.size r)
  /\ Router.picks 4 (Router.new abc) (all_cooling test_now) test_now
     = [Some "a"; Some "b"; Some "c"; Some "a"].
Proof.
  split; [|reflexivity].
  intros r stats now Hne Hall. unfold Router.pick, Router.size.
  rewrite (scan_all_cooling stats now _ Hne Hall).
  assert (Hn : 0 < Z.of_nat (length (Router.endpoints r)))
    by (destruct (Router.endpoints r); [done | cbn; lia]).
  destruct (index_slot (Router.endpoints r)
              (Router.rr r + Z.of_nat (length (Router.endpoints r))) Hne)
    as (ep & Hidx & Hep).
  exists ep, {| Router.endpoints := Router.endpoints r;
                Router.rr := Router.rr r + Z.of_nat (length (Router.endpoints r)) + 1 |}.
  rewrite Hidx. split; [done|]. split.
  - rewrite <- Hep. f_equal. f_equal.
    rewrite <- (Z.mul_1_l (Z.of_nat (length (Router.endpoints r)))) at 2.
    by rewrite Z_mod_plus_full.
  - split; [done|]. cbn [Router.rr].
    replace (Router.rr r + Z.of_nat (length (Router.endpoints r)) + 1)
      with (Router.rr r + 1 + 1 * Z.of_nat (length (Router.endpoints r))) by lia.
    by rewrite Z_mod_plus_full.
Qed.

Lemma pick_all_in_cooldown_witness :
  exists ep r',
    Router.pick (Router.new abc) (all_cooling test_now) test_now
    = (Router.Returns (Some ep), r')
    /\ Router.endpoints (Router.new abc)
         !! Z.to_nat (Router.rr (Router.new abc) mod Router.size (Router.new abc))
       = Some ep
    /\ Router.endpoints r' = Router.endpoints (Router.new abc)
    /\ Router.rr r' mod Router.size (Router.new abc)
       = (Router.rr (Router.new abc) + 1) mod Router.size (Router.new abc).
Proof.
  apply (proj1 pick_all_in_cooldown (Router.new abc) (all_cooling test_now) test_now).
  - discriminate.
  - intros ep Hep. unfold abc in Hep.
    repeat (apply elem_of_cons in Hep as [->|Hep]; [reflexivity|]).
    by apply elem_of_nil in Hep.
Defined.

(** C10. On a router without endpoints [pick] returns [undefined]: it does
    not throw and returns no endpoint.  The loop body never runs, the index
    expression of the fallback is [NaN], and the cursor is still advanced. *)
Theorem pick_on_empty_router :
  forall (rr0 : Z) (stats : Stats.Stats) (now : Z),
    Router.size {| Router.endpoints := []; Router.rr := rr0 |} = 0
    /\ Router.slot rr0 0 = None
    /\ Router.pick {| Router.endpoints := []; Router.rr := rr0 |} stats now
       = (Router.Returns None, {| Router.endpoints := []; Router.rr := rr0 + 1 |}).
Proof. intros. repeat split. Qed.

(** ** The pool *)

Section PoolFacts.

Import Utils RpcPoolProvider.


Example quick_start_ids :
  (fun pool => Router.providerId <$> Router.endpoints (router pool))
    <$> RpcPoolProvider.new quick_start
  = Some ["rpc#1-chainId:1-http://rpc1.invalid";
          "rpc#2-chainId:1-http://rpc2.invalid"].
Proof. reflexivity. Qed.

(** C2, as stated: the provider id is "rpc#" + (i+1) + "-" + chainId + "-"
    + url.  The first endpoint of the quick-start pool refutes it: its id
    carries the literal "chainId:" before the chain id. *)
Lemma providerId_without_label_refuted :
  ~ (forall (p : RPCPoolProviderParams) (pool : RPCPoolProvider)
            (i : nat) (url : string),
        RpcPoolProvider.new p = Some pool ->
        urls p !! i = Some url ->
        Router.providerId <$> (Router.endpoints (router pool) !! i)
        = Some ("rpc#" +:+ Js.num_to_string (Z.of_nat i + 1) +:+ "-"
                +:+ Js.num_to_string (chainId p) +:+ "-" +:+ url)).
Proof.
  intros H.
  destruct (RpcPoolProvider.new quick_start) as [pool|] eqn:E; [|discriminate].
  specialize (H quick_start pool 0%nat "http://rpc1.invalid" E eq_refl).
  vm_compute in E. injection E as <-. vm_compute in H. discriminate.
Qed.

(** C2, amended. For every pool built from a list of urls and a chain id,
    the endpoint at position [i] (from 0) keeps the [i]-th url and has the
    provider id "rpc#" + (i+1) + "-chainId:" + chainId + "-" + url. *)
Theorem providerId_derivation :
  forall (p : RPCPoolProviderParams) (pool : RPCPoolProvider)
         (i : nat) (url : string),
    RpcPoolProvider.new p = Some pool ->
    urls p !! i = Some url ->
    Router.endpoints (router pool) !! i
    = Some {| Router.providerId :=
                "rpc#" +:+ Js.num_to_string (Z.of_nat i + 1) +:+ "-chainId:"
                +:+ Js.num_to_string (chainId p) +:+ "-" +:+ url;
              Router.url := url |}.
Proof.
  intros p pool i url Hnew Hurl. unfold RpcPoolProvider.new in Hnew.
  destruct (mapM id _) as [eps|] eqn:Hm; [|discriminate].
  injection Hnew as <-. cbn [router Router.new Router.endpoints].
  apply mapM_Some_1 in Hm.
  eapply Forall2_lookup_l in Hm as (ep & Hep & Hid);
    [|rewrite list_lookup_imap, Hurl; reflexivity].
  rewrite Hep. cbn in Hid.
  destruct (Semaphore.new (perUrl_inFlight p)); [|discriminate].
  by injection Hid as <-.
Qed.

Lemma providerId_derivation_witness :
  exists pool,
    RpcPoolProvider.new quick_start = Some pool
    /\ Router.endpoints (router pool) !! 1%nat
       = Some {| Router.providerId := "rpc#2-chainId:1-http://rpc2.invalid";
                 Router.url := "http://rpc2.invalid" |}.
Proof.
  destruct (RpcPoolProvider.new quick_start) as [pool|] eqn:E; [|discriminate].
  exists pool. split; [reflexivity|].
  exact (providerId_derivation quick_start pool 1 "http://rpc2.invalid" E eq_refl).
Defined.

Context {V : Type}.
Variable provider_send : Router.Endpoint -> string -> World -> Outcome V * World.
Variable random : nat -> Q.
Variable lag : nat -> N.
Variable method : string.

(** C5. On a pool without endpoints (the router's size is zero) [send]
    rejects with the error "No RPC available"; [pick] is not called: the
    trace of the call is empty and the router's cursor is where it was. *)
Theorem send_zero_endpoints :
  forall (attempts rr0 now : Z) (stats : Stats.Stats) (fuel : nat),
    let w := {| w_router := {| Router.endpoints := []; Router.rr := rr0 |};
                w_stats := stats; w_now := now |} in
    Router.size (w_router w) = 0
    /\ send provider_send random lag attempts (S fuel) method w
       = Some (Rejected noRpc,
               {| tried := ∅; world := w; draws := 0; trace := [] |})
    /\ message noRpc = Some "No RPC available".
Proof.
  intros attempts rr0 now stats fuel w. split; [reflexivity|].
  split; [|reflexivity].
  unfold send. cbn [loop tried]. rewrite size_empty.
  change (Router.size (w_router w)) with 0.
  destruct (Z.of_nat 0 <? Z.min attempts 0) eqn:E; [|reflexivity].
  apply Z.ltb_lt in E. lia.
Qed.

(** A pass whose attempt fails with an error that is not eligible for
    failover returns that error: no timer is set. *)
Lemma iteration_terminal (maxUniqueTries : Z) (s : Loop)
    (ep : Router.Endpoint) (r' : Router.Router) (e : JsError) (w' : World) :
  Router.pick (w_router (world s)) (w_stats (world s)) (w_now (world s))
    = (Router.Returns (Some ep), r') ->
  Router.providerId ep ∉ tried s ->
  provider_send ep method
    {| w_router := r'; w_stats := w_stats (world s); w_now := w_now (world s) |}
    = (Rejected e, w') ->
  shouldFailover e = false ->
  iteration provider_send random lag method maxUniqueTries s
  = Return (Rejected e)
      {| tried := {[Router.providerId ep]} ∪ tried s; world := w';
         draws := draws s; trace := trace s ++ [EvPick ep; EvSend ep] |}.
Proof.
  intros Hpick Hnew Hsend Hterm. unfold iteration.
  rewrite Hpick, bool_decide_eq_false_2 by done.
  by rewrite Hsend, Hterm.
Qed.

(** C4. An attempt that fails with an error that is neither a rate-limit
    nor a timeout error ends the call: [send] rejects with that very
    error, and after the failed client call nothing follows, neither a
    timer nor a [pick] nor another client call.  In particular, when this
    happens on the first endpoint picked, the call consists of one [pick]
    and one client call, and [Math.random] is never drawn. *)
Theorem send_terminal_error :
  (forall (maxUniqueTries : Z) (fuel : nat) (s : Loop)
          (ep : Router.Endpoint) (r' : Router.Router) (e : JsError) (w' : World),
      Z.of_nat (size (tried s)) < maxUniqueTries ->
      Router.pick (w_router (world s)) (w_stats (world s)) (w_now (world s))
        = (Router.Returns (Some ep), r') ->
      Router.providerId ep ∉ tried s ->
      provider_send ep method
        {| w_router := r'; w_stats := w_stats (world s); w_now := w_now (world s) |}
        = (Rejected e, w') ->
      isRateLimitError e = false ->
      isTimeoutError e = false ->
      loop provider_send random lag method maxUniqueTries (S fuel) s
      = Some (Rejected e,
              {| tried := {[Router.providerId ep]} ∪ tried s; world := w';
                 draws := draws s;
                 trace := trace s ++ [EvPick ep; EvSend ep] |}))
  /\ (forall (attempts : Z) (fuel : nat) (w : World)
             (ep : Router.Endpoint) (r' : Router.Router) (e : JsError) (w' : World),
         1 <= attempts ->
         Router.pick (w_router w) (w_stats w) (w_now w)
           = (Router.Returns (Some ep), r') ->
         provider_send ep method
           {| w_router := r'; w_stats := w_stats w; w_now := w_now w |}
           = (Rejected e, w') ->
         isRateLimitError e = false ->
         isTimeoutError e = false ->
         send provider_send random lag attempts (S fuel) method w
         = Some (Rejected e,
                 {| tried := {[Router.providerId ep]}; world := w';
                    draws := 0; trace := [EvPick ep; EvSend ep] |})).
Proof.
  assert (Hgen : forall (maxUniqueTries : Z) (fuel : nat) (s : Loop)
          (ep : Router.Endpoint) (r' : Router.Router) (e : JsError) (w' : World),
      Z.of_nat (size (tried s)) < maxUniqueTries ->
      Router.pick (w_router (world s)) (w_stats (world s)) (w_now (world s))
        = (Router.Returns (Some ep), r') ->
      Router.providerId ep ∉ tried s ->
      provider_send ep method
        {| w_router := r'; w_stats := w_stats (world s); w_now := w_now (world s) |}
        = (Rejected e, w') ->
      isRateLimitError e = false ->
      isTimeoutError e = false ->
      loop provider_send random lag method maxUniqueTries (S fuel) s
      = Some (Rejected e,
              {| tried := {[Router.providerId ep]} ∪ tried s; world := w';
                 draws := draws s;
                 trace := trace s ++ [EvPick ep; EvSend ep] |})).
  { intros maxUniqueTries fuel s ep r' e w' Hbudget Hpick Hnew Hsend Hrl Hto.
    cbn [loop].
    destruct (Z.of_nat (size (tried s)) <? maxUniqueTries) eqn:E;
      [|apply Z.ltb_ge in E; lia].
    rewrite (iteration_terminal _ _ ep r' e w'); try done.
    unfold shouldFailover. by rewrite Hrl, Hto. }
  split; [exact Hgen|].
  intros attempts fuel w ep r' e w' Hatt Hpick Hsend Hrl Hto.
  assert (Hne : Router.endpoints (w_router w) <> []).
  { intros Hnil. destruct (w_router w) as [eps rr0]. cbn in Hnil. subst eps.
    rewrite pick_empty in Hpick. discriminate. }
  assert (Hsz : 1 <= Router.size (w_router w)).
  { unfold Router.size. destruct (Router.endpoints (w_router w)); [done|cbn; lia]. }
  unfold send.
  rewrite (Hgen _ fuel _ ep r' e w'); cbn [world tried draws trace];
    rewrite ?size_empty, ?(right_id_L ∅ (∪)); try done; lia.
Qed.

Lemma baseDelay_pos (k : nat) : (0 < baseDelay k)%Q.
Proof.
  unfold baseDelay. apply Q.min_glb_lt; [|reflexivity].
  apply Qmult_lt_0_compat; [reflexivity|]. by apply Qpower_0_lt.
Qed.

(** C6. When an attempt fails with a failover-eligible error and fewer
    than [maxUniqueTries] endpoints have been tried ([triedCount] of them,
    the failed one included), the pass draws [Math.random()] once, sets one
    timer, of [Math.random() * min(1000 * 2^(triedCount-1), 5000)]
    milliseconds, and the next pass through the loop starts only when the
    timer has fired: its clock reading is later by the delay cut to whole
    milliseconds, and by at least one, plus the lateness of the timer.  The delay lies in [0, bound) when
    the draw lies in [0, 1), and every point of [0, bound) is the delay the
    pass sets for exactly one draw: the delay is the draw stretched to the
    interval. *)
Theorem backoff_jitter :
  forall (maxUniqueTries : Z) (s : Loop)
         (ep : Router.Endpoint) (r' : Router.Router) (e : JsError) (w' : World),
    Router.pick (w_router (world s)) (w_stats (world s)) (w_now (world s))
      = (Router.Returns (Some ep), r') ->
    Router.providerId ep ∉ tried s ->
    provider_send ep method
      {| w_router := r'; w_stats := w_stats (world s); w_now := w_now (world s) |}
      = (Rejected e, w') ->
    shouldFailover e = true ->
    let triedCount := size ({[Router.providerId ep]} ∪ tried s) in
    Z.of_nat triedCount < maxUniqueTries ->
    let bound := Qmin (1000 * 2 ^ (Z.of_nat triedCount - 1)) 5000 in
    let delay := (random (draws s) * bound)%Q in
    let waited := Z.max 1 (Qfloor delay) in
    let s' := {| tried := {[Router.providerId ep]} ∪ tried s;
                 world := {| w_router := w_router w'; w_stats := w_stats w';
                             w_now := w_now w' + waited
                                      + Z.of_N (lag (length (trace s))) |};
                 draws := S (draws s);
                 trace := trace s ++ [EvPick ep; EvSend ep; EvBackoff delay] |} in
    iteration provider_send random lag method maxUniqueTries s = Continue s'
    /\ (forall fuel : nat,
          loop provider_send random lag method maxUniqueTries (S fuel) s
          = loop provider_send random lag method maxUniqueTries fuel s')
    /\ ((0 <= random (draws s) /\ random (draws s) < 1)%Q ->
        (0 <= delay /\ delay < bound)%Q
        /\ (delay - 1 < inject_Z waited /\ inject_Z waited <= Qmax 1 delay)%Q)
    /\ (forall d : Q, (0 <= d /\ d < bound)%Q ->
          exists r : Q,
            (0 <= r /\ r < 1)%Q
            /\ (exists (s2 : Loop) (d2 : Q),
                   iteration provider_send (fun _ => r) lag method
                     maxUniqueTries s = Continue s2
                   /\ trace s2 = trace s ++ [EvPick ep; EvSend ep; EvBackoff d2]
                   /\ (d2 == d)%Q)
            /\ (forall (r2 : Q) (s2 : Loop) (d2 : Q),
                   iteration provider_send (fun _ => r2) lag method
                     maxUniqueTries s = Continue s2 ->
                   trace s2 = trace s ++ [EvPick ep; EvSend ep; EvBackoff d2] ->
                   (d2 == d)%Q -> (r2 == r)%Q)).
Proof.
  intros maxUniqueTries s ep r' e w' Hpick Hnew Hsend Hfo triedCount Hbudget
         bound delay waited s'.
  pose proof (baseDelay_pos triedCount) as Hpos.
  change (baseDelay triedCount) with bound in Hpos.
  assert (Hnz : ~ (bound == 0)%Q) by (intros Hz; rewrite Hz in Hpos; discriminate).
  assert (Hit : forall rand : nat -> Q,
             iteration provider_send rand lag method maxUniqueTries s
             = Continue
                 {| tried := {[Router.providerId ep]} ∪ tried s;
                    world := {| w_router := w_router w'; w_stats := w_stats w';
                                w_now := w_now w'
                                         + Z.max 1 (Qfloor (rand (draws s) * bound))
                                         + Z.of_N (lag (length (trace s))) |};
                    draws := S (draws s);
                    trace := trace s
                             ++ [EvPick ep; EvSend ep;
                                 EvBackoff (rand (draws s) * bound)] |}).
  { intros rand. unfold iteration.
    rewrite Hpick, bool_decide_eq_false_2 by done.
    rewrite Hsend, Hfo. cbn [negb]. fold triedCount.
    destruct (maxUniqueTries <=? Z.of_nat triedCount) eqn:E;
      [apply Z.leb_le in E; lia|].
    fold bound. by rewrite <- app_assoc. }
  split; [apply Hit|]. split; [|split].
  - intros fuel. cbn [loop].
    assert (size (tried s) <= triedCount)%nat
      by (apply subseteq_size, union_subseteq_r).
    destruct (Z.of_nat (size (tried s)) <? maxUniqueTries) eqn:E;
      [|apply Z.ltb_ge in E; lia].
    by rewrite Hit.
  - intros [H0 H1].
    assert (0 <= delay /\ delay < bound)%Q as [Hd0 Hd1].
    { subst delay. split.
      - apply Qmult_le_0_compat; [done | by apply Qlt_le_weak].
      - pose proof (Qmult_lt_compat_r _ _ bound Hpos H1) as Hlt.
        by rewrite Qmult_1_l in Hlt. }
    split; [done|].
    subst waited. clear s'. clearbody delay.
    pose proof (Qfloor_le delay) as Hfl.
    pose proof (Qlt_floor delay) as Hfu.
    assert (0 <= Qfloor delay) as Hf0.
    { rewrite <- (Qfloor_Z 0). by apply Qfloor_resp_le. }
    split.
    + rewrite inject_Z_plus in Hfu. change (inject_Z 1) with 1%Q in Hfu.
      destruct (Z.max_spec 1 (Qfloor delay)) as [[_ ->]|[Hle ->]]; [lra|].
      rewrite Zle_Qle in Hle. change (inject_Z 1) with 1%Q in *. lra.
    + destruct (Z.max_spec 1 (Qfloor delay)) as [[_ ->]|[_ ->]].
      * eapply Qle_trans; [exact Hfl | apply Q.le_max_r].
      * apply Q.le_max_l.
  - intros d [Hd0 Hd1]. exists (d / bound)%Q. split; [split|split].
    + apply Qle_shift_div_l; [done|]. by rewrite Qmult_0_l.
    + apply Qlt_shift_div_r; [done|]. by rewrite Qmult_1_l.
    + eexists _, _. split; [apply (Hit (fun _ => (d / bound)%Q))|].
      split; [reflexivity|]. by field.
    + intros r2 s2 d2 Hs2 Htr Hd2.
      rewrite (Hit (fun _ => r2)) in Hs2. injection Hs2 as <-.
      cbn [trace] in Htr. apply app_inv_head in Htr.
      injection Htr as <-. rewrite <- Hd2. by field.
Qed.

End PoolFacts.


Lemma send_terminal_error_witness :
  exists w',
    RpcPoolProvider.send
      (RpcPoolProvider.instrumented_send 1 (transport badRequest) 0)
      (fun _ => 1 # 2) steady 2 1 "eth_call" quick_start_world
    = Some (Utils.Rejected badRequest,
            {| RpcPoolProvider.tried := {["rpc#1-chainId:1-http://rpc1.invalid"]};
               RpcPoolProvider.world := w';
               RpcPoolProvider.draws := 0;
               RpcPoolProvider.trace :=
                 [RpcPoolProvider.EvPick
                    {| Router.providerId := "rpc#1-chainId:1-http://rpc1.invalid";
                       Router.url := "http://rpc1.invalid" |};
                  RpcPoolProvider.EvSend
                    {| Router.providerId := "rpc#1-chainId:1-http://rpc1.invalid";
                       Router.url := "http://rpc1.invalid" |}] |}).
Proof.
  eexists.
  eapply (proj2 (send_terminal_error
                   (RpcPoolProvider.instrumented_send 1 (transport badRequest) 0)
                   (fun _ => 1 # 2) steady "eth_call")
            2 0%nat quick_start_world
            {| Router.providerId := "rpc#1-chainId:1-http://rpc1.invalid";
               Router.url := "http://rpc1.invalid" |}).
  - lia.
  - reflexivity.
  - reflexivity.
  - reflexivity.
  - reflexivity.
Defined.

Lemma backoff_jitter_witness :
  exists s',
    RpcPoolProvider.iteration
      (RpcPoolProvider.instrumented_send 1 (transport tooMany) 0)
      (fun _ => 1 # 2) steady "eth_blockNumber" 2
      {| RpcPoolProvider.tried := ∅; RpcPoolProvider.world := quick_start_world;
         RpcPoolProvider.draws := 0; RpcPoolProvider.trace := [] |}
    = RpcPoolProvider.Continue s'
    /\ RpcPoolProvider.trace s'
       = [RpcPoolProvider.EvPick ep_rpc1; RpcPoolProvider.EvSend ep_rpc1;
          RpcPoolProvider.EvBackoff
            ((1 # 2) * Qmin (1000 * 2 ^ (Z.of_nat
                (size ({["rpc#1-chainId:1-http://rpc1.invalid"]}
                       ∪ (∅ : gset string))) - 1)) 5000)]
    /\ RpcPoolProvider.w_now (RpcPoolProvider.world s') = test_now + 5 + 500 + 1.
Proof.
  set (ps := RpcPoolProvider.instrumented_send 1 (transport tooMany) 0).
  assert (H1 : (ps ep_rpc1 "eth_blockNumber" picked_rpc1).1 = Utils.Rejected tooMany)
    by (vm_compute; reflexivity).
  assert (H2 : RpcPoolProvider.w_now (ps ep_rpc1 "eth_blockNumber" picked_rpc1).2
               = test_now + 5)
    by (vm_compute; reflexivity).
  destruct (ps ep_rpc1 "eth_blockNumber" picked_rpc1) as [o W] eqn:Hsend.
  cbn [fst snd] in H1, H2. subst o.
  assert (Hpick : Router.pick (RpcPoolProvider.w_router quick_start_world)
                    (RpcPoolProvider.w_stats quick_start_world)
                    (RpcPoolProvider.w_now quick_start_world)
                  = (Router.Returns (Some ep_rpc1),
                     RpcPoolProvider.w_router picked_rpc1))
    by (vm_compute; reflexivity).
  pose proof (backoff_jitter ps (fun _ => 1 # 2) steady "eth_blockNumber" 2
               {| RpcPoolProvider.tried := ∅;
                  RpcPoolProvider.world := quick_start_world;
                  RpcPoolProvider.draws := 0; RpcPoolProvider.trace := [] |}
               ep_rpc1 (RpcPoolProvider.w_router picked_rpc1) tooMany W
               Hpick (not_elem_of_empty _) Hsend) as H0.
  specialize (H0 eq_refl). cbv zeta in H0.
  assert (Hlt : Z.of_nat (size ({[Router.providerId ep_rpc1]} ∪ (∅ : gset string)))
                < 2) by (vm_compute; reflexivity).
  specialize (H0 Hlt). destruct H0 as [H _].
  eexists. split; [exact H|]. split; [reflexivity|].
  cbn [RpcPoolProvider.world RpcPoolProvider.w_now]. rewrite H2.
  vm_compute. reflexivity.
Defined.

(** ** The instrumented client *)

Section ProviderFacts.

Import Utils InstrumentedProvider.

(** C1. With the [timeout] parameter left out, the delay of the race is
    what [this.params.timeout || 10_0000] evaluates to: 100000 ms, not the
    10000 ms of the README and of the earlier revision of the class.  A
    transport answering after 50 s is therefore waited for, where a 10 s
    limit rejects the call with the TIMEOUT error. *)
Theorem timeout_default_evaluates_to_100000 :
  forall (u id method : string) (cid : Z) (fl : option Js.Num) (r b : option Q)
         (startedAt : Z) (rnd : Q) (st : Stats.Stats),
    let p := {| url := u; chainId := cid; providerId := id; inFlight := fl;
                timeout := None; rps := r; rpsBurst := b |} in
    timeoutMs p = 100000
    /\ timeoutMs p <> 10000
    /\ (_sendInstrumented p method (After 50000 (Resolved 1)) startedAt rnd st).1.1
       = Resolved 1
    /\ (sendInstrumentedWith timeoutMs_fixed p method
          (After 50000 (Resolved 1)) startedAt rnd st).1.1
       = Rejected (timeoutError 10000 method id cid).
Proof. intros. repeat split. discriminate. Qed.


(** C3, as stated: an error classified as timeout puts the endpoint into
    cooldown only if it has at least 50 calls and a timeout ratio of at
    least 0.2.  Refuted by the first call of a fresh client failing with
    HTTP status 429 and a message that mentions a timeout. *)
Lemma timeout_cooldown_only_if_refuted :
  ~ (forall (id : string) (now : Z) (rnd : Q) (e : JsError) (st : Stats.Stats),
        isTimeoutError e = true ->
        let st' := onError id now rnd e st in
        Stats.isInCooldown st now id = false ->
        Stats.isInCooldown st' now id = true ->
        50 <= Stats.get (Stats._perProviderTotal st') id
        /\ (2 # 10 <= Stats.timeoutRatio st' id)%Q).
Proof.
  intros H.
  destruct (H "p1" test_now 0%Q upstreamTimeout429
              (Stats.bumpPerMethod "eth_call"
                 (Stats.bumpProviderTotal "p1"
                    (Stats.bumpInFlightPerProvider "p1" Stats.new)))
              eq_refl eq_refl eq_refl) as [Hn _].
  vm_compute in Hn. by apply Hn.
Qed.

Lemma timeoutCooldown_Some (id : string) (rnd : Q) (e : JsError) (st : Stats.Stats) :
  is_Some (timeoutCooldown id rnd e st)
  <-> 50 <= Stats.get (Stats._perProviderTotal st) id
      /\ (2 # 10 <= Stats.timeoutRatio st id)%Q.
Proof.
  unfold timeoutCooldown. cbn [Stats.snapshot Stats.perProviderTotal].
  rewrite <- Qle_bool_iff, <- Z.leb_le.
  destruct (50 <=? _), (Qle_bool (2 # 10) _); cbn [andb];
    split; try (intros [? ?]; done); try (intros [? ?]; discriminate);
    intros _; eauto.
Qed.

(** C3, amended. For an error classified as timeout, the timeout rule of
    the handler calls [setCooldown] if and only if the endpoint's total (the
    failed call included) is at least 50 and its timeout ratio (the timeout
    just counted included) is at least 0.2 ([timeoutCooldown] is the delay
    of that call, if it is made).  When both hold, the cooldown ends at
    [now] plus the retry-after delay (else 60 s, or 600 s from a ratio of
    0.5) plus the jitter, and without a retry-after header the endpoint is
    in cooldown.  When one fails, what the error does to the cooldown table
    depends on its other classification: an error that is not also a
    rate-limit error leaves the table as it was; an error that is also a
    rate-limit error has had the endpoint's cooldown set by the rate-limit
    rule, to [now] plus the retry-after delay (else 10 s).  An error of
    both classes therefore sets the endpoint's cooldown whatever the
    counts. *)
Theorem timeout_cooldown_thresholds :
  forall (id : string) (now : Z) (rnd : Q) (e : JsError) (st : Stats.Stats),
    isTimeoutError e = true ->
    let ra := getRetryAfterMs e in
    let limited :=
      Stats.setCooldown id (default 10000 ra) now
        (Stats.bumpRateLimitedPerProvider id st) in
    let st1 :=
      Stats.bumpTimeoutPerProvider id
        (if isRateLimitError e then limited else st) in
    let n := Stats.get (Stats._perProviderTotal st1) id in
    let ratio := Stats.timeoutRatio st1 id in
    let st' := onError id now rnd e st in
    (n = Stats.get (Stats._perProviderTotal st) id
     /\ ratio = Stats.timeoutRatio (Stats.bumpTimeoutPerProvider id st) id)
    /\ st' = match timeoutCooldown id rnd e st1 with
             | Some ms => Stats.setCooldown id ms now st1
             | None => st1
             end
    /\ (is_Some (timeoutCooldown id rnd e st1)
        <-> 50 <= n /\ (2 # 10 <= ratio)%Q)
    /\ (50 <= n /\ (2 # 10 <= ratio)%Q ->
        let cooldownMs := if Qle_bool (5 # 10) ratio then 600000 else 60000 in
        let ms := default cooldownMs ra + Qfloor (rnd * 1000) in
        st' = Stats.setCooldown id ms now st1
        /\ Stats._providerCooldownUntil st' !! id = Some (now + ms)
        /\ (ra = None -> (0 <= rnd)%Q ->
            Stats.isInCooldown st' now id = true))
    /\ (~ (50 <= n /\ (2 # 10 <= ratio)%Q) ->
        st' = st1
        /\ (isRateLimitError e = false ->
            Stats._providerCooldownUntil st' = Stats._providerCooldownUntil st)
        /\ (isRateLimitError e = true ->
            Stats._providerCooldownUntil st' !! id
            = Some (now + default 10000 ra)
            /\ (ra = None -> Stats.isInCooldown st' now id = true)))
    /\ (isRateLimitError e = true ->
        is_Some (Stats._providerCooldownUntil st' !! id)).
Proof.
  intros id now rnd e st Hto ra limited st1 n ratio st'.
  assert (Hst' : st' = match timeoutCooldown id rnd e st1 with
                       | Some ms => Stats.setCooldown id ms now st1
                       | None => st1
                       end).
  { subst st' st1 limited ra. unfold onError. rewrite Hto.
    by destruct (isRateLimitError e). }
  pose proof (timeoutCooldown_Some id rnd e st1) as Hiff.
  fold n ratio in Hiff.
  assert (Hyes : 50 <= n /\ (2 # 10 <= ratio)%Q ->
                 timeoutCooldown id rnd e st1
                 = Some (default (if Qle_bool (5 # 10) ratio then 600000 else 60000)
                                 ra + Qfloor (rnd * 1000))).
  { intros [Hn Hr]. unfold timeoutCooldown.
    cbn [Stats.snapshot Stats.perProviderTotal]. fold n ratio.
    apply Z.leb_le in Hn. apply Qle_bool_iff in Hr. by rewrite Hn, Hr. }
  assert (Hpos : forall ms, 0 < ms ->
             (Js.or_num (Some (now + ms)) 0 >? now) = true).
  { intros ms Hms. unfold Js.or_num.
    destruct (now + ms =? 0) eqn:E'; apply Z.gtb_lt;
      [apply Z.eqb_eq in E'|]; lia. }
  split; [subst n ratio st1 limited; by destruct (isRateLimitError e)|].
  split; [done|]. split; [done|]. split; [|split].
  - intros Hth cooldownMs ms. rewrite Hst', (Hyes Hth). fold cooldownMs ms.
    split; [done|]. split; [cbn; apply lookup_insert_eq|].
    intros Hra H0. unfold Stats.isInCooldown, Stats.get. cbn.
    rewrite lookup_insert_eq. apply Hpos.
    assert (0 <= Qfloor (rnd * 1000)).
    { rewrite <- (Qfloor_Z 0). apply Qfloor_resp_le.
      apply Qmult_le_0_compat; [done | discriminate]. }
    subst ms cooldownMs. rewrite Hra. cbn [default].
    destruct (Qle_bool _ _); lia.
  - intros Hno.
    assert (timeoutCooldown id rnd e st1 = None) as Hnone.
    { destruct (timeoutCooldown id rnd e st1) as [ms'|] eqn:E; [|done].
      exfalso. apply Hno, Hiff. by eexists. }
    rewrite Hnone in Hst'. split; [done|]. rewrite Hst'. subst st1 limited.
    split; intros Hrl; rewrite Hrl; [done|].
    split; [cbn; apply lookup_insert_eq|].
    intros Hra. unfold Stats.isInCooldown, Stats.get. cbn.
    rewrite lookup_insert_eq. apply Hpos. rewrite Hra. cbn [default]. lia.
  - intros Hrl. rewrite Hst'. subst st1 limited. rewrite Hrl. clear.
    destruct (timeoutCooldown _ _ _ _); eexists; cbn; apply lookup_insert_eq.
Qed.

End ProviderFacts.


Lemma timeout_cooldown_thresholds_witness :
  Stats._providerCooldownUntil
    (InstrumentedProvider.onError "p1" test_now 0 timedOut degraded) !! "p1"
  = Some (test_now + 60000)
  /\ Stats._providerCooldownUntil
       (InstrumentedProvider.onError "p1" test_now 0 timeoutOnChain4290 Stats.new)
       !! "p1"
     = Some (test_now + 10000).
Proof.
  split.
  - destruct (timeout_cooldown_thresholds "p1" test_now 0 timedOut degraded
                eq_refl) as (_ & _ & _ & Hyes & _).
    destruct Hyes as (_ & Hc & _).
    + split; vm_compute; discriminate.
    + exact Hc.
  - destruct (timeout_cooldown_thresholds "p1" test_now 0 timeoutOnChain4290
                Stats.new eq_refl) as (_ & _ & _ & _ & Hno & _).
    destruct Hno as (_ & _ & Hrl).
    + intros [Hn _]. vm_compute in Hn. by apply Hn.
    + exact (proj1 (Hrl eq_refl)).
Defined.

(** ** The semaphore *)

Section SemaphoreFacts.

Import Semaphore.


Lemma filter_absent (l : list nat) (R : gset nat) (h : nat) :
  h ∉ l ->
  filter (fun x => x ∉ {[h]} ∪ R) l = filter (fun x => x ∉ R) l.
Proof.
  induction l as [|x l IH]; intros Hh; [done|].
  apply not_elem_of_cons in Hh as [Hx Hl].
  rewrite !filter_cons, IH by done.
  destruct (decide (x ∉ R)) as [Hk|Hk].
  - rewrite decide_True; [done|].
    rewrite not_elem_of_union, not_elem_of_singleton. split; [|done].
    intros ->. by apply Hx.
  - rewrite decide_False; [done|].
    rewrite not_elem_of_union, not_elem_of_singleton. tauto.
Qed.

Lemma filter_release (l : list nat) (R : gset nat) (h : nat) :
  NoDup l -> h ∈ l -> h ∉ R ->
  length (filter (fun x => x ∉ R) l)
  = S (length (filter (fun x => x ∉ {[h]} ∪ R) l)).
Proof.
  induction 1 as [|x l Hx Hnd IH]; intros Hin HR.
  - by apply elem_of_nil in Hin.
  - rewrite !filter_cons.
    apply elem_of_cons in Hin as [->|Hin].
    + rewrite decide_True by done.
      rewrite decide_False
        by (rewrite not_elem_of_union, not_elem_of_singleton; tauto).
      by rewrite filter_absent.
    + assert (x <> h) by (intros ->; done).
      destruct (decide (x ∉ R)) as [Hk|Hk].
      * rewrite decide_True
          by (by rewrite not_elem_of_union, not_elem_of_singleton).
        cbn. by rewrite IH.
      * rewrite decide_False
          by (rewrite not_elem_of_union, not_elem_of_singleton; tauto).
        by apply IH.
Qed.

Lemma filter_snoc_keep (l : list nat) (R : gset nat) (x : nat) :
  x ∉ R ->
  filter (fun y => y ∉ R) (l ++ [x]) = filter (fun y => y ∉ R) l ++ [x].
Proof.
  intros Hx. rewrite filter_app. f_equal.
  rewrite filter_cons, decide_True by done. done.
Qed.

Lemma seq_split_facts (g q : list nat) (n : nat) :
  g ++ q = seq 0 n ->
  NoDup g /\ (forall x, x ∈ g -> x ∉ q) /\ (forall x, x ∈ g -> (x < n)%nat)
  /\ (forall x, x ∈ q -> (x < n)%nat).
Proof.
  intros H. pose proof (NoDup_seq 0 n) as Hnd. rewrite <- H in Hnd.
  apply NoDup_app in Hnd as (Hg & Hd & _).
  repeat split; [done | done | |];
    intros x Hx;
    assert (x ∈ seq 0 n) as Hs by (rewrite <- H; set_solver);
    apply elem_of_seq in Hs; lia.
Qed.

Lemma init_inv (s : Semaphore) (cap : Z) :
  new (Js.Int cap) = Some s -> Inv (init s) /\ max s = cap /\ 0 < cap.
Proof.
  unfold new. destruct (cap <=? 0) eqn:E; [discriminate|].
  intros [= <-]. apply Z.leb_gt in E.
  split; [|done]. constructor; cbn; try done; lia.
Qed.

Ltac sem_simpl := cbn [sem granted released calls inUse max queue].

Lemma acquire_inv (st : System) : Inv st -> Inv (acquire st).
Proof.
  intros [Hr Hc Ho Hf Hrel].
  destruct (seq_split_facts _ _ _ Ho) as (Hnd & Hdis & Hlt & Hqlt).
  unfold acquire. destruct (inUse (sem st) <? max (sem st)) eqn:E.
  - apply Z.ltb_lt in E.
    assert (Hq : queue (sem st) = []).
    { destruct (queue (sem st)) eqn:Eq; [done|].
      assert (inUse (sem st) = max (sem st)) by (by apply Hf). lia. }
    constructor; sem_simpl.
    + lia.
    + unfold unreleased in *. sem_simpl.
      rewrite filter_snoc_keep.
      * rewrite length_app. cbn [length]. lia.
      * intros Hin. apply Hrel, Hlt in Hin. lia.
    + rewrite Hq in *. rewrite app_nil_r in *. rewrite Ho.
      by rewrite seq_S.
    + by rewrite Hq.
    + intros h Hh. apply elem_of_app. left. by apply Hrel.
  - apply Z.ltb_ge in E.
    constructor; sem_simpl.
    + done.
    + done.
    + rewrite app_assoc, Ho. by rewrite seq_S.
    + intros _. lia.
    + done.
Qed.

Lemma call_handle_inv (h : nat) (st : System) : Inv st -> Inv (call_handle h st).
Proof.
  intros [Hr Hc Ho Hf Hrel].
  destruct (seq_split_facts _ _ _ Ho) as (Hnd & Hdis & Hlt & Hqlt).
  unfold call_handle.
  destruct (bool_decide (h ∈ granted st)) eqn:Eg; [|by constructor].
  destruct (bool_decide (h ∈ released st)) eqn:Er; [by constructor|].
  apply bool_decide_eq_true in Eg. apply bool_decide_eq_false in Er.
  pose proof (filter_release (granted st) (released st) h Hnd Eg Er) as Hlen.
  unfold unreleased in Hc.
  unfold release. cbn [sem granted released calls].
  destruct (queue (sem st)) as [|next rest] eqn:Eq.
  - constructor; sem_simpl.
    + lia.
    + unfold unreleased. sem_simpl. lia.
    + by rewrite <- Ho.
    + done.
    + intros x Hx. apply elem_of_union in Hx as [Hx|Hx]; [|by apply Hrel].
      apply elem_of_singleton in Hx. by subst.
  - assert (Hfull : inUse (sem st) = max (sem st)) by (by apply Hf).
    assert (Hnext : next ∉ {[h]} ∪ released st).
    { intros Hx. assert (next ∈ granted st) as Hin.
      { apply elem_of_union in Hx as [Hx|Hx]; [|by apply Hrel].
        apply elem_of_singleton in Hx. by subst. }
      apply Hdis in Hin. apply Hin. apply elem_of_cons. by left. }
    constructor; sem_simpl.
    + lia.
    + unfold unreleased. sem_simpl. rewrite filter_snoc_keep by done.
      rewrite length_app. cbn [length]. lia.
    + rewrite <- Ho, <- app_assoc. done.
    + intros _. lia.
    + intros x Hx. apply elem_of_app. left.
      apply elem_of_union in Hx as [Hx|Hx]; [|by apply Hrel].
      apply elem_of_singleton in Hx. by subst.
Qed.

Lemma step_inv (st : System) (op : Op) : Inv st -> Inv (step st op).
Proof. destruct op; [apply acquire_inv | apply call_handle_inv]. Qed.

Lemma step_max (st : System) (op : Op) : max (sem (step st op)) = max (sem st).
Proof.
  destruct op as [|h]; cbn.
  - unfold acquire. by destruct (_ <? _).
  - unfold call_handle, release.
    destruct (bool_decide _); [|done]. destruct (bool_decide _); [done|].
    cbn. by destruct (queue (sem st)).
Qed.

Lemma run_inv (ops : list Op) (st : System) :
  Inv st -> Inv (run ops st) /\ max (sem (run ops st)) = max (sem st).
Proof.
  revert st. induction ops as [|op ops IH]; intros st Hinv; [done|].
  change (run (op :: ops) st) with (run ops (step st op)).
  destruct (IH (step st op) (step_inv _ _ Hinv)) as [H1 H2].
  split; [done|]. by rewrite H2, step_max.
Qed.

(** C8. For a semaphore built with an integer capacity of at least 1, and
    after any sequence of [acquire] calls and handle calls: [inUse] lies
    in [0, capacity] and equals the number of acquisitions granted and not
    released; slots have been granted in the order of the calls of
    [acquire] (the callers granted so far, followed by the queue, are the
    callers in call order); nobody is queued while a slot is free; and a
    handle call that frees a slot gives it to the head of the queue. *)
Theorem semaphore_bounded_fifo :
  forall (capacity : Z) (ops : list Op),
    1 <= capacity ->
    exists s0,
      new (Js.Int capacity) = Some s0
      /\ let st := run ops (init s0) in
         0 <= inUse (sem st) <= capacity
         /\ Z.of_nat (length (unreleased st)) = inUse (sem st)
         /\ Z.of_nat (length (unreleased st)) <= capacity
         /\ granted st ++ queue (sem st) = seq 0 (calls st)
         /\ (queue (sem st) <> [] -> inUse (sem st) = capacity)
         /\ (forall h next rest,
                h ∈ unreleased st ->
                queue (sem st) = next :: rest ->
                granted (call_handle h st) = granted st ++ [next]
                /\ queue (sem (call_handle h st)) = rest
                /\ inUse (sem (call_handle h st)) = capacity).
Proof.
  intros capacity ops Hcap.
  destruct (new (Js.Int capacity)) as [s0|] eqn:Hnew;
    [|unfold new in Hnew; destruct (capacity <=? 0) eqn:E;
      [apply Z.leb_le in E; lia | discriminate]].
  exists s0. split; [done|].
  destruct (init_inv s0 capacity Hnew) as (Hinv0 & Hmax & _).
  destruct (run_inv ops (init s0) Hinv0) as [[Hr Hc Ho Hf Hrel] Hm].
  cbn [init sem] in Hm. rewrite Hmax in Hm. cbn zeta.
  rewrite Hm in *.
  split; [lia|]. split; [done|]. split; [lia|]. split; [done|].
  split; [done|].
  intros h next rest Hh Hq. unfold unreleased in Hh.
  apply list_elem_of_filter in Hh as [Hnr Hg].
  assert (inUse (sem (run ops (init s0))) = capacity) as Hfull
    by (apply Hf; by rewrite Hq).
  unfold call_handle.
  rewrite bool_decide_eq_true_2, bool_decide_eq_false_2 by done.
  unfold release. cbn [sem granted]. rewrite Hq.
  cbn [sem granted queue inUse]. repeat split. lia.
Qed.

End SemaphoreFacts.

Lemma semaphore_bounded_fifo_witness :
  exists s0,
    Semaphore.new (Js.Int 1) = Some s0
    /\ let st := Semaphore.run
                   [Semaphore.Acquire; Semaphore.Acquire; Semaphore.Acquire;
                    Semaphore.Release 0; Semaphore.Release 0]
                   (Semaphore.init s0) in
       0 <= Semaphore.inUse (Semaphore.sem st) <= 1
       /\ Z.of_nat (length (Semaphore.unreleased st)) = Semaphore.inUse (Semaphore.sem st)
       /\ Z.of_nat (length (Semaphore.unreleased st)) <= 1
       /\ Semaphore.granted st ++ Semaphore.queue (Semaphore.sem st)
          = seq 0 (Semaphore.calls st)
       /\ (Semaphore.queue (Semaphore.sem st) <> [] ->
           Semaphore.inUse (Semaphore.sem st) = 1)
       /\ (forall h next rest,
              h ∈ Semaphore.unreleased st ->
              Semaphore.queue (Semaphore.sem st) = next :: rest ->
              Semaphore.granted (Semaphore.call_handle h st)
              = Semaphore.granted st ++ [next]
              /\ Semaphore.queue (Semaphore.sem (Semaphore.call_handle h st)) = rest
              /\ Semaphore.inUse (Semaphore.sem (Semaphore.call_handle h st)) = 1).
Proof.
  apply (semaphore_bounded_fifo 1
           [Semaphore.Acquire; Semaphore.Acquire; Semaphore.Acquire;
            Semaphore.Release 0; Semaphore.Release 0]).
  lia.
Defined.

(** ** The rate limiter *)

Section LimiterFacts.

Import RpsLimiter.
Local Open Scope Q_scope.

Lemma refill_rps (now : Z) (l : RpsLimiter) : rps (refill now l) = rps l.
Proof.
  unfold refill. destruct (Qle_bool (rps l) 0); [done|].
  by destruct (now - lastRefill l <=? 0)%Z.
Qed.

Lemma refill_burst (now : Z) (l : RpsLimiter) : burst (refill now l) = burst l.
Proof.
  unfold refill. destruct (Qle_bool (rps l) 0); [done|].
  by destruct (now - lastRefill l <=? 0)%Z.
Qed.

(** Refilling never lifts the balance above the capacity. *)
Lemma refill_capped (now : Z) (l : RpsLimiter) :
  tokens l <= burst l -> tokens (refill now l) <= burst l.
Proof.
  intros H. unfold refill.
  destruct (Qle_bool (rps l) 0); [done|].
  destruct (now - lastRefill l <=? 0)%Z; [done|].
  cbn [tokens]. apply Q.le_min_l.
Qed.

(** The balance is within the capacity at construction, and stays there
    through every pass that takes a non-negative number of tokens. *)
Lemma new_within_burst (r : Q) (b : option Q) (now : Z) :
  tokens (new r b now) <= burst (new r b now).
Proof. apply Qle_refl. Qed.

Lemma pass_within_burst (now : Z) (count : Q) (l : RpsLimiter) :
  0 <= count -> tokens l <= burst l ->
  match pass now count l with
  | Paid l' | Sleep l' _ => tokens l' <= burst l' /\ burst l' = burst l
  end.
Proof.
  intros Hc Hcap. unfold pass.
  pose proof (refill_capped now l Hcap) as Hr.
  destruct (Qle_bool count (tokens (refill now l))); cbn [tokens burst];
    rewrite refill_burst; (split; [|done]); [|done].
  set (t := tokens (refill now l)) in *. lra.
Qed.

(** With a balance that cannot reach [count], every pass sleeps. *)
Lemma wait_never (count : Q) (lag : nat -> N) (fuel : nat) :
  forall (i : nat) (now : Z) (l : RpsLimiter),
    tokens l <= burst l -> burst l < count ->
    wait fuel lag i now count l = None.
Proof.
  induction fuel as [|fuel IH]; intros i now l Hcap Hbig; [reflexivity|].
  cbn [wait]. unfold pass.
  pose proof (refill_capped now l Hcap) as Hcap'.
  destruct (Qle_bool count (tokens (refill now l))) eqn:E.
  - apply Qle_bool_iff in E. exfalso.
    apply (Qlt_irrefl count).
    eapply Qle_lt_trans; [exact E|]. by eapply Qle_lt_trans.
  - apply IH; by rewrite ?refill_burst.
Qed.

Lemma no_refill_bound (count tokens rps e : Q) :
  0 < rps -> e <= 0 ->
  count - tokens - e / 1000 * rps <= 0 -> count <= tokens.
Proof.
  intros Hrps He H.
  assert (0 <= (- e) * rps) as Hp
    by (apply Qmult_le_0_compat; [lra | by apply Qlt_le_weak]).
  assert (e / 1000 * rps == - ((- e) * rps) * (1 # 1000)) as E by field.
  rewrite E in H. set (M := (- e) * rps) in *. lra.
Qed.

Lemma sleep_bound (D d rps m : Q) :
  0 < rps -> 1 <= d ->
  D * 1000 <= (m + 1) * rps ->
  (D - d / 1000 * rps) * 1000 <= m * rps.
Proof.
  intros Hrps Hd H.
  assert (0 <= (d - 1) * rps) as Hp
    by (apply Qmult_le_0_compat; [lra | by apply Qlt_le_weak]).
  assert ((D - d / 1000 * rps) * 1000 == D * 1000 - (d - 1) * rps - rps)
    as -> by field.
  assert ((m + 1) * rps == m * rps + rps) as E by ring.
  rewrite E in H. set (M := (d - 1) * rps) in *. set (N := m * rps) in *. lra.
Qed.


Lemma deficit_later (l : RpsLimiter) (now d : Z) (count : Q) :
  deficit l (now + d) count
  == deficit l now count - (inject_Z d / 1000) * rps l.
Proof.
  unfold deficit.
  replace (now + d - lastRefill l)%Z with ((now - lastRefill l) + d)%Z by lia.
  rewrite inject_Z_plus. field.
Qed.

Lemma Qceiling_pos (x : Q) : 0 < x -> (1 <= Qceiling x)%Z.
Proof.
  intros Hx. pose proof (Qle_ceiling x) as Hc.
  assert (0 < inject_Z (Qceiling x)) as H by (by eapply Qlt_le_trans).
  rewrite <- (Zlt_Qlt 0) in H. lia.
Qed.

(** A pass that finds no deficit pays. *)
Lemma pass_paid (now : Z) (count : Q) (l : RpsLimiter) :
  0 < rps l -> count <= burst l -> deficit l now count <= 0 ->
  exists l', pass now count l = Paid l'.
Proof.
  intros Hrps Hcount Hdef. unfold pass.
  assert (count <= tokens (refill now l)) as Hle.
  { unfold refill, deficit in *.
    destruct (Qle_bool (rps l) 0) eqn:E0.
    { apply Qle_bool_iff in E0. exfalso. apply (Qlt_irrefl 0).
      by eapply Qlt_le_trans. }
    destruct (now - lastRefill l <=? 0)%Z eqn:E1.
    - apply Z.leb_le in E1.
      assert (inject_Z (now - lastRefill l) <= 0) as He
        by (by rewrite <- (Zle_Qle _ 0)).
      by eapply no_refill_bound.
    - cbn [tokens]. apply Q.min_glb; [done|].
      set (add := inject_Z (now - lastRefill l) / 1000 * rps l) in *. lra. }
  apply Qle_bool_iff in Hle. rewrite Hle. by eexists.
Qed.

(** A pass that sleeps keeps the deficit, and sleeps for at least 1 ms. *)
Lemma pass_sleep (now : Z) (count : Q) (l l' : RpsLimiter) (ms : Z) :
  0 < rps l -> count <= burst l ->
  pass now count l = Sleep l' ms ->
  rps l' = rps l /\ burst l' = burst l /\ (1 <= ms)%Z
  /\ deficit l' now count == deficit l now count.
Proof.
  intros Hrps Hcount. unfold pass.
  destruct (Qle_bool count (tokens (refill now l))) eqn:E; [discriminate|].
  intros [= <- <-].
  assert (tokens (refill now l) < count) as Hlt.
  { apply Qnot_le_lt. intros Hle. apply Qle_bool_iff in Hle. congruence. }
  rewrite refill_rps, refill_burst. split; [done|]. split; [done|]. split.
  - assert (1 <= Qceiling ((count - tokens (refill now l)) / rps l * 1000))%Z.
    { apply Qceiling_pos. apply Qmult_lt_0_compat; [|reflexivity].
      apply Qlt_shift_div_l; [done|]. lra. }
    lia.
  - revert Hlt. unfold refill, deficit.
    destruct (Qle_bool (rps l) 0); [done|].
    destruct (now - lastRefill l <=? 0)%Z; [done|].
    cbn [tokens lastRefill rps]. intros Hlt.
    rewrite Z.sub_diag.
    destruct (Q.min_spec (burst l)
                (tokens l + inject_Z (now - lastRefill l) / 1000 * rps l))
      as [[_ Hm]|[_ Hm]]; rewrite Hm in *.
    + exfalso. apply (Qlt_irrefl count). by eapply Qle_lt_trans.
    + field.
Qed.

(** A deficit of at most [m] milliseconds' worth of refill is gone after
    at most [m] sleeps. *)
Lemma wait_returns (count : Q) (lag : nat -> N) (m : nat) :
  forall (i : nat) (now : Z) (l : RpsLimiter),
    0 < rps l -> count <= burst l ->
    deficit l now count * 1000 <= inject_Z (Z.of_nat m) * rps l ->
    is_Some (wait (S m) lag i now count l).
Proof.
  induction m as [|m IH]; intros i now l Hrps Hcount Hdef.
  - destruct (pass_paid now count l Hrps Hcount) as [l' Hp].
    { change (inject_Z (Z.of_nat 0)) with 0 in Hdef. lra. }
    cbn [wait]. rewrite Hp. by eexists.
  - cbn [wait]. destruct (pass now count l) as [l'|l' ms] eqn:Hp; [by eexists|].
    destruct (pass_sleep now count l l' ms Hrps Hcount Hp)
      as (Hr & Hb & Hms & Hd).
    apply IH; rewrite ?Hr, ?Hb; try done.
    replace (now + ms + Z.of_N (lag i))%Z with (now + (ms + Z.of_N (lag i)))%Z by lia.
    rewrite deficit_later, Hd, Hr.
    rewrite Nat2Z.inj_succ in Hdef. unfold Z.succ in Hdef.
    rewrite inject_Z_plus in Hdef. change (inject_Z 1) with 1 in Hdef.
    assert (1 <= inject_Z (ms + Z.of_N (lag i))) as Hone
      by (rewrite <- (Zle_Qle 1); lia).
    by apply sleep_bound.
Qed.

(** The clock reading at the return is not before the one at the call. *)
Lemma wait_clock (count : Q) (lag : nat -> N) (fuel : nat) :
  forall (i : nat) (now now' : Z) (l l' : RpsLimiter),
    0 < rps l -> count <= burst l ->
    wait fuel lag i now count l = Some (l', now') -> (now <= now')%Z.
Proof.
  induction fuel as [|fuel IH]; intros i now now' l l' Hrps Hcount; [done|].
  cbn [wait]. destruct (pass now count l) as [l1|l1 ms] eqn:Hp.
  - intros [= _ <-]. lia.
  - destruct (pass_sleep now count l l1 ms Hrps Hcount Hp) as (Hr & Hb & Hms & _).
    intros Hw. apply IH in Hw; rewrite ?Hr, ?Hb; try done. lia.
Qed.

(** C9. For a limiter with [rps > 0] whose balance is within its capacity
    (as it is from construction on): [take(count)] returns when
    [count <= burst], after finitely many timers whatever their lateness;
    and when [count > burst] it never returns: however many passes are
    run, the call is still waiting. *)
Theorem take_returns_iff_within_burst :
  forall (l : RpsLimiter) (count : Q) (lag : nat -> N) (now : Z),
    0 < rps l ->
    tokens l <= burst l ->
    (count <= burst l ->
     exists fuel l' now',
       take fuel lag now count l = Some (l', now') /\ (now <= now')%Z)
    /\ (burst l < count ->
        forall fuel, take fuel lag now count l = None).
Proof.
  intros l count lag now Hrps Hcap.
  assert (Hgo : forall fuel, take fuel lag now count l = wait fuel lag 0 now count l).
  { intros fuel. unfold take.
    destruct (Qeq_bool (rps l) 0) eqn:E1.
    { apply Qeq_bool_iff in E1. rewrite E1 in Hrps. discriminate. }
    destruct (Qle_bool (rps l) 0) eqn:E2; [|done].
    apply Qle_bool_iff in E2. exfalso. apply (Qlt_irrefl 0).
    by eapply Qlt_le_trans. }
  split.
  - intros Hcount.
    set (m := Z.to_nat (Qceiling (deficit l now count * 1000 / rps l))).
    destruct (wait_returns count lag m 0 now l Hrps Hcount) as [[l' now'] Hw].
    { pose proof (Qle_ceiling (deficit l now count * 1000 / rps l)) as Hc.
      assert (inject_Z (Qceiling (deficit l now count * 1000 / rps l))
              <= inject_Z (Z.of_nat m)) as Hm
        by (rewrite <- Zle_Qle; subst m; lia).
      assert (Hnz : ~ rps l == 0)
        by (intros Hz; rewrite Hz in Hrps; discriminate).
      assert (deficit l now count * 1000
              == deficit l now count * 1000 / rps l * rps l) as ->
        by (by field).
      apply Qmult_le_compat_r; [by eapply Qle_trans | by apply Qlt_le_weak]. }
    exists (S m), l', now'. rewrite Hgo. split; [done|].
    eapply wait_clock; eauto.
  - intros Hbig fuel. rewrite Hgo. by apply wait_never.
Qed.

End LimiterFacts.

Lemma take_returns_iff_within_burst_witness :
  (exists fuel l' now',
      RpsLimiter.take fuel on_time test_now 1 drained = Some (l', now')
      /\ test_now <= now')
  /\ (forall fuel, RpsLimiter.take fuel on_time test_now 3 drained = None).
Proof.
  split.
  - apply (take_returns_iff_within_burst drained 1 on_time test_now);
      vm_compute; congruence.
  - apply (take_returns_iff_within_burst drained 3 on_time test_now);
      vm_compute; congruence.
Defined.

(** The emptied bucket pays one token after 500 ms, in two timers. *)
Example take_drained :
  RpsLimiter.take 3 on_time test_now 1 drained
  = Some ({| RpsLimiter.rps := 2; RpsLimiter.burst := 2;
             RpsLimiter.tokens := Qmin 2 (Qmin 2 (0 + inject_Z 250 / 1000 * 2)
                                          + inject_Z 250 / 1000 * 2) - 1;
             RpsLimiter.lastRefill := test_now + 500 |},
          test_now + 500).
Proof. reflexivity. Qed.

(** The limiter of a client configured with [rps = 0.5] and no [rpsBurst]
    has capacity 0.5, so its [take(1)] never returns. *)
Example slow_client_never_takes :
  RpsLimiter.burst (InstrumentedProvider.rpsLimiter slow_client test_now) = (1 # 2)%Q
  /\ forall fuel lag,
       RpsLimiter.take fuel lag test_now 1
         (InstrumentedProvider.rpsLimiter slow_client test_now) = None.
Proof.
  split; [reflexivity|]. intros fuel lag.
  change (RpsLimiter.take fuel lag test_now 1
            (InstrumentedProvider.rpsLimiter slow_client test_now))
    with (RpsLimiter.wait fuel lag 0 test_now 1
            (InstrumentedProvider.rpsLimiter slow_client test_now)).
  apply wait_never; vm_compute; congruence.
Qed.

(* ===================================================================== *)
(** * Further properties                                                  *)
(* ===================================================================== *)

(** ** Router: the scan *)

Section RouterScan.

Import Router.

Variable stats : Stats.Stats.
Variable now : Z.
Variable eps : list Endpoint.
Hypothesis eps_nonempty : eps <> [].

Let n : Z := Z.of_nat (length eps).

(** The endpoint at cursor value [x] is in cooldown. *)
Let cooling_at (x : Z) : Prop :=
  exists ep, eps !! Z.to_nat (x mod n) = Some ep
             /\ Stats.isInCooldown stats now (providerId ep) = true.

(** What the scan of [k] steps from cursor [rr] does: it stops at the first
    step whose endpoint is not in cooldown, or runs through and takes the
    fallback. *)
Lemma scan_spec (k : nat) :
  forall rr : Z,
    (exists (j : nat) (ep : Endpoint),
        (j < k)%nat
        /\ (forall j' : nat, (j' < j)%nat -> cooling_at (rr + Z.of_nat j'))
        /\ eps !! Z.to_nat ((rr + Z.of_nat j) mod n) = Some ep
        /\ Stats.isInCooldown stats now (providerId ep) = false
        /\ scan k eps n stats now rr = (Returns (Some ep), rr + Z.of_nat j + 1))
    \/ ((forall j' : nat, (j' < k)%nat -> cooling_at (rr + Z.of_nat j'))
        /\ exists ep,
            eps !! Z.to_nat ((rr + Z.of_nat k) mod n) = Some ep
            /\ scan k eps n stats now rr
               = (Returns (Some ep), rr + Z.of_nat k + 1)).
Proof.
  induction k as [|k IH]; intros rr.
  - right. split; [intros j' Hj'; lia|].
    destruct (index_slot eps rr eps_nonempty) as (ep & Hidx & Hep).
    exists ep. cbn [scan]. fold n in Hidx, Hep.
    rewrite Z.add_0_r, Hidx. done.
  - destruct (index_slot eps rr eps_nonempty) as (ep & Hidx & Hep).
    fold n in Hidx, Hep. cbn [scan]. rewrite Hidx.
    destruct (Stats.isInCooldown stats now (providerId ep)) eqn:Hc; cbn [negb].
    + assert (Hhere : cooling_at (rr + Z.of_nat 0)).
      { exists ep. by rewrite Z.add_0_r. }
      assert (Hshift : forall j : nat,
                 rr + 1 + Z.of_nat j = rr + Z.of_nat (S j)) by (intros; lia).
      destruct (IH (rr + 1)) as [(j & ep' & Hj & Hbefore & Hat & Hfree & Hs)
                                |(Hall & ep' & Hat & Hs)].
      * left. exists (S j), ep'. rewrite Hshift in Hat, Hs.
        split; [lia|]. split; [|by rewrite Hs].
        intros [|j'] Hj'; [done|]. rewrite <- Hshift. apply Hbefore. lia.
      * right. rewrite Hshift in Hat, Hs. split; [|by exists ep'].
        intros [|j'] Hj'; [done|]. rewrite <- Hshift. apply Hall. lia.
    + left. exists 0%nat, ep. rewrite Z.add_0_r.
      split; [lia|]. split; [intros j' Hj'; lia|]. done.
Qed.

(** Every position of the list is visited by [n] consecutive cursor
    values. *)
Lemma positions_covered (rr : Z) (i : nat) :
  (i < length eps)%nat ->
  exists j : nat, (j < length eps)%nat
                  /\ Z.to_nat ((rr + Z.of_nat j) mod n) = i.
Proof.
  intros Hi.
  assert (Hn : 0 < n) by (subst n; lia).
  exists (Z.to_nat ((Z.of_nat i - rr) mod n)).
  pose proof (Z.mod_pos_bound (Z.of_nat i - rr) n Hn) as Hb.
  split; [subst n; lia|].
  rewrite Z2Nat.id by lia.
  rewrite Zplus_mod_idemp_r.
  replace (rr + (Z.of_nat i - rr)) with (Z.of_nat i) by lia.
  rewrite Z.mod_small by (subst n; lia). lia.
Qed.

End RouterScan.

(** X1. On a router with at least one endpoint [pick] returns an endpoint
    of its list: never [undefined], never an exception.  The endpoint list
    is left alone and the cursor moves forward by at least 1 and at most
    [n + 1]. *)
Theorem pick_returns_member :
  forall (r : Router.Router) (stats : Stats.Stats) (now : Z),
    Router.endpoints r <> [] ->
    exists ep r',
      Router.pick r stats now = (Router.Returns (Some ep), r')
      /\ ep ∈ Router.endpoints r
      /\ Router.endpoints r' = Router.endpoints r
      /\ Router.rr r < Router.rr r' <= Router.rr r + Router.size r + 1.
Proof.
  intros r stats now Hne. unfold Router.pick, Router.size.
  destruct (scan_spec stats now (Router.endpoints r) Hne
              (length (Router.endpoints r)) (Router.rr r))
    as [(j & ep & Hj & _ & Hat & _ & Hs)|(_ & ep & Hat & Hs)];
    rewrite Hs; eexists ep, _; (split; [reflexivity|]);
    (split; [by eapply list_elem_of_lookup_2|]);
    (split; [reflexivity|]); cbn [Router.rr]; lia.
Qed.

Lemma pick_returns_member_witness :
  exists ep r',
    Router.pick (Router.new abc) (all_cooling test_now) test_now
    = (Router.Returns (Some ep), r')
    /\ ep ∈ Router.endpoints (Router.new abc)
    /\ Router.endpoints r' = Router.endpoints (Router.new abc)
    /\ Router.rr (Router.new abc) < Router.rr r'
       <= Router.rr (Router.new abc) + Router.size (Router.new abc) + 1.
Proof.
  apply (pick_returns_member (Router.new abc) (all_cooling test_now) test_now).
  discriminate.
Defined.

(** X2. When some endpoint is not in cooldown, [pick] returns the first
    endpoint not in cooldown in round-robin order from the cursor: the
    endpoints at the [j] positions before it are all in cooldown, and the
    cursor is left just behind it. *)
Theorem pick_first_available :
  forall (r : Router.Router) (stats : Stats.Stats) (now : Z) (free : Router.Endpoint),
    free ∈ Router.endpoints r ->
    Stats.isInCooldown stats now (Router.providerId free) = false ->
    exists (j : nat) (ep : Router.Endpoint),
      (j < length (Router.endpoints r))%nat
      /\ Router.endpoints r
           !! Z.to_nat ((Router.rr r + Z.of_nat j) mod Router.size r) = Some ep
      /\ Stats.isInCooldown stats now (Router.providerId ep) = false
      /\ (forall j' : nat, (j' < j)%nat ->
            exists ep',
              Router.endpoints r
                !! Z.to_nat ((Router.rr r + Z.of_nat j') mod Router.size r) = Some ep'
              /\ Stats.isInCooldown stats now (Router.providerId ep') = true)
      /\ Router.pick r stats now
         = (Router.Returns (Some ep),
            {| Router.endpoints := Router.endpoints r;
               Router.rr := Router.rr r + Z.of_nat j + 1 |}).
Proof.
  intros r stats now free Hin Hfree.
  assert (Hne : Router.endpoints r <> []) by (intros E; rewrite E in Hin; by apply elem_of_nil in Hin).
  unfold Router.pick, Router.size.
  destruct (scan_spec stats now (Router.endpoints r) Hne
              (length (Router.endpoints r)) (Router.rr r))
    as [(j & ep & Hj & Hbefore & Hat & Hc & Hs)|(Hall & _)].
  - exists j, ep. rewrite Hs. done.
  - exfalso. apply list_elem_of_lookup_1 in Hin as [i Hi].
    destruct (positions_covered (Router.endpoints r) (Router.rr r) i)
      as (j & Hj & Hji); [by eapply lookup_lt_Some|].
    destruct (Hall j Hj) as (ep & Hep & Hc). rewrite Hji, Hi in Hep.
    injection Hep as <-. congruence.
Qed.

Lemma pick_first_available_witness :
  exists (j : nat) (ep : Router.Endpoint),
    (j < 3)%nat
    /\ abc !! Z.to_nat ((1 + Z.of_nat j) mod 3) = Some ep
    /\ Stats.isInCooldown (Stats.setCooldown "b" 60000 test_now Stats.new)
         test_now (Router.providerId ep) = false
    /\ (forall j' : nat, (j' < j)%nat ->
          exists ep',
            abc !! Z.to_nat ((1 + Z.of_nat j') mod 3) = Some ep'
            /\ Stats.isInCooldown (Stats.setCooldown "b" 60000 test_now Stats.new)
                 test_now (Router.providerId ep') = true)
    /\ Router.pick {| Router.endpoints := abc; Router.rr := 1 |}
         (Stats.setCooldown "b" 60000 test_now Stats.new) test_now
       = (Router.Returns (Some ep),
          {| Router.endpoints := abc; Router.rr := 1 + Z.of_nat j + 1 |}).
Proof.
  apply (pick_first_available {| Router.endpoints := abc; Router.rr := 1 |}
           (Stats.setCooldown "b" 60000 test_now Stats.new) test_now
           (ep_named "c")).
  - unfold abc. cbn. apply elem_of_cons. right. apply elem_of_cons. right.
    apply elem_of_cons. by left.
  - reflexivity.
Defined.

(** When the endpoint under the cursor is not in cooldown, [pick] returns it
    and moves the cursor by one. *)
Lemma pick_at_cursor (eps : list Router.Endpoint) (rr0 : Z)
    (stats : Stats.Stats) (now : Z) (ep : Router.Endpoint) :
  eps !! Z.to_nat (rr0 mod Z.of_nat (length eps)) = Some ep ->
  Stats.isInCooldown stats now (Router.providerId ep) = false ->
  Router.pick {| Router.endpoints := eps; Router.rr := rr0 |} stats now
  = (Router.Returns (Some ep), {| Router.endpoints := eps; Router.rr := rr0 + 1 |}).
Proof.
  intros Hat Hc.
  assert (Hne : eps <> []) by (intros ->; by rewrite lookup_nil in Hat).
  unfold Router.pick, Router.size. cbn [Router.endpoints Router.rr].
  destruct eps as [|e0 eps']; [done|].
  destruct (index_slot (e0 :: eps') rr0 Hne) as (ep' & Hidx & Hep).
  rewrite Hat in Hep. injection Hep as <-.
  change (length (e0 :: eps')) with (S (length eps')) at 1.
  cbn [Router.scan]. by rewrite Hidx, Hc.
Qed.

(** X3. While no endpoint is in cooldown, successive picks walk the list in
    order and wrap around: the [j]-th pick (from 0) returns the endpoint at
    position [(rr + j) mod n]. *)
Theorem picks_round_robin :
  forall (r : Router.Router) (stats : Stats.Stats) (now : Z) (k : nat),
    Router.endpoints r <> [] ->
    (forall ep, ep ∈ Router.endpoints r ->
                Stats.isInCooldown stats now (Router.providerId ep) = false) ->
    Router.picks k r stats now
    = (fun j : nat =>
         Router.providerId
           <$> Router.endpoints r
                 !! Z.to_nat ((Router.rr r + Z.of_nat j) mod Router.size r))
        <$> seq 0 k.
Proof.
  intros [eps rr0] stats now k Hne Hfree. cbn [Router.endpoints Router.rr] in *.
  unfold Router.size. cbn [Router.endpoints].
  revert rr0. induction k as [|k IH]; intros rr0; [done|].
  destruct (index_slot eps rr0 Hne) as (ep & _ & Hep).
  cbn [Router.picks].
  rewrite (pick_at_cursor eps rr0 stats now ep Hep)
    by (apply Hfree; by eapply list_elem_of_lookup_2).
  rewrite IH. cbn [seq fmap list_fmap]. rewrite Z.add_0_r, Hep. f_equal.
  rewrite <- fmap_S_seq, <- list_fmap_compose.
  apply list_fmap_ext. intros i j _. cbn.
  by replace (rr0 + 1 + Z.of_nat j) with (rr0 + Z.of_nat (S j)) by lia.
Qed.

Lemma picks_round_robin_witness :
  Router.picks 5 (Router.new abc) Stats.new test_now
  = (fun j : nat =>
       Router.providerId
         <$> Router.endpoints (Router.new abc)
               !! Z.to_nat ((Router.rr (Router.new abc) + Z.of_nat j)
                            mod Router.size (Router.new abc)))
      <$> seq 0 5.
Proof.
  apply (picks_round_robin (Router.new abc) Stats.new test_now 5).
  - discriminate.
  - intros ep _. reflexivity.
Defined.

(** ** The registry *)

Section StatsFacts.

Import Stats StatsOps.

Lemma get_insert (m : gmap string Z) (key k : string) (v : Z) :
  get (<[key := v]> m) k = if decide (key = k) then v else get m k.
Proof.
  unfold get. rewrite lookup_insert. destruct (decide (key = k)); [|done].
  unfold Js.or_num. destruct (v =? 0) eqn:E; [|done].
  apply Z.eqb_eq in E. lia.
Qed.

Lemma get_bump (m : gmap string Z) (key k : string) :
  get (_bump m key) k = if decide (key = k) then get m key + 1 else get m k.
Proof. unfold _bump. apply get_insert. Qed.

Lemma get_decrease (m : gmap string Z) (key k : string) :
  get (_decrease m key) k
  = if decide (key = k) then Z.max (get m key - 1) 0 else get m k.
Proof. unfold _decrease. apply get_insert. Qed.

Lemma step_nonneg (s : Stats) (op : Op) : NonNeg s -> NonNeg (step s op).
Proof.
  intros [H1 H2 H3 H4 H5 H6 H7 H8 H9].
  destruct op; constructor; cbn; try done; try lia; intros k;
    rewrite ?get_bump, ?get_decrease, ?get_insert;
    try done; case_decide; subst; try done;
    repeat match goal with H : forall k : string, _ |- _ => specialize (H k) end;
    lia.
Qed.

Lemma step_monotone (s : Stats) (op : Op) :
  _total s <= _total (step s op)
  /\ _rateLimitedTotal s <= _rateLimitedTotal (step s op)
  /\ _timeoutTotal s <= _timeoutTotal (step s op)
  /\ (forall k, get (_perMethod s) k <= get (_perMethod (step s op)) k)
  /\ (forall k, get (_perProviderTotal s) k <= get (_perProviderTotal (step s op)) k)
  /\ (forall k, get (_perProviderTimeout s) k
                <= get (_perProviderTimeout (step s op)) k)
  /\ (forall k, get (_perProviderRateLimited s) k
                <= get (_perProviderRateLimited (step s op)) k).
Proof.
  destruct op; cbn; repeat split; try lia; intros k;
    rewrite ?get_bump, ?get_insert; try lia; case_decide; subst; lia.
Qed.

(** X4. Whatever mutators are called on a fresh registry, in whatever
    order, with provider ids and method names that are no inherited
    property names, no counter is ever negative (the in-flight counters are
    clamped at zero), and the totals (overall, per method, per endpoint,
    timeouts, rate limits) never decrease from one call to the next. *)
Theorem stats_counters_nonnegative_monotone :
  forall (ops : list Op) (op : Op),
    Forall plain ops -> plain op ->
    let s := run ops Stats.new in
    (0 <= _total s /\ 0 <= _inFlight s
     /\ 0 <= _rateLimitedTotal s /\ 0 <= _timeoutTotal s)
    /\ (forall k, Js.inherited k = false ->
          0 <= get (_perMethod s) k
          /\ 0 <= get (_perProviderInFlight s) k
          /\ 0 <= get (_perProviderTotal s) k
          /\ 0 <= get (_perProviderTimeout s) k
          /\ 0 <= get (_perProviderRateLimited s) k)
    /\ _total s <= _total (step s op)
    /\ _rateLimitedTotal s <= _rateLimitedTotal (step s op)
    /\ _timeoutTotal s <= _timeoutTotal (step s op)
    /\ (forall k, Js.inherited k = false ->
          get (_perMethod s) k <= get (_perMethod (step s op)) k
          /\ get (_perProviderTotal s) k
             <= get (_perProviderTotal (step s op)) k
          /\ get (_perProviderTimeout s) k
             <= get (_perProviderTimeout (step s op)) k
          /\ get (_perProviderRateLimited s) k
             <= get (_perProviderRateLimited (step s op)) k).
Proof.
  intros ops op _ _ s.
  assert (Hnn : NonNeg s).
  { subst s. unfold run.
    assert (Hgen : forall s0, NonNeg s0 -> NonNeg (fold_left step ops s0)).
    { induction ops as [|o ops IH]; intros s0 H0; [done|].
      cbn. apply IH. by apply step_nonneg. }
    apply Hgen. constructor; cbn; try done; intros k; unfold get;
      by rewrite lookup_empty. }
  destruct Hnn as [H1 H2 H3 H4 H5 H6 H7 H8 H9].
  destruct (step_monotone s op) as (M1 & M2 & M3 & M4 & M5 & M6 & M7).
  repeat split; auto.
Qed.

Lemma stats_counters_nonnegative_monotone_witness :
  let s := run [BumpInFlightPerProvider "p1"; BumpPerMethod "eth_call";
                DecreaseInFlightPerProvider "p1";
                DecreaseInFlightPerProvider "p1"] Stats.new in
  0 <= _inFlight s
  /\ _total s <= _total (step s (BumpProviderTotal "p1")).
Proof.
  intros s.
  destruct (stats_counters_nonnegative_monotone
              [BumpInFlightPerProvider "p1"; BumpPerMethod "eth_call";
               DecreaseInFlightPerProvider "p1";
               DecreaseInFlightPerProvider "p1"]
              (BumpProviderTotal "p1"))
    as ((_ & Hin & _) & _ & Hm & _).
  - repeat constructor.
  - reflexivity.
  - split; [exact Hin | exact Hm].
Defined.

(** X5. After [setCooldown(id, ms)] at clock reading [now] the endpoint is
    in cooldown exactly at the clock readings before [now + ms]: the
    cooldown ends by itself.  Other endpoints are not affected, and a second
    [setCooldown] replaces the first instead of adding to it. *)
Theorem cooldown_window :
  forall (s : Stats) (id : string) (ms now : Z),
    (forall t : Z,
        isInCooldown (setCooldown id ms now s) t id = true <-> t < now + ms)
    /\ (forall (t : Z) (other : string),
           other <> id ->
           isInCooldown (setCooldown id ms now s) t other = isInCooldown s t other)
    /\ (forall ms2 now2 : Z,
           setCooldown id ms2 now2 (setCooldown id ms now s)
           = setCooldown id ms2 now2 s).
Proof.
  intros s id ms now. split; [|split].
  - intros t. unfold isInCooldown, setCooldown. cbn.
    rewrite get_insert, decide_True by done.
    rewrite Z.gtb_ltb. apply Z.ltb_lt.
  - intros t other Hne. unfold isInCooldown, setCooldown. cbn.
    by rewrite get_insert, decide_False by done.
  - intros ms2 now2. unfold setCooldown. cbn. by rewrite insert_insert_eq.
Qed.

Lemma cooldown_window_witness :
  isInCooldown (setCooldown "b" 60000 test_now Stats.new) (test_now + 59999) "a"
  = isInCooldown Stats.new (test_now + 59999) "a".
Proof.
  apply (proj1 (proj2 (cooldown_window Stats.new "b" 60000 test_now))).
  discriminate.
Defined.

End StatsFacts.

(** ** One instrumented call *)

Section CallFacts.

Import Utils Stats StatsOps InstrumentedProvider.

(** The handler touches the rate-limit and timeout counters and the
    cooldown table, nothing else. *)
Lemma onError_frame (id : string) (now : Z) (rnd : Q) (e : JsError) (st : Stats) :
  _total (onError id now rnd e st) = _total st
  /\ _inFlight (onError id now rnd e st) = _inFlight st
  /\ _perMethod (onError id now rnd e st) = _perMethod st
  /\ _perProviderInFlight (onError id now rnd e st) = _perProviderInFlight st
  /\ _perProviderTotal (onError id now rnd e st) = _perProviderTotal st.
Proof.
  unfold onError.
  destruct (isRateLimitError e), (isTimeoutError e); cbn;
    try destruct (timeoutCooldown _ _ _ _); done.
Qed.

Lemma onError_timeouts (id : string) (now : Z) (rnd : Q) (e : JsError) (st : Stats) :
  _perProviderTimeout (onError id now rnd e st)
  = if isTimeoutError e then _bump (_perProviderTimeout st) id
    else _perProviderTimeout st.
Proof.
  unfold onError.
  destruct (isRateLimitError e), (isTimeoutError e); cbn;
    try destruct (timeoutCooldown _ _ _ _); done.
Qed.

(** X6. Whatever the outcome of a call, made for a method name and by a
    client with a provider id that are no inherited property names, when it
    is over the in-flight counters (overall and of the endpoint) are back
    where they were, and the overall total, the endpoint's total and the
    method's total have each grown by exactly one. *)
Theorem call_counters :
  forall (V : Type) (ms : Z) (p : ProviderParams) (method : string)
         (base : Settles V) (startedAt : Z) (rnd : Q) (st : Stats),
    Js.inherited method = false ->
    Js.inherited (providerId p) = false ->
    0 <= _inFlight st ->
    0 <= get (_perProviderInFlight st) (providerId p) ->
    let st' := (sendInstrumentedWith ms p method base startedAt rnd st).1.2 in
    _inFlight st' = _inFlight st
    /\ get (_perProviderInFlight st') (providerId p)
       = get (_perProviderInFlight st) (providerId p)
    /\ _total st' = _total st + 1
    /\ get (_perProviderTotal st') (providerId p)
       = get (_perProviderTotal st) (providerId p) + 1
    /\ get (_perMethod st') method = get (_perMethod st) method + 1.
Proof.
  intros V ms p method base startedAt rnd st _ _ Hin Hpin st'. subst st'.
  unfold sendInstrumentedWith.
  destruct (withTimeout base ms method (providerId p) (chainId p)) as [d [v|e]];
    cbn [fst snd].
  - cbn [decreaseInFlightPerProvider bumpPerMethod bumpProviderTotal
         bumpInFlightPerProvider _inFlight _perProviderInFlight _total
         _perProviderTotal _perMethod].
    rewrite get_decrease, !get_bump, get_insert, !decide_True by done.
    repeat split; lia.
  - set (st3 := bumpPerMethod method
                  (bumpProviderTotal (providerId p)
                     (bumpInFlightPerProvider (providerId p) st))).
    destruct (onError_frame (providerId p) (startedAt + d) rnd e st3)
      as (Ht & Hi & Hm & Hpi & Hpt).
    unfold decreaseInFlightPerProvider. cbn [_inFlight _perProviderInFlight
      _total _perProviderTotal _perMethod].
    rewrite Ht, Hi, Hm, Hpi, Hpt. subst st3.
    cbn [bumpPerMethod bumpProviderTotal
         bumpInFlightPerProvider _inFlight _perProviderInFlight _total
         _perProviderTotal _perMethod].
    rewrite get_decrease, !get_bump, get_insert, !decide_True by done.
    repeat split; lia.
Qed.

Lemma call_counters_witness :
  let st' := (sendInstrumentedWith 10000
                {| url := "http://example.invalid"; chainId := 1;
                   providerId := "p1"; inFlight := None; timeout := None;
                   rps := None; rpsBurst := None |}
                "eth_blockNumber" (After 5 (Rejected tooMany) : Settles Z)
                test_now 0 Stats.new).1.2 in
  _inFlight st' = _inFlight Stats.new
  /\ get (_perProviderInFlight st') "p1" = get (_perProviderInFlight Stats.new) "p1"
  /\ _total st' = _total Stats.new + 1
  /\ get (_perProviderTotal st') "p1" = get (_perProviderTotal Stats.new) "p1" + 1
  /\ get (_perMethod st') "eth_blockNumber"
     = get (_perMethod Stats.new) "eth_blockNumber" + 1.
Proof.
  apply (call_counters Z 10000
           {| url := "http://example.invalid"; chainId := 1;
              providerId := "p1"; inFlight := None; timeout := None;
              rps := None; rpsBurst := None |}
           "eth_blockNumber" (After 5 (Rejected tooMany)) test_now 0 Stats.new).
  - reflexivity.
  - reflexivity.
  - reflexivity.
  - vm_compute. discriminate.
Defined.

Lemma timeoutError_classified (ms : Z) (method id : string) (cid : Z) :
  isTimeoutError (timeoutError ms method id cid) = true
  /\ shouldFailover (timeoutError ms method id cid) = true.
Proof.
  assert (isTimeoutError (timeoutError ms method id cid) = true) as H
    by reflexivity.
  split; [done|]. unfold shouldFailover. by rewrite H.
Qed.

(** X7. The race of a call against its timer.  The timer is due [ms]
    milliseconds after it is set, or 1 ms after when [ms] is below 1 or
    above 2^31 - 1, and is taken to fire when it is due.  A transport that settles strictly before that has its
    own outcome passed on, value or error, at its own time.  A transport
    that settles strictly later or never makes the call end when the timer
    fires, with an error that carries the code TIMEOUT, is classified as
    timeout, is eligible for failover, and is counted as one timeout of the
    endpoint.  Nothing is said of a transport that settles in the very
    millisecond the timer fires. *)
Theorem call_race :
  forall (V : Type) (ms : Z) (p : ProviderParams) (method : string)
         (base : Settles V) (startedAt : Z) (rnd : Q) (st : Stats),
    Js.inherited (providerId p) = false ->
    let r := sendInstrumentedWith ms p method base startedAt rnd st in
    let fires := Js.timerDelay ms in
    (1 <= fires
     /\ (1 <= ms <= 2147483647 -> fires = ms)
     /\ (ms < 1 \/ 2147483647 < ms -> fires = 1))
    /\ (forall (d : Z) (o : Outcome V),
           base = After d o -> d < fires ->
           r.1.1 = o /\ r.2 = startedAt + d)
    /\ (base = Never \/ (exists d o, base = After d o /\ fires < d) ->
        exists e,
          r.1.1 = Rejected e /\ r.2 = startedAt + fires
          /\ code e = Some "TIMEOUT"
          /\ isTimeoutError e = true
          /\ shouldFailover e = true
          /\ _timeoutTotal r.1.2 = _timeoutTotal st + 1
          /\ get (_perProviderTimeout r.1.2) (providerId p)
             = get (_perProviderTimeout st) (providerId p) + 1).
Proof.
  intros V ms p method base startedAt rnd st _ r fires. subst r.
  split; [|split].
  - subst fires. unfold Js.timerDelay.
    destruct (1 <=? ms) eqn:E1; destruct (ms <=? 2147483647) eqn:E2;
      cbn [andb];
      try apply Z.leb_le in E1; try apply Z.leb_le in E2;
      try apply Z.leb_gt in E1; try apply Z.leb_gt in E2;
      repeat split; intros; lia.
  - intros d o -> Hd. unfold sendInstrumentedWith, withTimeout. fold fires.
    assert ((d <=? fires) = true) as -> by (apply Z.leb_le; lia).
    by destruct o.
  - intros Hlate.
    assert (withTimeout base ms method (providerId p) (chainId p)
            = (fires, Rejected (timeoutError ms method (providerId p) (chainId p))))
      as Hw.
    { unfold withTimeout. fold fires.
      destruct Hlate as [->|(d & o & -> & Hd)]; [done|].
      apply Z.leb_gt in Hd. by rewrite Hd. }
    unfold sendInstrumentedWith. rewrite Hw. cbn [fst snd].
    set (e := timeoutError ms method (providerId p) (chainId p)).
    destruct (timeoutError_classified ms method (providerId p) (chainId p))
      as [Hto Hfo].
    fold e in Hto, Hfo.
    exists e. split; [done|]. split; [done|]. split; [done|].
    split; [done|]. split; [done|].
    unfold decreaseInFlightPerProvider. cbn [_timeoutTotal _perProviderTimeout].
    rewrite onError_timeouts, Hto.
    split.
    + unfold onError. rewrite Hto.
      destruct (isRateLimitError e); cbn;
        destruct (timeoutCooldown _ _ _ _); cbn; lia.
    + cbn. by rewrite get_bump, decide_True.
Qed.

Lemma call_race_witness :
  exists e,
    (sendInstrumentedWith 10000
       {| url := "http://example.invalid"; chainId := 1;
          providerId := "p1"; inFlight := None; timeout := None;
          rps := None; rpsBurst := None |}
       "eth_call" (After 10001 (Resolved 7) : Settles Z) test_now 0 Stats.new).1.1
    = Rejected e
    /\ code e = Some "TIMEOUT".
Proof.
  destruct (proj2 (proj2 (call_race Z 10000
           {| url := "http://example.invalid"; chainId := 1;
              providerId := "p1"; inFlight := None; timeout := None;
              rps := None; rpsBurst := None |}
           "eth_call" (After 10001 (Resolved 7)) test_now 0 Stats.new eq_refl)))
    as (e & He & _ & Hc & _).
  - right. exists 10001, (Resolved 7). split; [reflexivity|].
    vm_compute. reflexivity.
  - exists e. split; [exact He | exact Hc].
Defined.

End CallFacts.

Section HandlerFacts.

Import Utils Stats StatsOps InstrumentedProvider.

(** X8. An error classified as rate-limit and not as timeout is counted
    once, overall and for the endpoint, and sets the endpoint's cooldown to
    end at [now] plus the retry-after delay of the error, or plus 10 s when
    it has none; in that case the endpoint is in cooldown exactly until
    [now + 10000].  The timeout counters are not touched. *)
Theorem rate_limit_cooldown :
  forall (id : string) (now : Z) (rnd : Q) (e : JsError) (st : Stats),
    isRateLimitError e = true ->
    isTimeoutError e = false ->
    let st' := onError id now rnd e st in
    _rateLimitedTotal st' = _rateLimitedTotal st + 1
    /\ get (_perProviderRateLimited st') id
       = get (_perProviderRateLimited st) id + 1
    /\ _providerCooldownUntil st' !! id
       = Some (now + default 10000 (getRetryAfterMs e))
    /\ _timeoutTotal st' = _timeoutTotal st
    /\ _perProviderTimeout st' = _perProviderTimeout st
    /\ (getRetryAfterMs e = None ->
        forall t : Z, isInCooldown st' t id = true <-> t < now + 10000).
Proof.
  intros id now rnd e st Hrl Hto st'. subst st'. unfold onError.
  rewrite Hrl, Hto. cbn.
  rewrite get_bump, decide_True, lookup_insert_eq by done.
  repeat split; try done.
  - intros Hin. unfold isInCooldown in Hin. cbn in Hin.
    rewrite get_insert, decide_True in Hin by done.
    apply Z.gtb_lt in Hin.
    by match goal with H : getRetryAfterMs e = None |- _ => rewrite H in Hin end.
  - intros Ht. unfold isInCooldown. cbn.
    rewrite get_insert, decide_True by done. apply Z.gtb_lt.
    by match goal with H : getRetryAfterMs e = None |- _ => rewrite H end.
Qed.

Lemma rate_limit_cooldown_witness :
  _providerCooldownUntil (onError "p1" test_now 0 tooMany Stats.new) !! "p1"
  = Some (test_now + 10000).
Proof.
  exact (proj1 (proj2 (proj2
           (rate_limit_cooldown "p1" test_now 0 tooMany Stats.new
              eq_refl eq_refl)))).
Defined.

Lemma ratio_in_unit (st : Stats) (id : string) :
  TimeoutsWithinTotals st ->
  (0 <= timeoutRatio st id /\ timeoutRatio st id <= 1)%Q.
Proof.
  intros H. specialize (H id). unfold timeoutRatio.
  destruct (get (_perProviderTotal st) id =? 0) eqn:E; [split; discriminate|].
  apply Z.eqb_neq in E.
  assert (0 < inject_Z (get (_perProviderTotal st) id))%Q as Hn
    by (rewrite <- (Zlt_Qlt 0); lia).
  split.
  - apply Qle_shift_div_l; [done|]. rewrite Qmult_0_l.
    rewrite <- (Zle_Qle 0). lia.
  - apply Qle_shift_div_r; [done|]. rewrite Qmult_1_l.
    rewrite <- Zle_Qle. lia.
Qed.

(** X9. No endpoint ever has more timeouts on record than calls: this holds
    in a fresh registry and is kept by every instrumented call, whichever
    endpoint makes it and however it ends.  The timeout ratio of every
    endpoint therefore lies between 0 and 1. *)
Theorem timeouts_within_totals :
  TimeoutsWithinTotals Stats.new
  /\ (forall (V : Type) (ms : Z) (p : ProviderParams) (method : string)
             (base : Settles V) (startedAt : Z) (rnd : Q) (st : Stats),
         TimeoutsWithinTotals st ->
         TimeoutsWithinTotals
           (sendInstrumentedWith ms p method base startedAt rnd st).1.2)
  /\ (forall (st : Stats) (id : string),
         TimeoutsWithinTotals st ->
         (0 <= timeoutRatio st id /\ timeoutRatio st id <= 1)%Q).
Proof.
  split; [|split].
  - intros id. cbn [Stats.new _perProviderTimeout _perProviderTotal].
    unfold get. rewrite !lookup_empty. cbn. lia.
  - intros V ms p method base startedAt rnd st H k. specialize (H k).
    unfold sendInstrumentedWith.
    destruct (withTimeout base ms method (providerId p) (chainId p)) as [d [v|e]];
      cbn [fst snd].
    + cbn. rewrite get_insert. case_decide; subst; lia.
    + set (st3 := bumpPerMethod method
                    (bumpProviderTotal (providerId p)
                       (bumpInFlightPerProvider (providerId p) st))).
      destruct (onError_frame (providerId p) (startedAt + d) rnd e st3)
        as (_ & _ & _ & _ & Hpt).
      unfold decreaseInFlightPerProvider.
      cbn [_perProviderTotal _perProviderTimeout].
      rewrite Hpt, onError_timeouts. subst st3. cbn.
      rewrite get_insert.
      destruct (isTimeoutError e); rewrite ?get_bump;
        repeat case_decide; subst; try done; lia.
  - apply ratio_in_unit.
Qed.

Lemma timeouts_within_totals_witness :
  TimeoutsWithinTotals
    (sendInstrumentedWith 10000
       {| url := "http://example.invalid"; chainId := 1;
          providerId := "p1"; inFlight := None; timeout := None;
          rps := None; rpsBurst := None |}
       "eth_call" (Never : Settles Z) test_now 0 Stats.new).1.2.
Proof.
  apply (proj1 (proj2 timeouts_within_totals)).
  apply (proj1 timeouts_within_totals).
Defined.

End HandlerFacts.

(** ** The semaphore: handles and waiters *)

Section HandleFacts.

Import Semaphore Releases.

Lemma step_keeps_released (st : System) (op : Op) (h : nat) :
  h ∈ granted st -> h ∈ released st ->
  h ∈ granted (step st op) /\ h ∈ released (step st op).
Proof.
  intros Hg Hr. destruct op as [|h']; cbn [step].
  - unfold acquire. destruct (inUse (sem st) <? max (sem st)); cbn; [|done].
    split; [|done]. apply elem_of_app. by left.
  - unfold call_handle.
    destruct (bool_decide (h' ∈ granted st)); [|done].
    destruct (bool_decide (h' ∈ released st)); [done|].
    unfold release. cbn [sem granted released calls].
    destruct (queue (sem st)); cbn [granted released];
      (split; [|apply elem_of_union; by right]);
      try done; apply elem_of_app; by left.
Qed.

Lemma run_keeps_released (ops : list Op) (st : System) (h : nat) :
  h ∈ granted st -> h ∈ released st ->
  h ∈ granted (run ops st) /\ h ∈ released (run ops st).
Proof.
  revert st. induction ops as [|op ops IH]; intros st Hg Hr; [done|].
  change (run (op :: ops) st) with (run ops (step st op)).
  destruct (step_keeps_released st op h Hg Hr). by apply IH.
Qed.

(** X10. A handle works once.  After the first call of the handle of a
    granted acquisition, calling it again changes nothing, whether at once
    or after any further acquire and release activity: no slot is freed a
    second time and no waiter is woken. *)
Theorem release_idempotent :
  forall (st : System) (h : nat) (ops : list Op),
    h ∈ granted st ->
    call_handle h (run ops (call_handle h st)) = run ops (call_handle h st).
Proof.
  intros st h ops Hg.
  assert (h ∈ granted (call_handle h st) /\ h ∈ released (call_handle h st))
    as [Hg1 Hr1].
  { unfold call_handle. rewrite bool_decide_eq_true_2 by done.
    destruct (bool_decide (h ∈ released st)) eqn:Er.
    - by apply bool_decide_eq_true in Er.
    - unfold release. cbn [sem granted released calls].
      destruct (queue (sem st)); cbn [granted released];
        (split; [|apply elem_of_union; left; by apply elem_of_singleton]);
        try done; apply elem_of_app; by left. }
  destruct (run_keeps_released ops _ h Hg1 Hr1) as [Hg2 Hr2].
  unfold call_handle at 1.
  by rewrite !bool_decide_eq_true_2.
Qed.

Lemma release_idempotent_witness :
  exists s0,
    new (Js.Int 1) = Some s0
    /\ call_handle 0 (run [Acquire; Release 1] (call_handle 0 (run [Acquire; Acquire] (init s0))))
       = run [Acquire; Release 1] (call_handle 0 (run [Acquire; Acquire] (init s0))).
Proof.
  eexists. split; [reflexivity|].
  apply (release_idempotent _ 0%nat [Acquire; Release 1]).
  cbn. apply elem_of_cons. by left.
Defined.

Lemma run_acquire_snoc (k : nat) (st : System) :
  run (replicate (S k) Acquire) st = acquire (run (replicate k Acquire) st).
Proof.
  unfold run. rewrite replicate_S_end, fold_left_app. done.
Qed.

(** X11. From a fresh semaphore of capacity [c], [k] calls of [acquire]
    with no release in between grant the first [min k c] callers at once, in
    call order, and queue the others behind them, in call order. *)
Theorem acquire_up_to_capacity :
  forall (c : Z) (k : nat),
    1 <= c ->
    exists s0,
      new (Js.Int c) = Some s0
      /\ let st := run (replicate k Acquire) (init s0) in
         let g := Nat.min k (Z.to_nat c) in
         granted st = seq 0 g
         /\ queue (sem st) = seq g (k - g)
         /\ inUse (sem st) = Z.of_nat g
         /\ released st = ∅.
Proof.
  intros c k Hc. unfold new.
  destruct (c <=? 0) eqn:E; [apply Z.leb_le in E; lia|].
  eexists. split; [reflexivity|]. cbn zeta.
  induction k as [|k IH].
  - done.
  - rewrite run_acquire_snoc.
    destruct IH as (Hg & Hq & Hu & Hr).
    assert (Hcalls : forall j st, calls (run (replicate j Acquire) st)
                                  = (j + calls st)%nat).
    { intros j. induction j as [|j IHj]; intros st; [done|].
      rewrite run_acquire_snoc. unfold acquire.
      destruct (_ <? _); cbn [calls]; rewrite IHj; lia. }
    assert (Hmax : forall j st, max (sem (run (replicate j Acquire) st))
                                = max (sem st)).
    { intros j. induction j as [|j IHj]; intros st; [done|].
      rewrite run_acquire_snoc. unfold acquire.
      destruct (_ <? _); cbn [sem max]; by rewrite IHj. }
    unfold acquire. rewrite Hu, Hmax, Hcalls, Hg, Hq, Hr. cbn [init sem max calls].
    destruct (Z.of_nat (Nat.min k (Z.to_nat c)) <? c) eqn:Elt.
    + apply Z.ltb_lt in Elt.
      assert (Nat.min k (Z.to_nat c) = k) as Hk by lia.
      assert (Nat.min (S k) (Z.to_nat c) = S k) as HSk by lia.
      rewrite HSk, Hk. cbn [sem granted queue inUse released].
      rewrite Nat.sub_diag, Nat.add_0_r.
      replace (S k - S k)%nat with 0%nat by lia.
      rewrite seq_S. repeat split; try done. lia.
    + apply Z.ltb_ge in Elt.
      assert (Nat.min k (Z.to_nat c) = Z.to_nat c) as Hk by lia.
      assert (Nat.min (S k) (Z.to_nat c) = Z.to_nat c) as HSk by lia.
      rewrite HSk, Hk. cbn [sem granted queue inUse released].
      repeat split; try done.
      replace (S k - Z.to_nat c)%nat with (S (k - Z.to_nat c)) by lia.
      rewrite seq_S. do 2 f_equal. lia.
Qed.

Lemma acquire_up_to_capacity_witness :
  exists s0,
    new (Js.Int 2) = Some s0
    /\ let st := run (replicate 5 Acquire) (init s0) in
       let g := Nat.min 5 (Z.to_nat 2) in
       granted st = seq 0 g
       /\ queue (sem st) = seq g (5 - g)
       /\ inUse (sem st) = Z.of_nat g
       /\ released st = ∅.
Proof. apply (acquire_up_to_capacity 2 5). lia. Defined.

End HandleFacts.

Section WaiterFacts.

Import Semaphore Releases.

Lemma handle_grants_head (st : System) (h next : nat) (rest : list nat) :
  h ∈ unreleased st ->
  queue (sem st) = next :: rest ->
  granted (call_handle h st) = granted st ++ [next]
  /\ queue (sem (call_handle h st)) = rest.
Proof.
  intros Hh Hq. unfold unreleased in Hh.
  apply list_elem_of_filter in Hh as [Hnr Hg].
  unfold call_handle.
  rewrite bool_decide_eq_true_2, bool_decide_eq_false_2 by done.
  unfold release. cbn [sem granted]. by rewrite Hq.
Qed.

Lemma held_releases_serve (pre : list nat) :
  forall (st : System) (k : nat) (post : list nat) (hs : list nat),
    queue (sem st) = pre ++ k :: post ->
    held hs st ->
    length hs = S (length pre) ->
    granted (run (Release <$> hs) st) = granted st ++ pre ++ [k]
    /\ queue (sem (run (Release <$> hs) st)) = post.
Proof.
  induction pre as [|w pre IH]; intros st k post hs Hq Hheld Hlen.
  - destruct hs as [|h [|? ?]]; try discriminate.
    destruct Hheld as [Hh _].
    change (run (Release <$> [h]) st) with (call_handle h st).
    by apply handle_grants_head.
  - destruct hs as [|h hs]; [discriminate|].
    destruct Hheld as [Hh Hheld].
    destruct (handle_grants_head st h w (pre ++ k :: post) Hh Hq) as [Hg1 Hq1].
    change (run (Release <$> h :: hs) st)
      with (run (Release <$> hs) (call_handle h st)).
    destruct (IH (call_handle h st) k post hs Hq1 Hheld) as [Hg2 Hq2];
      [cbn in Hlen; lia|].
    split; [|done]. rewrite Hg2, Hg1, <- app_assoc. done.
Qed.

Lemma enough_holders (pre : list nat) :
  forall (st : System) (k : nat) (post : list nat),
    Inv st -> 0 < max (sem st) ->
    queue (sem st) = pre ++ k :: post ->
    exists hs, held hs st /\ length hs = S (length pre).
Proof.
  induction pre as [|w pre IH]; intros st k post Hinv Hmax Hq.
  - assert (inUse (sem st) = max (sem st)) as Hfull
      by (apply (inv_full st Hinv); by rewrite Hq).
    pose proof (inv_count st Hinv) as Hc.
    destruct (unreleased st) as [|h us] eqn:Eu; [cbn in Hc; lia|].
    exists [h]. split; [|done]. cbn [held]. split; [|done].
    rewrite Eu. apply elem_of_cons. by left.
  - assert (inUse (sem st) = max (sem st)) as Hfull
      by (apply (inv_full st Hinv); by rewrite Hq).
    pose proof (inv_count st Hinv) as Hc.
    destruct (unreleased st) as [|h us] eqn:Eu; [cbn in Hc; lia|].
    assert (Hh : h ∈ unreleased st) by (rewrite Eu; apply elem_of_cons; by left).
    destruct (handle_grants_head st h w (pre ++ k :: post) Hh Hq) as [_ Hq1].
    destruct (IH (call_handle h st) k post) as (hs & Hheld & Hlen).
    + by apply call_handle_inv.
    + change (call_handle h st) with (step st (Release h)).
      by rewrite step_max.
    + done.
    + exists (h :: hs). split; [by split|]. cbn. by rewrite Hlen.
Qed.

(** X12. No waiter starves.  For a caller queued behind [p] others, [p + 1]
    handle calls by callers that hold a slot, whichever they are, get it its
    slot, and the callers queued behind it are then at the head of the
    queue; and as long as somebody is queued there are callers holding a
    slot to make these calls. *)
Theorem waiter_served_after_releases :
  forall (st : System) (pre : list nat) (k : nat) (post : list nat),
    Inv st -> 0 < max (sem st) ->
    queue (sem st) = pre ++ k :: post ->
    (exists hs, held hs st /\ length hs = S (length pre))
    /\ (forall hs,
           held hs st -> length hs = S (length pre) ->
           k ∈ granted (run (Release <$> hs) st)
           /\ granted (run (Release <$> hs) st) = granted st ++ pre ++ [k]
           /\ queue (sem (run (Release <$> hs) st)) = post).
Proof.
  intros st pre k post Hinv Hmax Hq. split; [by eapply enough_holders|].
  intros hs Hheld Hlen.
  destruct (held_releases_serve pre st k post hs Hq Hheld Hlen) as [Hg Hqq].
  split; [|done]. rewrite Hg. rewrite !elem_of_app. right. right.
  apply elem_of_cons. by left.
Qed.

Lemma waiter_served_after_releases_witness :
  let st := run [Acquire; Acquire; Acquire; Acquire]
              {| sem := {| max := 1; inUse := 0; queue := [] |};
                 granted := []; released := ∅; calls := 0 |} in
  (exists hs, held hs st /\ length hs = 2%nat)
  /\ (forall hs,
         held hs st -> length hs = 2%nat ->
         2%nat ∈ granted (run (Release <$> hs) st)
         /\ granted (run (Release <$> hs) st) = granted st ++ [1%nat] ++ [2%nat]
         /\ queue (sem (run (Release <$> hs) st)) = [3%nat]).
Proof.
  apply (waiter_served_after_releases
           (run [Acquire; Acquire; Acquire; Acquire]
              {| sem := {| max := 1; inUse := 0; queue := [] |};
                 granted := []; released := ∅; calls := 0 |})
           [1%nat] 2%nat [3%nat]).
  - apply (run_inv [Acquire; Acquire; Acquire; Acquire]).
    constructor; cbn; try done; lia.
  - vm_compute. reflexivity.
  - reflexivity.
Defined.

End WaiterFacts.

(** ** The rate limiter: balance, burst and waiting time *)

Section BucketFacts.

Import RpsLimiter Burst.
Local Open Scope Q_scope.

Lemma rps_positive_enabled (l : RpsLimiter) :
  0 < rps l -> Qle_bool (rps l) 0 = false /\ Qeq_bool (rps l) 0 = false.
Proof.
  intros H. split.
  - destruct (Qle_bool (rps l) 0) eqn:E; [|done].
    apply Qle_bool_iff in E. exfalso. apply (Qlt_irrefl 0).
    by eapply Qlt_le_trans.
  - destruct (Qeq_bool (rps l) 0) eqn:E; [|done].
    apply Qeq_bool_iff in E. rewrite E in H. discriminate.
Qed.

Lemma sleep_at_least_1 (now : Z) (count : Q) (l l' : RpsLimiter) (ms : Z) :
  0 < rps l -> pass now count l = Sleep l' ms ->
  l' = refill now l /\ (1 <= ms <= 250)%Z /\ tokens l' < count.
Proof.
  intros Hrps. unfold pass.
  destruct (Qle_bool count (tokens (refill now l))) eqn:E; [discriminate|].
  intros [= <- <-].
  assert (tokens (refill now l) < count) as Hlt.
  { apply Qnot_le_lt. intros Hle. apply Qle_bool_iff in Hle. congruence. }
  split; [done|]. split; [|done].
  assert (1 <= Qceiling ((count - tokens (refill now l)) / rps (refill now l) * 1000))%Z.
  { apply Qceiling_pos. apply Qmult_lt_0_compat; [|reflexivity].
    rewrite refill_rps. apply Qlt_shift_div_l; [done|]. lra. }
  lia.
Qed.

Lemma wait_balance (count : Q) (lag : nat -> N) (fuel : nat) :
  forall (i : nat) (now now' : Z) (l l' : RpsLimiter),
    0 < rps l ->
    wait fuel lag i now count l = Some (l', now') ->
    rps l' = rps l /\ burst l' = burst l /\ 0 <= tokens l' /\ (now <= now')%Z
    /\ (0 <= count -> tokens l <= burst l -> tokens l' <= burst l').
Proof.
  induction fuel as [|fuel IH]; intros i now now' l l' Hrps; [done|].
  cbn [wait]. destruct (pass now count l) as [l1|l1 ms] eqn:Hp.
  - intros [= <- <-]. unfold pass in Hp.
    destruct (Qle_bool count (tokens (refill now l))) eqn:E; [|discriminate].
    injection Hp as <-. cbn [rps burst tokens].
    apply Qle_bool_iff in E. rewrite refill_rps, refill_burst.
    split; [done|]. split; [done|].
    set (t := tokens (refill now l)) in *.
    split; [lra|]. split; [lia|]. intros Hc Hcap.
    pose proof (refill_capped now l Hcap) as Hr. fold t in Hr. lra.
  - destruct (sleep_at_least_1 now count l l1 ms Hrps Hp) as (-> & Hms & _).
    intros Hw. apply IH in Hw; [|by rewrite refill_rps].
    destruct Hw as (Hr & Hb & H0 & Hclock & Hcap').
    rewrite refill_rps in Hr. rewrite refill_burst in Hb.
    split; [done|]. split; [done|]. split; [done|]. split; [lia|].
    intros Hc Hcap. apply Hcap'; [done|].
    rewrite refill_burst. by apply refill_capped.
Qed.

(** X13. What [take] does to the limiter.  With [rps <= 0] it returns at
    once and leaves the limiter alone, whatever the count.  With [rps > 0],
    whenever it returns, the rate and the capacity are unchanged, the
    balance is not negative (a call never takes tokens that are not there),
    the clock has not gone back, and for a non-negative count a balance
    within the capacity stays within it. *)
Theorem take_effect :
  forall (l : RpsLimiter) (count : Q) (lag : nat -> N) (now : Z) (fuel : nat),
    (rps l <= 0 -> take fuel lag now count l = Some (l, now))
    /\ (0 < rps l ->
        forall l' now',
          take fuel lag now count l = Some (l', now') ->
          rps l' = rps l /\ burst l' = burst l /\ 0 <= tokens l'
          /\ (now <= now')%Z
          /\ (0 <= count -> tokens l <= burst l -> tokens l' <= burst l')).
Proof.
  intros l count lag now fuel. split.
  - intros H. unfold take. apply Qle_bool_iff in H. rewrite H.
    by rewrite orb_true_r.
  - intros H l' now'. unfold take.
    destruct (rps_positive_enabled l H) as [-> ->]. cbn [orb].
    by apply wait_balance.
Qed.

Lemma take_effect_witness :
  exists l' now',
    take 3 on_time test_now 1 drained = Some (l', now')
    /\ 0 <= tokens l' /\ (test_now <= now')%Z.
Proof.
  destruct (take 3 on_time test_now 1 drained) as [[l' now']|] eqn:E;
    [|vm_compute in E; discriminate].
  exists l', now'. split; [reflexivity|].
  destruct (proj2 (take_effect drained 1 on_time test_now 3) eq_refl l' now' E)
    as (_ & _ & H0 & Hc & _).
  split; [exact H0 | exact Hc].
Defined.

Lemma refill_idle (now : Z) (l : RpsLimiter) :
  (now <= lastRefill l)%Z -> refill now l = l.
Proof.
  intros H. unfold refill. destruct (Qle_bool (rps l) 0); [done|].
  destruct (now - lastRefill l <=? 0)%Z eqn:E; [done|].
  apply Z.leb_gt in E. lia.
Qed.

Lemma refill_full (now : Z) (l : RpsLimiter) :
  0 < rps l -> tokens l == burst l ->
  tokens (refill now l) == burst l /\ (now <= lastRefill (refill now l))%Z.
Proof.
  intros Hrps Hfull. unfold refill.
  destruct (rps_positive_enabled l Hrps) as [-> _].
  destruct (now - lastRefill l <=? 0)%Z eqn:E.
  - apply Z.leb_le in E. split; [done|lia].
  - apply Z.leb_gt in E. cbn [tokens lastRefill]. split; [|lia].
    apply Q.min_l.
    assert (0 <= inject_Z (now - lastRefill l) / 1000 * rps l) as Hadd.
    { apply Qmult_le_0_compat; [|by apply Qlt_le_weak].
      apply Qle_shift_div_l; [reflexivity|]. rewrite Qmult_0_l.
      rewrite <- (Zle_Qle 0). lia. }
    set (add := inject_Z (now - lastRefill l) / 1000 * rps l) in *.
    rewrite Hfull. lra.
Qed.

Lemma takes_now_idle (now : Z) (k : nat) :
  forall (m : nat) (l : RpsLimiter),
    (now <= lastRefill l)%Z ->
    tokens l == inject_Z (Z.of_nat m) ->
    ((k <= m)%nat ->
     exists l', takes_now k now l = Some l'
                /\ tokens l' == inject_Z (Z.of_nat (m - k)))
    /\ ((m < k)%nat -> takes_now k now l = None).
Proof.
  induction k as [|k IH]; intros m l Hidle Htok.
  - split; [|lia]. intros _. exists l. split; [done|].
    by rewrite Nat.sub_0_r.
  - cbn [takes_now]. unfold pass. rewrite (refill_idle now l Hidle).
    destruct m as [|m].
    + assert (Qle_bool 1 (tokens l) = false) as ->.
      { destruct (Qle_bool 1 (tokens l)) eqn:E; [|done].
        apply Qle_bool_iff in E. rewrite Htok in E.
        change (inject_Z (Z.of_nat 0)) with 0 in E. lra. }
      split; [lia|done].
    + assert (Qle_bool 1 (tokens l) = true) as ->.
      { apply Qle_bool_iff. rewrite Htok. rewrite <- (Zle_Qle 1). lia. }
      destruct (IH m {| rps := rps l; burst := burst l;
                        tokens := tokens l - 1; lastRefill := lastRefill l |})
        as [Hyes Hno].
      * done.
      * cbn [tokens]. rewrite Htok, Nat2Z.inj_succ. unfold Z.succ.
        rewrite inject_Z_plus. change (inject_Z 1) with 1. ring.
      * split; [intros Hk; apply Hyes; lia | intros Hk; apply Hno; lia].
Qed.

Lemma pass_refilled (now : Z) (count : Q) (l : RpsLimiter) :
  pass now count (refill now l) = pass now count l.
Proof.
  assert (refill now (refill now l) = refill now l) as Hidem.
  { destruct (Qle_bool (rps l) 0) eqn:E0.
    - assert (refill now l = l) as -> by (unfold refill; by rewrite E0).
      unfold refill. by rewrite E0.
    - destruct (now - lastRefill l <=? 0)%Z eqn:E1.
      + assert (refill now l = l) as -> by (unfold refill; by rewrite E0, E1).
        unfold refill. by rewrite E0, E1.
      + apply refill_idle. unfold refill. rewrite E0, E1.
        cbn [lastRefill]. lia. }
  unfold pass. by rewrite Hidem.
Qed.

(** X14. A full bucket of [b] tokens (as the bucket is at construction)
    serves exactly [b] calls of [take(1)] made at the same moment without
    setting a timer; the call after them has to wait. *)
Theorem burst_immediate_takes :
  forall (l : RpsLimiter) (b : nat) (now : Z),
    0 < rps l ->
    tokens l == burst l ->
    burst l == inject_Z (Z.of_nat b) ->
    (forall k : nat, (k <= b)%nat ->
        exists l', takes_now k now l = Some l'
                   /\ tokens l' == inject_Z (Z.of_nat (b - k)))
    /\ (forall k : nat, (b < k)%nat -> takes_now k now l = None).
Proof.
  intros l b now Hrps Hfull Hb.
  destruct (refill_full now l Hrps Hfull) as [Hr Hidle].
  assert (Hsame : forall k, takes_now (S k) now l
                            = takes_now (S k) now (refill now l)).
  { intros k. cbn [takes_now]. by rewrite pass_refilled. }
  assert (Htok : tokens (refill now l) == inject_Z (Z.of_nat b))
    by (by rewrite Hr).
  split.
  - intros [|k] Hk.
    + exists l. split; [done|]. by rewrite Nat.sub_0_r, Hfull.
    + rewrite Hsame.
      by apply (takes_now_idle now (S k) b (refill now l) Hidle).
  - intros [|k] Hk; [lia|]. rewrite Hsame.
    by apply (takes_now_idle now (S k) b (refill now l) Hidle).
Qed.

Lemma burst_immediate_takes_witness :
  (forall k : nat, (k <= 3)%nat ->
      exists l', takes_now k test_now (RpsLimiter.new 2 (Some 3) test_now) = Some l'
                 /\ tokens l' == inject_Z (Z.of_nat (3 - k)))
  /\ (forall k : nat, (3 < k)%nat ->
         takes_now k test_now (RpsLimiter.new 2 (Some 3) test_now) = None).
Proof.
  apply (burst_immediate_takes (RpsLimiter.new 2 (Some 3) test_now) 3 test_now);
    reflexivity.
Defined.

End BucketFacts.

(** ** The client's entry point *)

Section ClientFacts.

Import Utils Semaphore Client.

Lemma filter_fresh (l : list nat) (R : gset nat) (me : nat) :
  me ∉ l ->
  filter (fun x => x ∉ {[me]} ∪ R) (l ++ [me]) = filter (fun x => x ∉ R) l.
Proof.
  intros Hme. rewrite filter_app, filter_absent by done.
  rewrite filter_cons, decide_False; [by rewrite app_nil_r|].
  intros Hn. apply Hn. apply elem_of_union. left. by apply elem_of_singleton.
Qed.

(** X16. A call through the client gives its slot back.  Whenever [send]
    settles, with a value or with an error, the semaphore has as many slots
    in use as before the call, the same callers hold them, and nobody has
    been queued. *)
Theorem client_send_releases_slot :
  forall (V : Type) (fuel : nat) (lag : nat -> N) (now : Z) (method : string)
         (base : Settles V) (rnd : Q) (c c' : Client) (st st' : Stats.Stats)
         (o : Outcome V) (ended : Z),
    Inv (inFlightLimiter c) ->
    send fuel lag now method base rnd c st = Some (o, c', st', ended) ->
    inUse (sem (inFlightLimiter c')) = inUse (sem (inFlightLimiter c))
    /\ unreleased (inFlightLimiter c') = unreleased (inFlightLimiter c)
    /\ queue (sem (inFlightLimiter c')) = queue (sem (inFlightLimiter c))
    /\ max (sem (inFlightLimiter c')) = max (sem (inFlightLimiter c))
    /\ Inv (inFlightLimiter c').
Proof.
  intros V fuel lag now method base rnd c c' st st' o ended Hinv.
  unfold send.
  destruct (RpsLimiter.take fuel lag now 1 (rpsLimiter c)) as [[lim started]|];
    [|discriminate].
  set (sys := inFlightLimiter c) in *.
  destruct (bool_decide (calls sys ∈ granted (acquire sys))) eqn:Eg;
    [|discriminate].
  destruct (InstrumentedProvider._sendInstrumented _ _ _ _ _ _) as [[o1 st1] e1].
  intros [= _ <- _ _]. cbn [inFlightLimiter].
  apply bool_decide_eq_true in Eg.
  pose proof (acquire_inv sys Hinv) as Hinv1.
  pose proof (call_handle_inv (calls sys) _ Hinv1) as Hinv2.
  split; [|split; [|split; [|split]]]; try done.
  all: destruct Hinv as [Hr Hc Ho Hf Hrel].
  all: destruct (seq_split_facts _ _ _ Ho) as (Hnd & Hdis & Hlt & Hqlt).
  all: assert (Hme : calls sys ∉ granted sys)
         by (intros Hin; apply Hlt in Hin; lia).
  all: assert (Hmer : calls sys ∉ released sys)
         by (intros Hin; by apply Hme, Hrel).
  all: unfold acquire in *.
  all: destruct (inUse (sem sys) <? max (sem sys)) eqn:E;
         [|cbn [granted] in Eg; done].
  all: apply Z.ltb_lt in E.
  all: assert (Hq : queue (sem sys) = [])
         by (destruct (queue (sem sys)) eqn:Eq; [done|];
             assert (inUse (sem sys) = max (sem sys)) by (by apply Hf); lia).
  all: unfold call_handle; cbn [granted released sem calls].
  all: rewrite bool_decide_eq_true_2, bool_decide_eq_false_2 by done.
  all: unfold release; cbn [sem queue granted released calls inUse max].
  all: rewrite Hq; cbn [sem inUse queue max].
  - lia.
  - unfold unreleased. cbn [granted released]. by apply filter_fresh.
  - done.
  - done.
Qed.

Lemma client_send_releases_slot_witness :
  exists o c' st' ended,
    send 3 on_time test_now "eth_call" (After 5 (Resolved 7) : Settles Z) 0
      lone_client Stats.new
    = Some (o, c', st', ended)
    /\ inUse (sem (inFlightLimiter c')) = inUse (sem (inFlightLimiter lone_client)).
Proof.
  destruct (send 3 on_time test_now "eth_call" (After 5 (Resolved 7) : Settles Z) 0
              lone_client Stats.new) as [[[[o c'] st'] ended]|] eqn:E;
    [|vm_compute in E; discriminate].
  exists o, c', st', ended. split; [reflexivity|].
  apply (client_send_releases_slot Z 3 on_time test_now "eth_call"
           (After 5 (Resolved 7)) 0 lone_client c' Stats.new st' o ended);
    [|exact E].
  exact (proj1 (init_inv _ 1 eq_refl)).
Defined.

(** X17. A client whose bucket holds less than one token never completes a
    call: with a positive [rps] and a capacity ([rpsBurst], or [rps] when
    that is left out or zero) below 1, [send] on the freshly built client is
    still waiting for its token however long it is run.  This is the case of
    [rps: 0.5] with no [rpsBurst]. *)
Theorem client_hangs_below_one_token :
  forall (V : Type) (p : InstrumentedProvider.ProviderParams) (c : Client)
         (built : Z) (fuel : nat) (lag : nat -> N) (now : Z) (method : string)
         (base : Settles V) (rnd : Q) (st : Stats.Stats),
    (0 < default 10 (InstrumentedProvider.rps p))%Q ->
    (Js.or_q (InstrumentedProvider.rpsBurst p)
       (default 10 (InstrumentedProvider.rps p)) < 1)%Q ->
    Client.new p built = Some c ->
    send fuel lag now method base rnd c st = None.
Proof.
  intros V p c built fuel lag now method base rnd st Hrps Hburst Hnew.
  unfold Client.new in Hnew.
  destruct (InstrumentedProvider.inFlightLimiter p); [|discriminate].
  injection Hnew as <-. unfold send. cbn [rpsLimiter].
  assert (RpsLimiter.take fuel lag now 1 (InstrumentedProvider.rpsLimiter p built)
          = None) as ->; [|done].
  unfold RpsLimiter.take.
  destruct (rps_positive_enabled (InstrumentedProvider.rpsLimiter p built))
    as [-> ->]; [done|]. cbn [orb].
  apply wait_never; [apply Qle_refl | done].
Qed.

Lemma client_hangs_below_one_token_witness :
  send 1000 on_time test_now "eth_call" (After 5 (Resolved 7) : Settles Z) 0
    slow_fresh Stats.new = None.
Proof.
  apply (client_hangs_below_one_token Z slow_client slow_fresh test_now 1000
           on_time test_now "eth_call" (After 5 (Resolved 7)) 0 Stats.new);
    reflexivity.
Defined.

End ClientFacts.

(** ** Runs of the pool's loop *)

Section PoolRuns.

Import Utils RpcPoolProvider PoolTrace.

Context {V : Type}.
Variable provider_send : Router.Endpoint -> string -> World -> Outcome V * World.
Variable random : nat -> Q.
Variable lag : nat -> N.
Variable method : string.
Variable maxUniqueTries : Z.

Lemma sent_app (a b : list Event) : sent (a ++ b) = sent a ++ sent b.
Proof.
  induction a as [|[ep|ep|ms] a IH]; cbn [sent app]; by rewrite ?IH.
Qed.

Lemma backoffs_app (a b : list Event) : backoffs (a ++ b) = backoffs a ++ backoffs b.
Proof.
  induction a as [|[ep|ep|ms] a IH]; cbn [backoffs app]; by rewrite ?IH.
Qed.

Lemma running_size (s : Loop) :
  Running maxUniqueTries s -> size (tried s) = length (sent (trace s)).
Proof.
  intros [Hnd Ht _ _]. rewrite Ht. by apply size_list_to_set.
Qed.

Lemma running_init (w : World) :
  Running maxUniqueTries {| tried := ∅; world := w; draws := 0; trace := [] |}.
Proof. constructor; cbn; [constructor | done | lia | lia]. Qed.

Lemma iteration_running (s : Loop) :
  Running maxUniqueTries s ->
  Z.of_nat (size (tried s)) < maxUniqueTries ->
  match iteration provider_send random lag method maxUniqueTries s with
  | Continue s' =>
      Running maxUniqueTries s' /\ Z.of_nat (size (tried s')) < maxUniqueTries
  | Return _ s' => Running maxUniqueTries s'
  end.
Proof.
  intros Hrun Hguard. pose proof (running_size s Hrun) as Hsize.
  destruct Hrun as [Hnd Ht Hb Htm].
  unfold iteration.
  destruct (Router.pick _ _ _) as [[[ep|]|] r'].
  - destruct (bool_decide (Router.providerId ep ∈ tried s)) eqn:Edup.
    + split; [|done]. constructor; cbn [trace tried];
        rewrite ?sent_app, ?backoffs_app; cbn [sent backoffs];
        rewrite ?app_nil_r; done.
    + apply bool_decide_eq_false in Edup.
      assert (Hfresh : Router.providerId ep ∉ sent (trace s)).
      { intros Hin. apply Edup. rewrite Ht. by apply elem_of_list_to_set. }
      assert (Hrun' : forall w d tr,
                 sent tr = sent (trace s) ++ [Router.providerId ep] ->
                 (length (backoffs tr) <= S (length (sent (trace s))))%nat ->
                 Running maxUniqueTries
                   {| tried := {[Router.providerId ep]} ∪ tried s;
                            world := w; draws := d; trace := tr |}).
      { intros w d tr Hs Hl. constructor; cbn [trace tried]; rewrite ?Hs.
        - apply NoDup_app. split; [done|]. split; [|apply NoDup_singleton].
          intros x Hx Hx'. apply list_elem_of_singleton in Hx'. by subst.
        - rewrite list_to_set_app_L, Ht. cbn [list_to_set].
          rewrite (right_id_L ∅ (∪)). apply (comm_L (∪)).
        - rewrite length_app. cbn [length]. lia.
        - rewrite length_app. cbn [length]. lia. }
      destruct (provider_send ep method _) as [[v|e] w'].
      * apply Hrun'.
        -- rewrite sent_app. cbn [sent]. done.
        -- rewrite backoffs_app. cbn [backoffs]. rewrite app_nil_r. lia.
      * destruct (negb (shouldFailover e)).
        { apply Hrun'.
          - rewrite sent_app. cbn [sent]. done.
          - rewrite backoffs_app. cbn [backoffs]. rewrite app_nil_r. lia. }
        destruct (maxUniqueTries <=? _) eqn:Eb.
        { apply Hrun'.
          - rewrite sent_app. cbn [sent]. done.
          - rewrite backoffs_app. cbn [backoffs]. rewrite app_nil_r. lia. }
        apply Z.leb_gt in Eb. split; [|done].
        apply Hrun'.
        -- rewrite !sent_app. cbn [sent]. by rewrite app_nil_r.
        -- rewrite !backoffs_app. cbn [backoffs].
           rewrite app_nil_r, length_app. cbn [length]. lia.
  - by constructor.
  - by constructor.
Qed.

(** A call that has settled is in the state its passes have led to. *)
Lemma loop_after_passes (fuel : nat) :
  forall (s s' : Loop) (o : Outcome V),
    loop provider_send random lag method maxUniqueTries fuel s = Some (o, s') ->
    after_passes provider_send random lag method maxUniqueTries fuel s = s'.
Proof.
  induction fuel as [|fuel IH]; intros s s' o; [done|].
  cbn [loop after_passes].
  destruct (Z.of_nat (size (tried s)) <? maxUniqueTries).
  - destruct (iteration _ _ _ _ _ s) as [s1|o1 s1].
    + apply IH.
    + by intros [= _ <-].
  - by intros [= _ <-].
Qed.

Lemma after_passes_running (k : nat) :
  forall s : Loop,
    Running maxUniqueTries s ->
    Running maxUniqueTries
      (after_passes provider_send random lag method maxUniqueTries k s).
Proof.
  induction k as [|k IH]; intros s Hrun; [done|].
  cbn [after_passes].
  destruct (Z.of_nat (size (tried s)) <? maxUniqueTries) eqn:E; [|done].
  apply Z.ltb_lt in E.
  pose proof (iteration_running s Hrun E) as Hit.
  destruct (iteration _ _ _ _ _ s) as [s1|o1 s1]; [|done].
  destruct Hit as [Hr1 _]. by apply IH.
Qed.

End PoolRuns.

(** X18. All along a call of [send], and so however and whenever it ends,
    it has called the client of no endpoint twice, it has called at most
    [min(attempts, n)] clients, the endpoints it has marked as tried are
    exactly those whose client it called, and it has set no more timers than
    it made client calls.  This holds after any number of passes through the
    loop, the passes that only spin on an endpoint already tried included,
    and a call that has settled is in the state its passes have led to. *)
Theorem send_attempt_bound :
  forall (V : Type)
         (provider_send : Router.Endpoint -> string -> RpcPoolProvider.World
                          -> Utils.Outcome V * RpcPoolProvider.World)
         (random : nat -> Q) (lag : nat -> N) (attempts : Z) (method : string)
         (w : RpcPoolProvider.World),
    let maxUniqueTries := Z.min attempts (Router.size (RpcPoolProvider.w_router w)) in
    let start := {| RpcPoolProvider.tried := ∅; RpcPoolProvider.world := w;
                    RpcPoolProvider.draws := 0; RpcPoolProvider.trace := [] |} in
    (forall k : nat,
        let s := RpcPoolProvider.after_passes provider_send random lag method
                   maxUniqueTries k start in
        NoDup (PoolTrace.sent (RpcPoolProvider.trace s))
        /\ Z.of_nat (length (PoolTrace.sent (RpcPoolProvider.trace s)))
           <= Z.max 0 maxUniqueTries
        /\ RpcPoolProvider.tried s
           = list_to_set (PoolTrace.sent (RpcPoolProvider.trace s))
        /\ (length (PoolTrace.backoffs (RpcPoolProvider.trace s))
            <= length (PoolTrace.sent (RpcPoolProvider.trace s)))%nat)
    /\ (forall (fuel : nat) (o : Utils.Outcome V) (s' : RpcPoolProvider.Loop),
           RpcPoolProvider.send provider_send random lag attempts fuel method w
           = Some (o, s') ->
           s' = RpcPoolProvider.after_passes provider_send random lag method
                  maxUniqueTries fuel start).
Proof.
  intros V provider_send random lag attempts method w maxUniqueTries start.
  split.
  - intros k s.
    by destruct (after_passes_running provider_send random lag method
                   maxUniqueTries k start (running_init maxUniqueTries w)).
  - intros fuel o s' Hs. unfold RpcPoolProvider.send in Hs.
    symmetry. by eapply loop_after_passes.
Qed.

Lemma send_attempt_bound_witness :
  exists o s',
    RpcPoolProvider.send (stub_send tooMany) (fun _ => 0%Q) steady 2 6
      "eth_blockNumber" busy_world
    = Some (o, s')
    /\ PoolTrace.sent (RpcPoolProvider.trace s')
       = ["rpc#1-chainId:1-http://rpc1.invalid";
          "rpc#2-chainId:1-http://rpc2.invalid"]
    /\ length (RpcPoolProvider.trace s') = 8%nat
    /\ NoDup (PoolTrace.sent (RpcPoolProvider.trace s')).
Proof.
  destruct (RpcPoolProvider.send (stub_send tooMany) (fun _ => 0%Q) steady 2 6
              "eth_blockNumber" busy_world) as [[o s']|] eqn:E;
    [|vm_compute in E; discriminate].
  exists o, s'. split; [reflexivity|].
  destruct (send_attempt_bound Z (stub_send tooMany) (fun _ => 0%Q) steady 2
              "eth_blockNumber" busy_world) as [Hall Hend].
  pose proof (Hend 6%nat o s' E) as Hs'.
  pose proof (Hall 6%nat) as (Hnd & _). cbv zeta in Hnd. rewrite <- Hs' in Hnd.
  split; [|split; [|exact Hnd]].
  - vm_compute in E. injection E as _ <-. reflexivity.
  - vm_compute in E. injection E as _ <-. reflexivity.
Defined.

Section PoolTimers.

Import Utils RpcPoolProvider PoolTrace.

Context {V : Type}.
Variable provider_send : Router.Endpoint -> string -> World -> Outcome V * World.
Variable random : nat -> Q.
Variable lag : nat -> N.
Variable method : string.
Variable maxUniqueTries : Z.
Hypothesis random_unit : forall n, (0 <= random n /\ random n < 1)%Q.

Lemma jitter_range (r : Q) (k : nat) :
  (0 <= r /\ r < 1)%Q ->
  (0 <= r * baseDelay k /\ r * baseDelay k < baseDelay k)%Q.
Proof.
  intros [H0 H1]. pose proof (baseDelay_pos k) as Hpos. split.
  - apply Qmult_le_0_compat; [done | by apply Qlt_le_weak].
  - pose proof (Qmult_lt_compat_r _ _ (baseDelay k) Hpos H1) as Hlt.
    by rewrite Qmult_1_l in Hlt.
Qed.

Lemma iteration_paced (s : Loop) :
  Running maxUniqueTries s -> Paced s ->
  match iteration provider_send random lag method maxUniqueTries s with
  | Continue s' => Paced s'
  | Return _ s' => Laddered (trace s')
  end.
Proof.
  intros Hrun (Hlen & Hsize & Hlad).
  pose proof (iteration_running provider_send random lag method maxUniqueTries
                s Hrun) as Hnext.
  unfold iteration in *.
  destruct (Router.pick _ _ _) as [[[ep|]|] r']; [|done|done].
  destruct (bool_decide (Router.providerId ep ∈ tried s)) eqn:Edup.
  - split; [|split]; cbn [trace tried]; unfold Laddered;
      rewrite ?sent_app, ?backoffs_app; cbn [sent backoffs];
      rewrite ?app_nil_r; done.
  - assert (Hquiet : forall tr,
               backoffs tr = backoffs (trace s) -> Laddered tr).
    { intros tr Hb. unfold Laddered. by rewrite Hb. }
    destruct (provider_send ep method _) as [[v|e] w'].
    + apply Hquiet. cbn [trace]. rewrite backoffs_app. cbn [backoffs].
      by rewrite app_nil_r.
    + destruct (negb (shouldFailover e)).
      { apply Hquiet. cbn [trace]. rewrite backoffs_app. cbn [backoffs].
        by rewrite app_nil_r. }
      destruct (maxUniqueTries <=? _) eqn:Eb.
      { apply Hquiet. cbn [trace]. rewrite backoffs_app. cbn [backoffs].
        by rewrite app_nil_r. }
      assert (Hguard : Z.of_nat (size (tried s)) < maxUniqueTries).
      { apply Z.leb_gt in Eb.
        assert (size (tried s) <= size ({[Router.providerId ep]} ∪ tried s))%nat
          by (apply subseteq_size, union_subseteq_r).
        lia. }
      destruct (Hnext Hguard) as [Hrun' _].
      pose proof (running_size maxUniqueTries _ Hrun') as Hsz.
      unfold Paced. cbn [trace tried] in *.
      rewrite !sent_app in Hsz. cbn [sent] in Hsz.
      rewrite app_nil_r, length_app in Hsz. cbn [length] in Hsz.
      split; [|split].
      * rewrite !backoffs_app, !sent_app. cbn [backoffs sent].
        rewrite !app_nil_r, !length_app. cbn [length]. lia.
      * rewrite !sent_app. cbn [sent].
        rewrite app_nil_r, length_app. cbn [length]. done.
      * intros j d. rewrite !backoffs_app. cbn [backoffs]. rewrite app_nil_r.
        intros Hj. apply lookup_app_Some in Hj as [Hj|[Hge Hj]].
        -- by apply Hlad.
        -- apply list_lookup_singleton_Some in Hj as [Hj0 <-].
           assert (j = length (backoffs (trace s))) as -> by lia.
           rewrite Hsz. replace (length (sent (trace s)) + 1)%nat
             with (S (length (sent (trace s)))) by lia.
           rewrite Hlen. apply jitter_range, random_unit.
Qed.

Lemma after_passes_laddered (k : nat) :
  forall s : Loop,
    Running maxUniqueTries s -> Paced s ->
    Laddered
      (trace (after_passes provider_send random lag method maxUniqueTries k s)).
Proof.
  induction k as [|k IH]; intros s Hrun Hpaced;
    [by destruct Hpaced as (_ & _ & H)|].
  cbn [after_passes].
  destruct (Z.of_nat (size (tried s)) <? maxUniqueTries) eqn:E;
    [|by destruct Hpaced as (_ & _ & H)].
  apply Z.ltb_lt in E.
  pose proof (iteration_running provider_send random lag method
                maxUniqueTries s Hrun E) as Hit.
  pose proof (iteration_paced s Hrun Hpaced) as Hp.
  destruct (iteration _ _ _ _ _ s) as [s1|o1 s1]; [|done].
  destruct Hit as [Hr1 _]. by apply IH.
Qed.

End PoolTimers.

(** X19. The backoff ladder.  With [Math.random()] in [0, 1), the [j]-th
    timer (from 0) that a call of [send] has set, at whatever point of the
    call and so also when it has settled, is shorter than
    [min(1000 * 2^j, 5000)] ms: under 1 s after the first failure, under 2 s
    after the second, under 4 s after the third, and under 5 s from then
    on. *)
Theorem send_backoff_ladder :
  forall (V : Type)
         (provider_send : Router.Endpoint -> string -> RpcPoolProvider.World
                          -> Utils.Outcome V * RpcPoolProvider.World)
         (random : nat -> Q) (lag : nat -> N) (attempts : Z) (method : string)
         (w : RpcPoolProvider.World),
    (forall n, (0 <= random n /\ random n < 1)%Q) ->
    let maxUniqueTries := Z.min attempts (Router.size (RpcPoolProvider.w_router w)) in
    let start := {| RpcPoolProvider.tried := ∅; RpcPoolProvider.world := w;
                    RpcPoolProvider.draws := 0; RpcPoolProvider.trace := [] |} in
    (forall (k j : nat) (d : Q),
        PoolTrace.backoffs
          (RpcPoolProvider.trace
             (RpcPoolProvider.after_passes provider_send random lag method
                maxUniqueTries k start)) !! j = Some d ->
        (0 <= d /\ d < Qmin (1000 * 2 ^ Z.of_nat j) 5000 /\ d < 5000)%Q)
    /\ (forall (fuel : nat) (o : Utils.Outcome V) (s' : RpcPoolProvider.Loop)
               (j : nat) (d : Q),
           RpcPoolProvider.send provider_send random lag attempts fuel method w
           = Some (o, s') ->
           PoolTrace.backoffs (RpcPoolProvider.trace s') !! j = Some d ->
           (0 <= d /\ d < Qmin (1000 * 2 ^ Z.of_nat j) 5000 /\ d < 5000)%Q).
Proof.
  intros V provider_send random lag attempts method w Hrand maxUniqueTries start.
  assert (Hall : forall (k j : nat) (d : Q),
             PoolTrace.backoffs
               (RpcPoolProvider.trace
                  (RpcPoolProvider.after_passes provider_send random lag method
                     maxUniqueTries k start)) !! j = Some d ->
             (0 <= d /\ d < Qmin (1000 * 2 ^ Z.of_nat j) 5000 /\ d < 5000)%Q).
  { intros k j d Hj.
    assert (PoolTrace.Laddered
              (RpcPoolProvider.trace
                 (RpcPoolProvider.after_passes provider_send random lag method
                    maxUniqueTries k start))) as Hlad.
    { subst start. apply after_passes_laddered; [done|apply running_init|].
      split; [done|]. split; [cbn [RpcPoolProvider.tried]; by rewrite size_empty|].
      intros j' d' Hl.
      cbn [RpcPoolProvider.trace PoolTrace.backoffs] in Hl.
      by rewrite lookup_nil in Hl. }
    destruct (Hlad j d Hj) as [H0 H1]. unfold RpcPoolProvider.baseDelay in H1.
    replace (Z.of_nat (S j) - 1) with (Z.of_nat j) in H1 by lia.
    split; [done|]. split; [done|].
    eapply Qlt_le_trans; [exact H1 | apply Q.le_min_r]. }
  split; [exact Hall|].
  intros fuel o s' j d Hs Hj. unfold RpcPoolProvider.send in Hs.
  apply loop_after_passes in Hs. subst s'. by eapply Hall.
Qed.

Lemma send_backoff_ladder_witness :
  exists o s' d,
    RpcPoolProvider.send (stub_send tooMany) (fun _ => 0%Q) steady 2 6
      "eth_blockNumber" busy_world
    = Some (o, s')
    /\ PoolTrace.backoffs (RpcPoolProvider.trace s') !! 0%nat = Some d
    /\ (0 <= d /\ d < Qmin (1000 * 2 ^ Z.of_nat 0) 5000 /\ d < 5000)%Q.
Proof.
  destruct (RpcPoolProvider.send (stub_send tooMany) (fun _ => 0%Q) steady 2 6
              "eth_blockNumber" busy_world) as [[o s']|] eqn:E;
    [|vm_compute in E; discriminate].
  destruct (PoolTrace.backoffs (RpcPoolProvider.trace s') !! 0%nat) as [d|] eqn:Ed;
    [|vm_compute in E; injection E as _ <-; vm_compute in Ed; discriminate].
  exists o, s', d. split; [reflexivity|]. split; [exact Ed|].
  refine (proj2 (send_backoff_ladder Z (stub_send tooMany) (fun _ => 0%Q) steady 2
                   "eth_blockNumber" busy_world _) 6%nat o s' 0%nat d E Ed).
  intros n. split; [discriminate | reflexivity].
Defined.

Section PoolOutcome.

Import Utils RpcPoolProvider PoolTrace.

Context {V : Type}.
Variable provider_send : Router.Endpoint -> string -> World -> Outcome V * World.
Variable random : nat -> Q.
Variable lag : nat -> N.
Variable method : string.
Variable maxUniqueTries : Z.
(** A client call does not touch the router's endpoint list. *)
Hypothesis send_frame :
  forall ep m w,
    Router.endpoints (w_router (provider_send ep m w).2)
    = Router.endpoints (w_router w).

Lemma pick_some (r : Router.Router) (stats : Stats.Stats) (now : Z) :
  Router.endpoints r <> [] ->
  exists ep rr',
    ep ∈ Router.endpoints r
    /\ Router.pick r stats now
       = (Router.Returns (Some ep),
          {| Router.endpoints := Router.endpoints r; Router.rr := rr' |}).
Proof.
  intros Hne. unfold Router.pick, Router.size.
  destruct (scan_returns stats now (Router.endpoints r) Hne
              (length (Router.endpoints r)) (Router.rr r))
    as (ep & rr' & Hin & Hs).
  exists ep, rr'. by rewrite Hs.
Qed.

(** A pass that ends the call has just called a client, and the call ends
    with what that client call gave. *)
Lemma iteration_return (s s2 : Loop) (o : Outcome V) :
  Router.endpoints (w_router (world s)) <> [] ->
  iteration provider_send random lag method maxUniqueTries s = Return o s2 ->
  exists ep r1,
    Router.pick (w_router (world s)) (w_stats (world s)) (w_now (world s))
    = (Router.Returns (Some ep), r1)
    /\ ep ∈ Router.endpoints (w_router (world s))
    /\ (Router.providerId ep ∉ tried s)
    /\ provider_send ep method
         {| w_router := r1; w_stats := w_stats (world s);
            w_now := w_now (world s) |}
       = (o, world s2)
    /\ trace s2 = trace s ++ [EvPick ep; EvSend ep]
    /\ tried s2 = {[Router.providerId ep]} ∪ tried s
    /\ draws s2 = draws s.
Proof.
  intros Hne. unfold iteration.
  destruct (pick_some (w_router (world s)) (w_stats (world s)) (w_now (world s)) Hne)
    as (ep & rr' & Hin & ->).
  destruct (bool_decide (Router.providerId ep ∈ tried s)) eqn:Edup; [done|].
  apply bool_decide_eq_false in Edup.
  destruct (provider_send ep method _) as [out w'] eqn:Hsend.
  assert (Hhere : forall d,
             Return out {| tried := {[Router.providerId ep]} ∪ tried s;
                           world := w'; draws := d;
                           trace := trace s ++ [EvPick ep; EvSend ep] |}
             = Return o s2 -> d = draws s ->
             exists ep0 r1,
               (Router.Returns (Some ep),
                {| Router.endpoints := Router.endpoints (w_router (world s));
                   Router.rr := rr' |})
               = (Router.Returns (Some ep0), r1)
               /\ ep0 ∈ Router.endpoints (w_router (world s))
               /\ (Router.providerId ep0 ∉ tried s)
               /\ provider_send ep0 method
                    {| w_router := r1; w_stats := w_stats (world s);
                       w_now := w_now (world s) |}
                  = (o, world s2)
               /\ trace s2 = trace s ++ [EvPick ep0; EvSend ep0]
               /\ tried s2 = {[Router.providerId ep0]} ∪ tried s
               /\ draws s2 = draws s).
  { intros d [= <- <-] ->. eexists ep, _. split; [reflexivity|].
    by rewrite Hsend. }
  destruct out as [v|e].
  - intros H. by eapply Hhere.
  - destruct (negb (shouldFailover e)); [intros H; by eapply Hhere|].
    destruct (maxUniqueTries <=? _); [intros H; by eapply Hhere|done].
Qed.

(** A pass after which the loop goes on leaves the endpoint list alone and
    the budget unspent. *)
Lemma iteration_continue (s s2 : Loop) :
  Router.endpoints (w_router (world s)) <> [] ->
  Z.of_nat (size (tried s)) < maxUniqueTries ->
  iteration provider_send random lag method maxUniqueTries s = Continue s2 ->
  Router.endpoints (w_router (world s2)) = Router.endpoints (w_router (world s))
  /\ Z.of_nat (size (tried s2)) < maxUniqueTries.
Proof.
  intros Hne Hguard. unfold iteration.
  destruct (pick_some (w_router (world s)) (w_stats (world s)) (w_now (world s)) Hne)
    as (ep & rr' & Hin & ->).
  destruct (bool_decide (Router.providerId ep ∈ tried s)).
  - by intros [= <-].
  - set (w0 := {| w_router := _; w_stats := _; w_now := _ |}).
    pose proof (send_frame ep method w0) as Hfr.
    destruct (provider_send ep method w0) as [[v|e] w']; [done|].
    destruct (negb (shouldFailover e)); [done|].
    destruct (maxUniqueTries <=? _) eqn:Eb; [done|].
    apply Z.leb_gt in Eb. intros [= <-]. cbn [world w_router tried snd] in *.
    split; [by rewrite Hfr|done].
Qed.

Lemma loop_last_call (eps : list Router.Endpoint) (fuel : nat) :
  eps <> [] ->
  forall (s s' : Loop) (o : Outcome V),
    Router.endpoints (w_router (world s)) = eps ->
    Z.of_nat (size (tried s)) < maxUniqueTries ->
    loop provider_send random lag method maxUniqueTries fuel s = Some (o, s') ->
    exists (k : nat) (ep : Router.Endpoint) (r1 : Router.Router),
      let s1 := after_passes provider_send random lag method maxUniqueTries k s in
      (k < fuel)%nat
      /\ ep ∈ eps
      /\ Router.pick (w_router (world s1)) (w_stats (world s1)) (w_now (world s1))
         = (Router.Returns (Some ep), r1)
      /\ (Router.providerId ep ∉ tried s1)
      /\ provider_send ep method
           {| w_router := r1; w_stats := w_stats (world s1);
              w_now := w_now (world s1) |}
         = (o, world s')
      /\ trace s' = trace s1 ++ [EvPick ep; EvSend ep]
      /\ tried s' = {[Router.providerId ep]} ∪ tried s1
      /\ draws s' = draws s1.
Proof.
  intros Hne. induction fuel as [|fuel IH]; intros s s' o Heps Hguard; [done|].
  cbn [loop].
  assert ((Z.of_nat (size (tried s)) <? maxUniqueTries) = true) as Hg
    by (by apply Z.ltb_lt).
  rewrite Hg.
  destruct (iteration provider_send random lag method maxUniqueTries s)
    as [s2|o2 s2] eqn:Hit.
  - intros Hl.
    destruct (iteration_continue s s2) as [Heps2 Hguard2];
      [by rewrite Heps|done|done|].
    destruct (IH s2 s' o) as (k & ep & r1 & Hk & H); [congruence|done|done|].
    exists (S k), ep, r1. cbn [after_passes]. rewrite Hg, Hit.
    split; [lia|exact H].
  - intros [= <- <-].
    destruct (iteration_return s s2 o2) as (ep & r1 & Hp & Hin & H);
      [by rewrite Heps|done|].
    exists 0%nat, ep, r1. cbn [after_passes]. rewrite <- Heps.
    split; [lia|]. split; [done|]. split; [done|]. exact H.
Qed.

End PoolOutcome.

(** X20. With at least one endpoint and [attempts >= 1], whatever [send]
    settles with is what the last client it called settled with.  The call
    was in the state some number of passes had led to; the pass that
    followed picked an endpoint of the pool not tried before and called its
    client, in the world that pick had left; what this client call returned
    and did to the world is what [send] settles with and the world it
    leaves; nothing follows the client call in the trace, neither a timer
    nor a pick.  The caller thus never gets the error "No RPC available",
    which is thrown only when the budget is zero from the start. *)
Theorem send_result_is_last_call :
  forall (V : Type)
         (provider_send : Router.Endpoint -> string -> RpcPoolProvider.World
                          -> Utils.Outcome V * RpcPoolProvider.World)
         (random : nat -> Q) (lag : nat -> N) (attempts : Z) (fuel : nat)
         (method : string) (w : RpcPoolProvider.World) (o : Utils.Outcome V)
         (s' : RpcPoolProvider.Loop),
    (forall ep m w0,
        Router.endpoints (RpcPoolProvider.w_router (provider_send ep m w0).2)
        = Router.endpoints (RpcPoolProvider.w_router w0)) ->
    1 <= attempts ->
    Router.endpoints (RpcPoolProvider.w_router w) <> [] ->
    RpcPoolProvider.send provider_send random lag attempts fuel method w
    = Some (o, s') ->
    exists (k : nat) (ep : Router.Endpoint) (r1 : Router.Router),
      let s1 :=
        RpcPoolProvider.after_passes provider_send random lag method
          (Z.min attempts (Router.size (RpcPoolProvider.w_router w))) k
          {| RpcPoolProvider.tried := ∅; RpcPoolProvider.world := w;
             RpcPoolProvider.draws := 0; RpcPoolProvider.trace := [] |} in
      (k < fuel)%nat
      /\ ep ∈ Router.endpoints (RpcPoolProvider.w_router w)
      /\ Router.pick (RpcPoolProvider.w_router (RpcPoolProvider.world s1))
           (RpcPoolProvider.w_stats (RpcPoolProvider.world s1))
           (RpcPoolProvider.w_now (RpcPoolProvider.world s1))
         = (Router.Returns (Some ep), r1)
      /\ (Router.providerId ep ∉ RpcPoolProvider.tried s1)
      /\ provider_send ep method
           {| RpcPoolProvider.w_router := r1;
              RpcPoolProvider.w_stats :=
                RpcPoolProvider.w_stats (RpcPoolProvider.world s1);
              RpcPoolProvider.w_now :=
                RpcPoolProvider.w_now (RpcPoolProvider.world s1) |}
         = (o, RpcPoolProvider.world s')
      /\ RpcPoolProvider.trace s'
         = RpcPoolProvider.trace s1
           ++ [RpcPoolProvider.EvPick ep; RpcPoolProvider.EvSend ep]
      /\ RpcPoolProvider.tried s'
         = {[Router.providerId ep]} ∪ RpcPoolProvider.tried s1
      /\ RpcPoolProvider.draws s' = RpcPoolProvider.draws s1.
Proof.
  intros V provider_send random lag attempts fuel method w o s' Hframe Hatt Hne Hs.
  unfold RpcPoolProvider.send in Hs.
  eapply loop_last_call in Hs; try done.
  cbn [RpcPoolProvider.tried]. rewrite size_empty.
  unfold Router.size. destruct (Router.endpoints _); [done|cbn; lia].
Qed.

Lemma send_result_is_last_call_witness :
  exists (o : Utils.Outcome Z) (s' : RpcPoolProvider.Loop) (ep : Router.Endpoint),
    RpcPoolProvider.send (stub_send tooMany) (fun _ => 0%Q) steady 2 6
      "eth_blockNumber" busy_world
    = Some (o, s')
    /\ ep ∈ Router.endpoints (RpcPoolProvider.w_router busy_world)
    /\ exists tr, RpcPoolProvider.trace s'
                  = tr ++ [RpcPoolProvider.EvPick ep; RpcPoolProvider.EvSend ep].
Proof.
  destruct (RpcPoolProvider.send (stub_send tooMany) (fun _ => 0%Q) steady 2 6
              "eth_blockNumber" busy_world) as [[o s']|] eqn:E;
    [|vm_compute in E; discriminate].
  destruct (send_result_is_last_call Z (stub_send tooMany) (fun _ => 0%Q) steady
              2 6 "eth_blockNumber" busy_world o s')
    as (k & ep & r1 & _ & Hin & _ & _ & _ & Htr & _).
  - intros ep m w0. unfold stub_send. by destruct (String.eqb _ _).
  - lia.
  - discriminate.
  - exact E.
  - exists o, s', ep. split; [reflexivity|]. split; [exact Hin|].
    eexists. exact Htr.
Defined.

Section PoolFailover.

Import Utils RpcPoolProvider.

Context {V : Type}.
Variable provider_send : Router.Endpoint -> string -> World -> Outcome V * World.
Variable random : nat -> Q.
Variable lag : nat -> N.
Variable method : string.

(** X21. Failover.  When the attempt on an endpoint fails with a rate-limit
    or timeout error and the budget is not used up, the loop sets its timer,
    picks again at the later clock reading, and if the endpoint picked is an
    untried one whose client resolves, [send] resolves with that value: two
    client calls, one timer between them, one random draw. *)
Theorem failover_then_success :
  forall (maxUniqueTries : Z) (fuel : nat) (s : Loop)
         (ep1 ep2 : Router.Endpoint) (r1 r2 : Router.Router)
         (e : JsError) (v : V) (w1 w2 : World),
    Router.pick (w_router (world s)) (w_stats (world s)) (w_now (world s))
      = (Router.Returns (Some ep1), r1) ->
    Router.providerId ep1 ∉ tried s ->
    provider_send ep1 method
      {| w_router := r1; w_stats := w_stats (world s); w_now := w_now (world s) |}
      = (Rejected e, w1) ->
    shouldFailover e = true ->
    Z.of_nat (size ({[Router.providerId ep1]} ∪ tried s)) < maxUniqueTries ->
    let jitter :=
      (random (draws s)
       * baseDelay (size ({[Router.providerId ep1]} ∪ tried s)))%Q in
    let later :=
      w_now w1 + Z.max 1 (Qfloor jitter) + Z.of_N (lag (length (trace s))) in
    Router.pick (w_router w1) (w_stats w1) later = (Router.Returns (Some ep2), r2) ->
    Router.providerId ep2 ∉ {[Router.providerId ep1]} ∪ tried s ->
    provider_send ep2 method
      {| w_router := r2; w_stats := w_stats w1; w_now := later |}
      = (Resolved v, w2) ->
    loop provider_send random lag method maxUniqueTries (S (S fuel)) s
    = Some (Resolved v,
            {| tried := {[Router.providerId ep2]}
                          ∪ ({[Router.providerId ep1]} ∪ tried s);
               world := w2;
               draws := S (draws s);
               trace := trace s ++ [EvPick ep1; EvSend ep1; EvBackoff jitter;
                                    EvPick ep2; EvSend ep2] |}).
Proof.
  intros maxUniqueTries fuel s ep1 ep2 r1 r2 e v w1 w2
         Hpick1 Hnew1 Hsend1 Hfo Hbudget jitter later Hpick2 Hnew2 Hsend2.
  assert (Hguard : Z.of_nat (size (tried s)) < maxUniqueTries).
  { assert (size (tried s) <= size ({[Router.providerId ep1]} ∪ tried s))%nat
      by (apply subseteq_size, union_subseteq_r).
    lia. }
  cbn [loop].
  apply Z.ltb_lt in Hguard. rewrite Hguard.
  unfold iteration at 1.
  rewrite Hpick1, bool_decide_eq_false_2 by done.
  rewrite Hsend1, Hfo. cbn [negb].
  destruct (maxUniqueTries <=? _) eqn:Eb; [apply Z.leb_le in Eb; lia|].
  cbn [tried]. apply Z.ltb_lt in Hbudget. rewrite Hbudget.
  unfold iteration. cbn [world w_router w_stats w_now tried trace draws].
  fold jitter. fold later.
  rewrite Hpick2, bool_decide_eq_false_2 by done.
  rewrite Hsend2. do 3 f_equal.
  by rewrite <- !app_assoc.
Qed.

End PoolFailover.

Lemma failover_then_success_witness :
  exists s',
    RpcPoolProvider.loop (stub_send tooMany) (fun _ => 1 # 2) steady "eth_blockNumber"
      2 2
      {| RpcPoolProvider.tried := ∅; RpcPoolProvider.world := quick_start_world;
         RpcPoolProvider.draws := 0; RpcPoolProvider.trace := [] |}
    = Some (Utils.Resolved 19000000, s').
Proof.
  eexists.
  eapply (failover_then_success (stub_send tooMany) (fun _ => 1 # 2) steady
            "eth_blockNumber" 2 0
            {| RpcPoolProvider.tried := ∅;
               RpcPoolProvider.world := quick_start_world;
               RpcPoolProvider.draws := 0; RpcPoolProvider.trace := [] |}
            {| Router.providerId := "rpc#1-chainId:1-http://rpc1.invalid";
               Router.url := "http://rpc1.invalid" |}
            {| Router.providerId := "rpc#2-chainId:1-http://rpc2.invalid";
               Router.url := "http://rpc2.invalid" |}).
  - reflexivity.
  - apply not_elem_of_empty.
  - reflexivity.
  - reflexivity.
  - vm_compute. reflexivity.
  - reflexivity.
  - vm_compute. intros H. discriminate H.
  - reflexivity.
Defined.

(** ** Error classification *)

Section Classification.

Import Utils Occurs.

Lemma strip_ci_spec (p : string) :
  forall s rest : string,
    Js.strip_ci p s = Some rest
    <-> exists mid, s = mid +:+ rest /\ lower_string mid = lower_string p.
Proof.
  induction p as [|a p IH]; intros s rest; cbn [Js.strip_ci lower_string].
  - split.
    + intros [= <-]. by exists EmptyString.
    + intros (mid & -> & Hm). destruct mid; [done|discriminate].
  - destruct s as [|b s].
    + split; [discriminate|]. intros ([|c mid] & Hs & Hm); discriminate.
    + destruct (Ascii.eqb (Js.lower a) (Js.lower b)) eqn:E.
      * apply Ascii.eqb_eq in E. rewrite IH. split.
        -- intros (mid & -> & Hm). exists (String b mid). cbn.
           by rewrite Hm, E.
        -- intros ([|c mid] & Hs & Hm); [discriminate|].
           cbn in Hs, Hm. injection Hs as <- ->. injection Hm as _ Hm.
           by exists mid.
      * apply Ascii.eqb_neq in E. split; [discriminate|].
        intros ([|c mid] & Hs & Hm); [discriminate|].
        cbn in Hs, Hm. injection Hs as <- ->. injection Hm as Hc _.
        by destruct E.
Qed.

Lemma test_ci_occurs (p s : string) : Js.test_ci p s = true <-> occurs_ci p s.
Proof.
  induction s as [|c s IH]; cbn [Js.test_ci].
  - destruct (Js.strip_ci p EmptyString) as [rest|] eqn:E.
    + split; [|done]. intros _. apply strip_ci_spec in E as (mid & Hs & Hm).
      by exists EmptyString, mid, rest.
    + split; [discriminate|]. intros (pre & mid & suf & Hs & Hm).
      destruct pre; [|discriminate]. cbn in Hs.
      assert (Js.strip_ci p EmptyString = Some suf) as E'
        by (apply strip_ci_spec; by exists mid).
      congruence.
  - destruct (Js.strip_ci p (String c s)) as [rest|] eqn:E.
    + split; [|done]. intros _. apply strip_ci_spec in E as (mid & Hs & Hm).
      by exists EmptyString, mid, rest.
    + rewrite IH. split.
      * intros (pre & mid & suf & -> & Hm). by exists (String c pre), mid, suf.
      * intros ([|c' pre] & mid & suf & Hs & Hm).
        -- cbn in Hs.
           assert (Js.strip_ci p (String c s) = Some suf) as E'
             by (apply strip_ci_spec; by exists mid).
           congruence.
        -- cbn in Hs. injection Hs as _ ->. by exists pre, mid, suf.
Qed.

Lemma test_any_ci_occurs (ps : list string) (s : string) :
  Js.test_any_ci ps s = true <-> exists p, p ∈ ps /\ occurs_ci p s.
Proof.
  unfold Js.test_any_ci. rewrite existsb_exists. split.
  - intros (p & Hin & Ht). exists p. split; [by apply list_elem_of_In|].
    by apply test_ci_occurs.
  - intros (p & Hin & Ho). exists p. split; [by apply list_elem_of_In|].
    by apply test_ci_occurs.
Qed.

(** X22. Which errors count as timeouts: those whose [code] is "TIMEOUT",
    those whose HTTP status (the first one found among the six places
    looked at) is 504, and those whose message contains, in any letter case
    and anywhere, one of "timeout", "timed out", "ETIMEDOUT",
    "ESOCKETTIMEDOUT", "ECONNABORTED", "504 Gateway"; and no others. *)
Theorem isTimeoutError_iff :
  forall e : JsError,
    isTimeoutError e = true
    <-> code e = Some "TIMEOUT"
        \/ getHttpStatus e = Some 504
        \/ exists p,
             p ∈ ["timeout"; "timed out"; "ETIMEDOUT"; "ESOCKETTIMEDOUT";
                  "ECONNABORTED"; "504 Gateway"]
             /\ occurs_ci p (msg_of e).
Proof.
  intros e. unfold isTimeoutError.
  destruct (bool_decide (code e = Some "TIMEOUT")) eqn:Ec.
  { apply bool_decide_eq_true in Ec. split; [by left|done]. }
  apply bool_decide_eq_false in Ec.
  destruct (bool_decide (getHttpStatus e = Some 504)) eqn:Es.
  { apply bool_decide_eq_true in Es. split; [by right; left|done]. }
  apply bool_decide_eq_false in Es.
  rewrite test_any_ci_occurs. split; [by right; right|].
  intros [H|[H|H]]; done.
Qed.

Lemma is_space_lower (c : ascii) : Js.is_space (Js.lower c) = Js.is_space c.
Proof. by destruct c as [[] [] [] [] [] [] [] []]. Qed.

Lemma skip_spaces_app (ws rest : string) :
  all_spaces ws = true -> Js.skip_spaces (ws +:+ rest) = Js.skip_spaces rest.
Proof.
  induction ws as [|c ws IH]; [done|].
  change (String c ws +:+ rest) with (String c (ws +:+ rest)).
  cbn [all_spaces Js.skip_spaces].
  intros [Hc Hws]%andb_true_iff.
  destruct (Js.is_space c); [by apply IH|discriminate].
Qed.

Lemma test_ci_gap_unfold (p q s : string) :
  Js.test_ci_gap p q s
  = match Js.strip_ci p s with
    | Some rest =>
        match Js.strip_ci q (Js.skip_spaces rest) with
        | Some _ => true
        | None => match s with
                  | EmptyString => false
                  | String _ s' => Js.test_ci_gap p q s'
                  end
        end
    | None => match s with
              | EmptyString => false
              | String _ s' => Js.test_ci_gap p q s'
              end
    end.
Proof. by destruct s. Qed.

Lemma test_ci_gap_occurs (p q s : string) (q0 : ascii) :
  Js.is_space q0 = false ->
  occurs_gap_ci p (String q0 q) s ->
  Js.test_ci_gap p (String q0 q) s = true.
Proof.
  intros Hq (pre & mid & ws & mid2 & suf & -> & Hm & Hws & Hm2).
  induction pre as [|c pre IH].
  - change (EmptyString +:+ mid +:+ ws +:+ mid2 +:+ suf)
      with (mid +:+ ws +:+ mid2 +:+ suf).
    rewrite test_ci_gap_unfold.
    assert (Js.strip_ci p (mid +:+ ws +:+ mid2 +:+ suf)
            = Some (ws +:+ mid2 +:+ suf)) as ->
      by (apply strip_ci_spec; by exists mid).
    rewrite skip_spaces_app by done.
    destruct mid2 as [|b m]; [discriminate|].
    cbn [lower_string] in Hm2. injection Hm2 as Hb Hm2.
    assert (Js.is_space b = false) as Hsb
      by (by rewrite <- is_space_lower, Hb, is_space_lower).
    change (String b m +:+ suf) with (String b (m +:+ suf)).
    cbn [Js.skip_spaces]. rewrite Hsb.
    assert (Js.strip_ci (String q0 q) (String b (m +:+ suf)) = Some suf) as ->;
      [|done].
    apply strip_ci_spec. exists (String b m). split; [done|].
    cbn [lower_string]. by rewrite Hb, Hm2.
  - rewrite test_ci_gap_unfold.
    change (String c pre +:+ mid +:+ ws +:+ mid2 +:+ suf)
      with (String c (pre +:+ mid +:+ ws +:+ mid2 +:+ suf)).
    cbv beta iota. rewrite IH. by repeat case_match.
Qed.

(** X23. Errors that are always treated as rate limiting, and therefore as
    grounds for failover: those whose HTTP status is 429 or 402, and those
    whose message contains, in any letter case and anywhere, one of
    "rate limit", "payment required", "too many requests", "429", "quota",
    "throttl", or "error code:" followed by any number of blanks and "1015".
    In particular the digits 429 anywhere in a message are enough. *)
Theorem rate_limit_sufficient :
  forall e : JsError,
    getHttpStatus e = Some 429
    \/ getHttpStatus e = Some 402
    \/ occurs_gap_ci "error code:" "1015" (msg_of e)
    \/ (exists p,
          p ∈ ["rate limit"; "payment required"; "too many requests";
               "429"; "quota"; "throttl"]
          /\ occurs_ci p (msg_of e)) ->
    isRateLimitError e = true /\ shouldFailover e = true.
Proof.
  intros e H.
  assert (isRateLimitError e = true) as Hrl.
  { unfold isRateLimitError.
    destruct H as [H|[H|[H|H]]].
    - by rewrite H.
    - rewrite H. by rewrite orb_true_r.
    - rewrite (test_ci_gap_occurs "error code:" "015" _ "1" eq_refl H).
      by case_match.
    - apply test_any_ci_occurs in H. rewrite H. by repeat case_match. }
  split; [done|]. unfold shouldFailover. rewrite Hrl. apply orb_true_r.
Qed.

Lemma rate_limit_sufficient_witness :
  let e := mkError "Request failed: Error Code:   1015 (banned)" None None in
  occurs_gap_ci "error code:" "1015" (msg_of e)
  /\ isRateLimitError e = true /\ shouldFailover e = true.
Proof.
  intros e.
  assert (occurs_gap_ci "error code:" "1015" (msg_of e)) as H.
  { exists "Request failed: ", "Error Code:", "   ", "1015", " (banned)".
    by vm_compute. }
  split; [done|].
  apply rate_limit_sufficient. by right; right; left.
Defined.

End Classification.

(** ** Building a pool *)

Section PoolConstruction.

Import RpcPoolProvider.

Lemma mapM_imap_Some {A B : Type} (l : list A) :
  forall f : nat -> A -> B,
    mapM id (imap (fun i x => Some (f i x)) l) = Some (imap f l).
Proof.
  induction l as [|x l IH]; intros f; [done|].
  cbn [imap]. specialize (IH (f ∘ S)).
  change ((fun i x => Some (f i x)) ∘ S) with (fun i x => Some ((f ∘ S) i x)).
  cbn [mapM id mbind option_bind]. rewrite IH. done.
Qed.

Lemma new_cases (p : RPCPoolProviderParams) :
  ((exists z, perUrl_inFlight p = Js.Int z /\ 0 < z)
   /\ RpcPoolProvider.new p
      = Some {| params := p;
                router :=
                  Router.new
                    (imap (fun i url =>
                             {| Router.providerId := mkProviderId (chainId p) i url;
                                Router.url := url |}) (urls p));
                stats := Stats.new |})
  \/ ((forall z, perUrl_inFlight p = Js.Int z -> z <= 0)
      /\ RpcPoolProvider.new p
         = match urls p with
           | [] => Some {| params := p; router := Router.new [];
                           stats := Stats.new |}
           | _ :: _ => None
           end).
Proof.
  unfold RpcPoolProvider.new, Semaphore.new.
  destruct (perUrl_inFlight p) as [z| | |] eqn:Ez.
  - destruct (z <=? 0) eqn:E.
    + apply Z.leb_le in E. right. split; [by intros z' [= <-]|].
      by destruct (urls p).
    + apply Z.leb_gt in E. left. split; [by exists z|].
      cbv beta iota zeta. by rewrite mapM_imap_Some.
  - right. split; [done|]. by destruct (urls p).
  - right. split; [done|]. by destruct (urls p).
  - right. split; [done|]. by destruct (urls p).
Qed.

(** X24. Building a pool throws exactly when the in-flight limit per url
    is not a positive integer (it is zero, negative, infinite or no number)
    and at least one url is listed; with no urls any limit is accepted.  A
    pool that is built starts with the cursor at 0, an empty statistics
    registry, and one endpoint per listed url, in order. *)
Theorem pool_construction :
  forall p : RPCPoolProviderParams,
    (RpcPoolProvider.new p = None
     <-> (forall z, perUrl_inFlight p = Js.Int z -> z <= 0) /\ urls p <> [])
    /\ (forall pool,
          RpcPoolProvider.new p = Some pool
          <-> ((exists z, perUrl_inFlight p = Js.Int z /\ 0 < z) \/ urls p = [])
              /\ params pool = p
              /\ Router.rr (router pool) = 0
              /\ stats pool = Stats.new
              /\ Router.endpoints (router pool)
                 = imap (fun i url =>
                           {| Router.providerId := mkProviderId (chainId p) i url;
                              Router.url := url |}) (urls p)).
Proof.
  intros p.
  destruct (new_cases p) as [[(z & Hz & Hpos) ->]|[Hneg ->]].
  - split.
    + split; [discriminate|]. intros [Hall _]. specialize (Hall z Hz). lia.
    + intros pool. split.
      * intros [= <-]. repeat split; try done. left. by exists z.
      * intros (_ & Hp & Hrr & Hst & Hep). destruct pool as [pp [eps r] st].
        cbn in Hp, Hrr, Hst, Hep. by subst.
  - destruct (urls p) as [|u us] eqn:Hu.
    + split.
      * split; [discriminate|]. by intros [_ ?].
      * intros pool. split.
        -- intros [= <-]. repeat split; try done. by right.
        -- intros (_ & Hp & Hrr & Hst & Hep). destruct pool as [pp [eps r] st].
           cbn in Hp, Hrr, Hst, Hep. by subst.
    + split.
      * split; done.
      * intros pool. split; [discriminate|].
        intros ([(z & Hz & Hpos)|?] & _); [|congruence].
        specialize (Hneg z Hz). lia.
Qed.

Lemma pool_construction_witness :
  RpcPoolProvider.new unbounded = None.
Proof.
  apply (proj1 (pool_construction unbounded)). split; [|discriminate].
  intros z Hz. discriminate Hz.
Defined.

Lemma uint_string_prefix (d d' : Decimal.uint) (x x' : string) :
  (NilEmpty.string_of_uint d ++ String "-" x
   = NilEmpty.string_of_uint d' ++ String "-" x')%string ->
  d = d'.
Proof.
  revert d'.
  induction d as [|d IH|d IH|d IH|d IH|d IH|d IH|d IH|d IH|d IH|d IH];
    intros [|d'|d'|d'|d'|d'|d'|d'|d'|d'|d'];
    cbn [NilEmpty.string_of_uint String.append]; intros H;
    try discriminate H; try reflexivity;
    injection H as H; f_equal; by apply IH.
Qed.

Lemma mkProviderId_index (c : Z) (i j : nat) (u v : string) :
  mkProviderId c i u = mkProviderId c j v -> i = j.
Proof.
  unfold mkProviderId, Js.num_to_string.
  assert (Z.of_nat i + 1 = Z.pos (Pos.of_succ_nat i)) as -> by lia.
  assert (Z.of_nat j + 1 = Z.pos (Pos.of_succ_nat j)) as -> by lia.
  cbn [Z.to_int NilZero.string_of_int].
  assert (forall q, NilZero.string_of_uint (Pos.to_uint q)
                    = NilEmpty.string_of_uint (Pos.to_uint q)) as Hnz.
  { intros q. pose proof (DecimalPos.Unsigned.to_uint_nonnil q).
    by destruct (Pos.to_uint q). }
  rewrite !Hnz. intros H.
  change ("rpc#" ++ ?x)%string with (String "r" (String "p" (String "c" (String "#" x)))) in H.
  injection H as H.
  apply uint_string_prefix, DecimalPos.Unsigned.to_uint_inj in H. lia.
Qed.

(** X25. The endpoints of a pool have pairwise different provider ids, also
    when a url is listed more than once: the position in the list is part
    of the id, and the pool has as many endpoints as urls listed. *)
Theorem provider_ids_distinct :
  forall (p : RPCPoolProviderParams) (pool : RPCPoolProvider),
    RpcPoolProvider.new p = Some pool ->
    length (Router.endpoints (router pool)) = length (urls p)
    /\ forall (i j : nat) (a b : Router.Endpoint),
         Router.endpoints (router pool) !! i = Some a ->
         Router.endpoints (router pool) !! j = Some b ->
         Router.providerId a = Router.providerId b ->
         i = j.
Proof.
  intros p pool Hnew.
  assert (Router.endpoints (router pool)
          = imap (fun i url =>
                    {| Router.providerId := mkProviderId (chainId p) i url;
                       Router.url := url |}) (urls p)) as ->.
  { destruct (new_cases p) as [[_ E]|[_ E]]; rewrite E in Hnew.
    - by injection Hnew as <-.
    - destruct (urls p); [|discriminate]. by injection Hnew as <-. }
  split; [by rewrite length_imap|].
  intros i j a b Ha Hb Hid.
  rewrite list_lookup_imap in Ha, Hb.
  destruct (urls p !! i) as [u|]; [|discriminate].
  destruct (urls p !! j) as [v|]; [|discriminate].
  cbn in Ha, Hb. injection Ha as <-. injection Hb as <-.
  by apply mkProviderId_index in Hid.
Qed.

Lemma provider_ids_distinct_witness :
  exists pool a b,
    RpcPoolProvider.new mirrored = Some pool
    /\ Router.endpoints (router pool) !! 0%nat = Some a
    /\ Router.endpoints (router pool) !! 1%nat = Some b
    /\ Router.url a = Router.url b
    /\ Router.providerId a <> Router.providerId b.
Proof.
  destruct (RpcPoolProvider.new mirrored) as [pool|] eqn:E;
    [|vm_compute in E; discriminate].
  destruct (Router.endpoints (router pool) !! 0%nat) as [a|] eqn:Ea;
    [|vm_compute in E; injection E as <-; discriminate].
  destruct (Router.endpoints (router pool) !! 1%nat) as [b|] eqn:Eb;
    [|vm_compute in E; injection E as <-; discriminate].
  exists pool, a, b.
  split; [reflexivity|]. split; [exact Ea|]. split; [exact Eb|]. split.
  - vm_compute in E. injection E as <-.
    injection Ea as <-. by injection Eb as <-.
  - intros Hid.
    pose proof (proj2 (provider_ids_distinct mirrored pool E) _ _ _ _ Ea Eb Hid).
    discriminate.
Defined.

End PoolConstruction.

(** ** The registry's totals *)

Section StatsSums.

Import Stats StatsOps.

Lemma get_default (m : gmap string Z) (k : string) :
  get m k = default 0 (m !! k).
Proof.
  unfold get, Js.or_num. destruct (m !! k) as [v|]; [|done]. cbn.
  destruct (v =? 0) eqn:E; [|done]. apply Z.eqb_eq in E. lia.
Qed.

Lemma sum_insert (m : gmap string Z) (k : string) (v : Z) :
  sum (<[k := v]> m) = sum m - get m k + v.
Proof.
  rewrite get_default. unfold sum. rewrite <- insert_delete_eq.
  rewrite map_fold_insert_L;
    [|intros; lia|apply lookup_delete_eq].
  destruct (m !! k) as [x|] eqn:E.
  - rewrite (map_fold_delete_L _ _ k x m); [cbn; lia|intros; lia|done].
  - rewrite delete_id by done. cbn. lia.
Qed.

Lemma sum_nonneg_ge (m : gmap string Z) (k : string) :
  (forall j, 0 <= get m j) -> get m k <= sum m.
Proof.
  intros Hnn. rewrite get_default. unfold sum.
  induction m as [|j x m Hj Hfold IH] using map_first_key_ind.
  - rewrite lookup_empty, map_fold_empty. done.
  - rewrite map_fold_insert_first_key by done.
    assert (0 <= x) as Hx.
    { specialize (Hnn j). rewrite get_insert in Hnn. by rewrite decide_True in Hnn. }
    assert (forall i, 0 <= get m i) as Hm.
    { intros i. destruct (decide (j = i)) as [<-|Hne].
      - rewrite get_default, Hj. done.
      - specialize (Hnn i). rewrite get_insert in Hnn.
        by rewrite decide_False in Hnn. }
    specialize (IH Hm).
    assert (0 <= map_fold (fun _ v acc => v + acc) 0 m) as Hs.
    { clear IH Hnn Hfold Hj. revert Hm.
      induction m as [|i y m Hi Hfold IH] using map_first_key_ind; intros Hm.
      - by rewrite map_fold_empty.
      - rewrite map_fold_insert_first_key by done.
        assert (0 <= y).
        { specialize (Hm i). rewrite get_insert in Hm.
          by rewrite decide_True in Hm. }
        assert (0 <= map_fold (fun _ v acc => v + acc) 0 m); [|lia].
        apply IH. intros i'. destruct (decide (i = i')) as [<-|Hne].
        + rewrite get_default, Hi. done.
        + specialize (Hm i'). rewrite get_insert in Hm.
          by rewrite decide_False in Hm. }
    destruct (decide (j = k)) as [<-|Hne].
    + rewrite lookup_insert_eq. cbn. lia.
    + rewrite lookup_insert_ne by done. lia.
Qed.

Lemma step_balanced (s : Stats) (op : Op) :
  NonNeg s -> Balanced s -> Balanced (step s op).
Proof.
  intros Hnn [H1 H2 H3 H4].
  pose proof (sum_nonneg_ge (_perProviderInFlight s)) as Hge.
  destruct op as [id|id| |m|id|id|id|id ms now]; constructor;
    cbn [step bumpInFlightPerProvider decreaseInFlightPerProvider
         decreaseInFlight bumpPerMethod bumpRateLimitedPerProvider
         bumpTimeoutPerProvider bumpProviderTotal setCooldown
         _total _inFlight _perMethod _rateLimitedTotal _timeoutTotal
         _perProviderInFlight _perProviderTotal _perProviderTimeout
         _perProviderRateLimited _providerCooldownUntil];
    unfold _bump, _decrease; rewrite ?sum_insert; try lia.
  - pose proof (Hge id (nn_perProviderInFlight s Hnn)).
    pose proof (nn_perProviderInFlight s Hnn id). lia.
  - pose proof (Hge EmptyString (nn_perProviderInFlight s Hnn)).
    pose proof (nn_perProviderInFlight s Hnn EmptyString). lia.
Qed.

(** X26. Whatever mutators are called on a fresh registry, in whatever
    order, the overall totals stay equal to the sums of the per-endpoint
    counters (calls, timeouts, rate limits), and the overall in-flight
    counter never exceeds the sum of the per-endpoint in-flight counters. *)
Theorem stats_totals_are_sums :
  forall ops : list Op, Balanced (run ops Stats.new).
Proof.
  intros ops. unfold run.
  assert (Hgen : forall s0, NonNeg s0 -> Balanced s0 ->
                            Balanced (fold_left step ops s0)).
  { induction ops as [|o ops IH]; intros s0 Hn Hb; [done|].
    cbn [fold_left]. apply IH; [by apply step_nonneg|by apply step_balanced]. }
  apply Hgen.
  - constructor; cbn; try done; intros k; unfold get; by rewrite lookup_empty.
  - constructor; cbn [Stats.new _total _inFlight _rateLimitedTotal _timeoutTotal
                      _perProviderInFlight _perProviderTotal _perProviderTimeout
                      _perProviderRateLimited]; unfold sum;
      rewrite map_fold_empty; done.
Qed.

End StatsSums.
